(** * Huffman compression (main.py): a shallow embedding and its properties

    The development follows the Python program function by function:
    [build_frequency_table], [build_huffman_tree] (on top of the [heapq]
    binary heap it imports), [build_encoding_table], [compress_file],
    [decompress_file], [analyze_frequency], [calculate_compression_ratio],
    [print_help] and [main].

    Conventions of the embedding.
    - A Python [str] is a [list ascii]; a [bytes] object is a [list byte].
    - Iterating a [bytes] object yields ints, iterating a [str] yields
      one-character strings: dictionary keys are therefore values of
      [pyval], which keeps the two kinds apart exactly as Python does.
    - A [dict] is an insertion-ordered association list with unique keys.
    - A raised exception is [None] in the [option] monad.
    - [print] appends a line to a list of output lines.
    - The files are a finite map from names to contents, without
      directories or permissions: a missing name cannot be read, and a write
      replaces the file or creates it. The one name the program derives
      that no system accepts, the empty name [decompress_file] gets from an
      input name of five characters or fewer, is refused there as by
      [open].
    - A text read from a file opened in text mode is the list of its
      characters, each one a [str] holding its UTF-8 bytes. *)

From Stdlib Require Import ZArith Lia List ZifyNat DecimalString.
From Stdlib.Strings Require Import Ascii String Byte.
From stdpp Require Import base tactics option list numbers gmap strings.

Local Open Scope Z_scope.
Local Open Scope nat_scope.

(** [lia] also decides goals with division and remainder by a constant. *)
Ltac Zify.zify_post_hook ::= Z.to_euclidean_division_equations.

(** ** Python values used as dictionary keys *)

Abbreviation str := (list ascii) (only parsing).
Abbreviation bytes := (list byte) (only parsing).

Inductive pyval :=
  | PInt (n : Z)
  | PStr (s : str).

#[global] Instance pyval_eq_dec : EqDecision pyval.
Proof. solve_decision. Defined.

(** Iterating over a [bytes] object: each element is an int in 0..255. *)
Definition byte_value (b : byte) : Z := Z.of_N (Byte.to_N b).
Definition iter_bytes (data : bytes) : list pyval :=
  (fun b => PInt (byte_value b)) <$> data.

(** Iterating over a [str]: each element is a one-character [str]. *)
Definition iter_str (data : str) : list pyval :=
  (fun c => PStr [c]) <$> data.

(** ** Dictionaries *)

Definition dict (V : Type) := list (pyval * V).

Fixpoint dict_get {V} (k : pyval) (d : dict V) : option V :=
  match d with
  | [] => None
  | (k', v) :: d' => if decide (k' = k) then Some v else dict_get k d'
  end.

(** [d[k] = v]: an existing key keeps its position, a new key goes last. *)
Fixpoint dict_set {V} (k : pyval) (v : V) (d : dict V) : dict V :=
  match d with
  | [] => [(k, v)]
  | (k', v') :: d' =>
      if decide (k' = k) then (k', v) :: d' else (k', v') :: dict_set k v d'
  end.

Definition dict_keys {V} (d : dict V) : list pyval := fst <$> d.

(** ** class HuffmanNode *)

#[warnings="-register-all"]
Inductive HuffmanNode :=
  | Node (char : option pyval) (freq : Z) (left right : option HuffmanNode).

Definition char (n : HuffmanNode) : option pyval :=
  match n with Node c _ _ _ => c end.
Definition freq (n : HuffmanNode) : Z :=
  match n with Node _ f _ _ => f end.
Definition left (n : HuffmanNode) : option HuffmanNode :=
  match n with Node _ _ l _ => l end.
Definition right (n : HuffmanNode) : option HuffmanNode :=
  match n with Node _ _ _ r => r end.

(** [HuffmanNode(char, freq)]: both children start as [None]. *)
Definition new_node (char : option pyval) (freq : Z) : HuffmanNode :=
  Node char freq None None.

(** [__lt__] *)
Definition node_lt (self other : HuffmanNode) : bool :=
  (freq self <? freq other)%Z.

(** ** heapq

    The binary heap of Python's standard library, on a list, with the
    element order given by [lt] ([__lt__]).  [None] is an [IndexError]; the
    loops carry a budget that bounds their iterations, and running out of it
    is [None] as well (the lemmas below show neither happens). *)

Module heapq.
Section heapq.
Context {A : Type} (lt : A -> A -> bool).

(** The [while pos > startpos] loop of [_siftdown]. *)
Fixpoint siftdown_loop (fuel : nat) (heap : list A) (startpos pos : nat)
    (newitem : A) : option (list A) :=
  if decide (startpos < pos) then
    match fuel with
    | O => None
    | S fuel' =>
        let parentpos := (pos - 1) / 2 in
        parent ← heap !! parentpos;
        if lt newitem parent then
          siftdown_loop fuel' (<[pos:=parent]> heap) startpos parentpos newitem
        else Some (<[pos:=newitem]> heap)
    end
  else Some (<[pos:=newitem]> heap).

Definition _siftdown (heap : list A) (startpos pos : nat) : option (list A) :=
  newitem ← heap !! pos;
  siftdown_loop pos heap startpos pos newitem.

(** The [while childpos < endpos] loop of [_siftup]; it returns the heap and
    the position the hole ended at. *)
Fixpoint siftup_loop (fuel : nat) (heap : list A) (endpos pos : nat)
    : option (list A * nat) :=
  let childpos := 2 * pos + 1 in
  if decide (childpos < endpos) then
    match fuel with
    | O => None
    | S fuel' =>
        let rightpos := childpos + 1 in
        childpos ←
          (if decide (rightpos < endpos) then
             l ← heap !! childpos; r ← heap !! rightpos;
             Some (if negb (lt l r) then rightpos else childpos)
           else Some childpos);
        child ← heap !! childpos;
        siftup_loop fuel' (<[pos:=child]> heap) endpos childpos
    end
  else Some (heap, pos).

Definition _siftup (heap : list A) (pos : nat) : option (list A) :=
  let endpos := length heap in
  let startpos := pos in
  newitem ← heap !! pos;
  '(heap, pos) ← siftup_loop endpos heap endpos pos;
  _siftdown (<[pos:=newitem]> heap) startpos pos.

Definition heappush (heap : list A) (item : A) : option (list A) :=
  let heap := heap ++ [item] in
  _siftdown heap 0 (length heap - 1).

(** [heappop] returns the popped item and the heap left. *)
Definition heappop (heap : list A) : option (A * list A) :=
  lastelt ← last heap;
  let heap := removelast heap in
  match heap with
  | returnitem :: _ =>
      heap ← _siftup (<[0:=lastelt]> heap) 0;
      Some (returnitem, heap)
  | [] => Some (lastelt, heap)
  end.

End heapq.
End heapq.

(** ** build_frequency_table *)

Definition build_frequency_table (data : list pyval) : dict Z :=
  fold_left
    (fun frequency_table char =>
       dict_set char (default 0%Z (dict_get char frequency_table) + 1)%Z
         frequency_table)
    data [].

(** ** build_huffman_tree *)

(** The [for char, freq in frequency_table.items()] loop. *)
Fixpoint push_leaves (items : dict Z) (heap : list HuffmanNode)
    : option (list HuffmanNode) :=
  match items with
  | [] => Some heap
  | (char, freq) :: items' =>
      heap ← heapq.heappush node_lt heap (new_node (Some char) freq);
      push_leaves items' heap
  end.

(** [merged = HuffmanNode(None, node1.freq + node2.freq)] with its two
    children set. *)
Definition merge_nodes (node1 node2 : HuffmanNode) : HuffmanNode :=
  Node None (freq node1 + freq node2)%Z (Some node1) (Some node2).

(** The [while len(heap) > 1] loop. *)
Fixpoint merge_loop (fuel : nat) (heap : list HuffmanNode)
    : option (list HuffmanNode) :=
  if decide (1 < length heap) then
    match fuel with
    | O => None
    | S fuel' =>
        '(node1, heap) ← heapq.heappop node_lt heap;
        '(node2, heap) ← heapq.heappop node_lt heap;
        let merged := merge_nodes node1 node2 in
        heap ← heapq.heappush node_lt heap merged;
        merge_loop fuel' heap
    end
  else Some heap.

(** A string literal of the program, as a [str]. *)
Definition lit (s : string) : str := list_ascii_of_string s.

Definition empty_tree_message : str :=
  lit "Erro: nenhum símbolo encontrado para construir a árvore de Huffman.".

(** The function returns the printed lines together with its value (the root,
    or Python's [None]); the outer [option] is [None] on an exception. *)
Definition build_huffman_tree (frequency_table : dict Z)
    : option (list str * option HuffmanNode) :=
  heap ← push_leaves frequency_table [];
  heap ← merge_loop (length heap) heap;
  match heap with
  | [] => Some ([empty_tree_message], None)
  | root :: _ => Some ([], Some root)
  end.

(** ** build_encoding_table *)

Fixpoint build_encoding_node (node : HuffmanNode) (code : str)
    (encoding_table : dict str) : dict str :=
  match node with
  | Node char _ left right =>
      let encoding_table :=
        match char with
        | Some c => dict_set c code encoding_table
        | None => encoding_table
        end in
      let encoding_table :=
        match left with
        | None => encoding_table
        | Some l => build_encoding_node l (code ++ ["0"%char]) encoding_table
        end in
      match right with
      | None => encoding_table
      | Some r => build_encoding_node r (code ++ ["1"%char]) encoding_table
      end
  end.

(** The nested [build_encoding_helper(node, code)], threading the table it
    updates. *)
Definition build_encoding_helper (node : option HuffmanNode) (code : str)
    (encoding_table : dict str) : dict str :=
  match node with
  | None => encoding_table
  | Some n => build_encoding_node n code encoding_table
  end.

Definition build_encoding_table (huffman_tree : option HuffmanNode) : dict str :=
  build_encoding_helper huffman_tree [] [].

(** ** Built-ins used by compress_file and decompress_file *)

(** [bytes.rstrip()]: trailing ASCII whitespace (space, tab, newline,
    carriage return, vertical tab, form feed) is removed. *)
Definition is_ascii_whitespace (b : byte) : bool :=
  match b with
  | x20 | x09 | x0a | x0d | x0b | x0c => true
  | _ => false
  end.

Fixpoint rstrip (data : bytes) : bytes :=
  match data with
  | [] => []
  | b :: rest =>
      match rstrip rest with
      | [] => if is_ascii_whitespace b then [] else [b]
      | stripped => b :: stripped
      end
  end.

(** [range(0, stop, step)] *)
Definition py_range (stop step : nat) : list nat :=
  (fun k => k * step) <$> seq 0 ((stop + step - 1) / step).

(** [s[i:j]] for [0 <= i <= j] *)
Definition slice {A} (s : list A) (i j : nat) : list A := take (j - i) (drop i s).

(** [s[:-n]] for [n >= 0]; Python reads [-0] as [0], so [s[:-0]] is empty. *)
Definition slice_to_neg {A} (s : list A) (n : nat) : list A :=
  if decide (n = 0) then [] else take (length s - n) s.

(** [int(s, 2)] on a string of binary digits; anything else is a
    [ValueError]. *)
Definition bit_of_char (c : ascii) : option Z :=
  if decide (c = "0"%char) then Some 0%Z
  else if decide (c = "1"%char) then Some 1%Z
  else None.

Definition int_base2 (s : str) : option Z :=
  match s with
  | [] => None
  | _ => fold_left (fun acc c => a ← acc; d ← bit_of_char c; Some (2 * a + d)%Z)
           s (Some 0%Z)
  end.

(** [bytearray.append(v)] and [bytes([v])]: [v] must be in [range(256)]. *)
Definition byte_of_int (v : Z) : option byte :=
  if decide (0 <= v < 256)%Z then Byte.of_N (Z.to_N v) else None.

(** [format(n, '08b')] for [n >= 0]: the binary digits, most significant
    first, padded with zeros on the left to a width of 8. *)
Fixpoint positive_digits (p : positive) : str :=
  match p with
  | xH => ["1"%char]
  | xO p' => positive_digits p' ++ ["0"%char]
  | xI p' => positive_digits p' ++ ["1"%char]
  end.

Definition format_08b (n : Z) : str :=
  let digits :=
    match n with
    | Z0 => ["0"%char]
    | Zpos p => positive_digits p
    | Zneg p => "-"%char :: positive_digits p
    end in
  replicate (8 - length digits) "0"%char ++ digits.

(** ** The files and the terminal *)

Record world := World {
  files : gmap str bytes;
  stdout : list str
}.

Definition print (line : str) (w : world) : world :=
  World (files w) (stdout w ++ [line]).

Definition print_lines (lines : list str) (w : world) : world :=
  World (files w) (stdout w ++ lines).

Definition write_file (name : str) (contents : bytes) (w : world) : world :=
  World (<[name:=contents]> (files w)) (stdout w).

(** ** compress_file *)

(** [''.join(encoding_table[char] for char in data)]; a missing key is a
    [KeyError]. *)
Definition join_codes (encoding_table : dict str) (data : list pyval) : option str :=
  codes ← mapM (fun char => dict_get char encoding_table) data;
  Some (concat codes).

(** [padding = 8 - len(encoded_data) % 8] *)
Definition padding_of (encoded_data : str) : nat := 8 - length encoded_data mod 8.

(** The loop that fills [byte_array]. *)
Definition pack_bytes (encoded_data : str) : option bytes :=
  mapM (fun i => v ← int_base2 (slice encoded_data i (i + 8)); byte_of_int v)
    (py_range (length encoded_data) 8).

(** The body of [compress_file] between reading [data] and writing the
    file: the lines printed on the way, and the bytes written (the header
    byte, then [byte_array]). *)
Definition compress_data (data : bytes) : option (list str * bytes) :=
  let frequency_table := build_frequency_table (iter_bytes data) in
  '(printed, huffman_tree) ← build_huffman_tree frequency_table;
  let encoding_table := build_encoding_table huffman_tree in
  encoded_data ← join_codes encoding_table (iter_bytes data);
  let padding := padding_of encoded_data in
  let encoded_data := encoded_data ++ replicate padding "0"%char in
  byte_array ← pack_bytes encoded_data;
  header ← byte_of_int (Z.of_nat padding);
  Some (printed, header :: byte_array).

Definition compress_file (input_file output_file : str) (w : world) : option world :=
  contents ← files w !! input_file;
  let data := rstrip contents in
  '(printed, written) ← compress_data data;
  Some (print (lit "Arquivo comprimido salvo como " ++ output_file)
          (write_file output_file written (print_lines printed w))).

(** ** decompress_file *)

(** One turn of the [for bit in encoded_data] loop, on the pair
    [(current_code, decoded_data)].  The table is the dictionary the caller
    passes: the test [current_code in encoding_table] and the read
    [encoding_table[current_code]] look the [str] [current_code] up among
    its keys, which is one [dict_get] here. *)
Definition decode_step (encoding_table : dict str) (st : str * str) (bit : ascii)
    : str * str :=
  let '(current_code, decoded_data) := st in
  let current_code := current_code ++ [bit] in
  match dict_get (PStr current_code) encoding_table with
  | Some char => ([], decoded_data ++ char)
  | None => (current_code, decoded_data)
  end.

Definition decode_loop (encoding_table : dict str) (encoded_data : str) : str * str :=
  fold_left (decode_step encoding_table) encoded_data ([], []).

(** The bit-string the decoder walks: the payload bytes expanded with
    [format(byte, '08b')], then [encoded_data[:-padding]]. *)
Definition expand_payload (payload : bytes) : str :=
  concat ((fun b => format_08b (byte_value b)) <$> payload).

(** [int.from_bytes(file.read(1), byteorder='big')] and [file.read()] *)
Definition read_header (contents : bytes) : nat * bytes :=
  match contents with
  | [] => (0, [])
  | b :: rest => (N.to_nat (Byte.to_N b), rest)
  end.

(** The value of [encoded_data] the loop of [decompress_file] walks, for
    the contents of the compressed file. *)
Definition walked_bits (contents : bytes) : str :=
  let '(padding, encoded_data) := read_header contents in
  let encoded_data := expand_payload encoded_data in
  slice_to_neg encoded_data padding.

(** The body of [decompress_file] between reading the file and writing the
    output: the value of [decoded_data] after the loop. *)
Definition decompress_data (contents : bytes) (encoding_table : dict str) : str :=
  snd (decode_loop encoding_table (walked_bits contents)).

(** A [str] written to a text file opened with [encoding='utf-8']: a [str]
    is kept as its UTF-8 bytes here. *)
Definition encode_utf8 (s : str) : bytes := byte_of_ascii <$> s.

(** [open(name, 'w')]: a file of that name is opened, or a new one is
    created; no file is created under the empty name, for which [open]
    raises [FileNotFoundError]. *)
Definition opens_for_writing (name : str) (w : world) : Prop :=
  name <> [] \/ is_Some (files w !! name).

(** For an [input_file] of five characters or fewer, [input_file[:-5]] is
    the empty name. *)
Definition decompress_file (input_file : str) (encoding_table : option (dict str))
    (w : world) : option world :=
  match encoding_table with
  | None => Some (print (lit "Erro: a tabela de codificação não foi fornecida.") w)
  | Some encoding_table =>
      let output_file := slice_to_neg input_file 5 in
      contents ← files w !! input_file;
      let decoded_data := decompress_data contents encoding_table in
      if decide (opens_for_writing output_file w) then
        Some (print (lit "Arquivo descomprimido salvo como " ++ output_file)
                (write_file output_file (encode_utf8 decoded_data) w))
      else None
  end.

(** ** main: the branches that compress and decompress *)

(** The [-c] option with [-f input_file]; the compression ratio [main]
    prints afterwards is left out. *)
Definition main_compress (input_file : str) (w : world) : option world :=
  let output_file := input_file ++ lit ".huff" in
  compress_file input_file output_file w.

(** The table [main] rebuilds for the [-d] option. *)
Definition rebuilt_table (contents : bytes) : option (list str * dict str) :=
  '(printed, huffman_tree) ←
    build_huffman_tree (build_frequency_table (iter_bytes (rstrip contents)));
  Some (printed, build_encoding_table huffman_tree).

(** The [-d] option with [-f input_file], for a name ending in [.huff]. *)
Definition main_decompress (input_file : str) (w : world) : option world :=
  contents ← files w !! input_file;
  '(printed, encoding_table) ← rebuilt_table contents;
  decompress_file input_file (Some encoding_table) (print_lines printed w).

(** ** Text files

    A text read with [open(name, 'r', encoding='utf-8')] is kept as the list
    of its characters, each character as the bytes of its UTF-8 encoding:
    iterating over the text gives these one-character strings. *)

Abbreviation text := (list str) (only parsing).

Definition byte_in (lo hi : N) (b : byte) : bool :=
  ((lo <=? Byte.to_N b) && (Byte.to_N b <=? hi))%N.

(** The second byte allowed after the first byte of a sequence of three or
    of four bytes: the ranges leave out overlong forms, surrogates and code
    points above U+10FFFF. *)
Definition second_of_three (b0 b1 : byte) : bool :=
  match b0 with
  | xe0 => byte_in 0xa0 0xbf b1
  | xed => byte_in 0x80 0x9f b1
  | _ => byte_in 0x80 0xbf b1
  end.

Definition second_of_four (b0 b1 : byte) : bool :=
  match b0 with
  | xf0 => byte_in 0x90 0xbf b1
  | xf4 => byte_in 0x80 0x8f b1
  | _ => byte_in 0x80 0xbf b1
  end.

Definition character (bs : bytes) : str := ascii_of_byte <$> bs.

(** [bytes.decode('utf-8')] with [errors='strict']: [None] is a
    [UnicodeDecodeError]. *)
Fixpoint decode_utf8 (data : bytes) : option text :=
  match data with
  | [] => Some []
  | b0 :: rest =>
      if byte_in 0x00 0x7f b0 then
        chars ← decode_utf8 rest; Some (character [b0] :: chars)
      else if byte_in 0xc2 0xdf b0 then
        match rest with
        | b1 :: rest =>
            if byte_in 0x80 0xbf b1 then
              chars ← decode_utf8 rest; Some (character [b0; b1] :: chars)
            else None
        | _ => None
        end
      else if byte_in 0xe0 0xef b0 then
        match rest with
        | b1 :: b2 :: rest =>
            if second_of_three b0 b1 && byte_in 0x80 0xbf b2 then
              chars ← decode_utf8 rest; Some (character [b0; b1; b2] :: chars)
            else None
        | _ => None
        end
      else if byte_in 0xf0 0xf4 b0 then
        match rest with
        | b1 :: b2 :: b3 :: rest =>
            if second_of_four b0 b1 && byte_in 0x80 0xbf b2 && byte_in 0x80 0xbf b3 then
              chars ← decode_utf8 rest; Some (character [b0; b1; b2; b3] :: chars)
            else None
        | _ => None
        end
      else None
  end.

Definition CR : str := ["013"%char].
Definition LF : str := ["010"%char].
Definition TAB : str := ["009"%char].

(** Universal newlines, the default of a file opened for reading in text
    mode: ['\r\n'] and a lone ['\r'] are read as ['\n']. *)
Fixpoint translate_newlines (data : text) : text :=
  match data with
  | [] => []
  | c :: rest =>
      if decide (c = CR) then
        match rest with
        | c' :: rest' =>
            if decide (c' = LF) then LF :: translate_newlines rest'
            else LF :: translate_newlines rest
        | [] => [LF]
        end
      else c :: translate_newlines rest
  end.

(** [open(name, 'r', encoding='utf-8').read()] *)
Definition read_text (name : str) (w : world) : option text :=
  contents ← files w !! name;
  data ← decode_utf8 contents;
  Some (translate_newlines data).

(** The code point of a character, from its UTF-8 bytes. *)
Definition code_point (c : str) : N :=
  match N_of_ascii <$> c with
  | [b0] => b0
  | [b0; b1] => (b0 mod 32) * 64 + b1 mod 64
  | [b0; b1; b2] => (b0 mod 16) * 4096 + (b1 mod 64) * 64 + b2 mod 64
  | [b0; b1; b2; b3] =>
      (b0 mod 8) * 262144 + (b1 mod 64) * 4096 + (b2 mod 64) * 64 + b3 mod 64
  | _ => 0
  end%N.

(** [str.isspace()] of one character: the whitespace of Unicode. *)
Definition isspace (c : str) : bool :=
  let cp := code_point c in
  ((0x09 <=? cp) && (cp <=? 0x0d) || (0x1c <=? cp) && (cp <=? 0x20)
   || (cp =? 0x85) || (cp =? 0xa0) || (cp =? 0x1680)
   || (0x2000 <=? cp) && (cp <=? 0x200a)
   || (cp =? 0x2028) || (cp =? 0x2029) || (cp =? 0x202f) || (cp =? 0x205f)
   || (cp =? 0x3000))%N.

(** [str.rstrip()] *)
Fixpoint str_rstrip (data : text) : text :=
  match data with
  | [] => []
  | c :: rest =>
      match str_rstrip rest with
      | [] => if isspace c then [] else [c]
      | stripped => c :: stripped
      end
  end.

(** Iterating over a text: each element is a one-character [str]. *)
Definition iter_text (data : text) : list pyval := PStr <$> data.

(** An int and a dictionary key inside an f-string: [f'{freq}'] is the
    decimal numeral, [f'{symbol}'] the [str] itself. *)
Definition format_int (n : Z) : str :=
  list_ascii_of_string (NilZero.string_of_int (Z.to_int n)).

Definition format_key (symbol : pyval) : str :=
  match symbol with
  | PStr s => s
  | PInt n => format_int n
  end.

(** ** analyze_frequency *)

Definition frequency_lines (frequency_table : dict Z) : list str :=
  (fun '(symbol, freq) => format_key symbol ++ TAB ++ format_int freq)
    <$> frequency_table.

Definition analyze_frequency (input_file : str) (w : world) : option world :=
  data ← read_text input_file w;
  let data := str_rstrip data in
  let frequency_table := build_frequency_table (iter_text data) in
  let w := print (lit "Análise de frequência:") w in
  let w := print (lit "-------------------") w in
  let w := print (lit "Símbolo" ++ TAB ++ lit "Frequência") w in
  let w := print (lit "------" ++ TAB ++ lit "---------") w in
  Some (print_lines (frequency_lines frequency_table) w).

(** ** print_help *)

Definition help_lines : list str :=
  [ lit "Compressão de Huffman – Análise de frequência símbolos e compressão de Huffman";
    lit "Uso: huff [-options] <file>";
    lit "Opções:";
    lit "-h" ++ TAB ++ lit "Mostra este texto de ajuda";
    lit "-c" ++ TAB ++ lit "Realiza a compressão";
    lit "-d" ++ TAB ++ lit "Realiza a descompressão";
    lit "-s" ++ TAB
      ++ lit "Realiza apenas a análise de frequência e imprime a tabela de símbolos";
    lit "-f <file>" ++ TAB
      ++ lit "Indica o arquivo a ser processado (comprimido, descomprimido ou para apresentar a tabela de símbolos)" ].

Definition print_help (w : world) : world :=
  fold_left (fun w line => print line w) help_lines w.

(** ** calculate_compression_ratio and main

    The floating-point value [(compressed_size / original_size) * 100] and
    the text an f-string gives it are left to two parameters, [percentage]
    and [format_float]: nothing proved below depends on them. *)

(** [os.path.getsize(name)] *)
Definition getsize (name : str) (w : world) : option nat :=
  length <$> files w !! name.

(** [s.endswith(suffix)] *)
Definition endswith (s suffix : str) : bool :=
  bool_decide (drop (length s - length suffix) s = suffix).

Definition code_lines (encoding_table : dict str) : list str :=
  (fun '(symbol, code) => format_key symbol ++ TAB ++ code) <$> encoding_table.

Section main.
Context {float : Type} (percentage : nat -> nat -> float) (format_float : float -> str).

(** The function returns the world after its print together with its
    value. *)
Definition calculate_compression_ratio (original_size compressed_size : nat)
    (w : world) : world * option float :=
  if decide (original_size = 0) then
    (print (lit "Erro: o tamanho do arquivo original é zero.") w, None)
  else
    let ratio := percentage compressed_size original_size in
    (w, Some ratio).

(** [f'{compression_ratio}'] *)
Definition format_ratio (compression_ratio : option float) : str :=
  match compression_ratio with
  | None => lit "None"
  | Some ratio => format_float ratio
  end.

(** The [-s] option with [-f input_file]. *)
Definition main_symbols (input_file : str) (w : world) : option world :=
  data ← read_text input_file w;
  let frequency_table := build_frequency_table (iter_text (str_rstrip data)) in
  '(printed, huffman_tree) ← build_huffman_tree frequency_table;
  let encoding_table := build_encoding_table huffman_tree in
  let w := print_lines printed w in
  let w := print (lit "Tabela de Frequência:") w in
  let w := print (lit "---------------") w in
  Some (print_lines (code_lines encoding_table) w).

(** [main()], with [sys.argv] as its argument. *)
Definition main (argv : list str) (w : world) : option world :=
  if decide (length argv < 3) then Some (print_help w)
  else
    option ← argv !! 1;
    let file_given := bool_decide (length argv = 4 /\ argv !! 2 = Some (lit "-f")) in
    let invalid_arguments :=
      Some (print_help (print (lit "Erro: argumentos inválidos.") w)) in
    if decide (option = lit "-h") then Some (print_help w)
    else if decide (option = lit "-c") then
      if file_given then
        input_file ← argv !! 3;
        let output_file := input_file ++ lit ".huff" in
        w ← main_compress input_file w;
        original_size ← getsize input_file w;
        compressed_size ← getsize output_file w;
        let '(w, compression_ratio) :=
          calculate_compression_ratio original_size compressed_size w in
        Some (print (lit "Taxa de compressão: " ++ format_ratio compression_ratio
                       ++ lit "%") w)
      else invalid_arguments
    else if decide (option = lit "-d") then
      if file_given then
        input_file ← argv !! 3;
        if endswith input_file (lit ".huff") then main_decompress input_file w
        else Some (print (lit "Erro: o arquivo de entrada não parece ser um arquivo comprimido.") w)
      else invalid_arguments
    else if decide (option = lit "-s") then
      if file_given then
        input_file ← argv !! 3;
        main_symbols input_file w
      else invalid_arguments
    else Some (print_help (print (lit "Erro: opção inválida.") w)).

End main.

(** * Vocabulary of the properties *)

(** The symbols a tree records with their frequencies, in the order
    [build_encoding_helper] meets them. *)
Fixpoint symbols (node : HuffmanNode) : list (pyval * Z) :=
  match node with
  | Node char freq left right =>
      match char with Some c => [(c, freq)] | None => [] end
      ++ match left with Some l => symbols l | None => [] end
      ++ match right with Some r => symbols r | None => [] end
  end.

(** A leaf is a node without children; every other node is internal. *)
Fixpoint leaf_count (node : HuffmanNode) : nat :=
  match node with
  | Node _ _ None None => 1
  | Node _ _ left right =>
      match left with Some l => leaf_count l | None => 0 end
      + match right with Some r => leaf_count r | None => 0 end
  end.

Fixpoint internal_count (node : HuffmanNode) : nat :=
  match node with
  | Node _ _ None None => 0
  | Node _ _ left right =>
      1 + match left with Some l => internal_count l | None => 0 end
        + match right with Some r => internal_count r | None => 0 end
  end.

(** The invariant of a Huffman tree: a leaf holds a symbol and a positive
    frequency; an internal node holds no symbol, has two children, and its
    frequency is the sum of theirs. *)
Inductive huffman_shape : HuffmanNode -> Prop :=
  | shape_leaf (c : pyval) (f : Z) :
      (0 < f)%Z -> huffman_shape (Node (Some c) f None None)
  | shape_internal (l r : HuffmanNode) :
      huffman_shape l -> huffman_shape r ->
      huffman_shape (Node None (freq l + freq r) (Some l) (Some r)).

(** The code of every symbol of a tree: the path from the root, ["0"] for a
    left turn and ["1"] for a right turn. *)
Fixpoint leaf_paths (node : HuffmanNode) : list (pyval * str) :=
  match node with
  | Node char _ left right =>
      match char with Some c => [(c, [])] | None => [] end
      ++ match left with
         | Some l => (fun cp => (cp.1, "0"%char :: cp.2)) <$> leaf_paths l
         | None => []
         end
      ++ match right with
         | Some r => (fun cp => (cp.1, "1"%char :: cp.2)) <$> leaf_paths r
         | None => []
         end
  end.

(** No code of the table is a prefix of the code of another symbol. *)
Definition prefix_free (encoding_table : dict str) : Prop :=
  forall s1 s2 c1 c2,
    s1 <> s2 ->
    dict_get s1 encoding_table = Some c1 -> dict_get s2 encoding_table = Some c2 ->
    ~ c1 `prefix_of` c2.

(** A string of binary digits. *)
Definition is_bit (c : ascii) : Prop := c = "0"%char \/ c = "1"%char.

(** The heap order of [heapq] for elements compared by a key: no element is
    below its parent, the parent of position [i] being [(i - 1) / 2]. *)
Definition heap_ordered {A} (key : A -> Z) (heap : list A) : Prop :=
  forall i x p, 0 < i -> heap !! i = Some x -> heap !! ((i - 1) / 2) = Some p ->
                (key p <= key x)%Z.

(** Sums over a list, with integer terms. *)
Definition sumZ {X} (f : X -> Z) (l : list X) : Z :=
  foldr (fun x acc => (f x + acc)%Z) 0%Z l.

(** The number of bits a table spends on a symbol, and on a whole input
    with the given frequencies: the sum of frequency times code length. *)
Definition code_length (encoding_table : dict str) (symbol : pyval) : Z :=
  Z.of_nat (length (default [] (dict_get symbol encoding_table))).

Definition total_bits (frequency_table : dict Z) (encoding_table : dict str) : Z :=
  sumZ (fun kv => (kv.2 * code_length encoding_table kv.1)%Z) frequency_table.

(** A prefix-free binary code for some symbols: every symbol has a code of
    binary digits, and no code is a prefix of the code of another symbol. *)
Definition binary_prefix_code (symbols : list pyval) (encoding_table : dict str) : Prop :=
  (forall s, s ∈ symbols ->
     exists c, dict_get s encoding_table = Some c /\ Forall is_bit c)
  /\ (forall s1 s2 c1 c2, s1 ∈ symbols -> s2 ∈ symbols -> s1 <> s2 ->
        dict_get s1 encoding_table = Some c1 -> dict_get s2 encoding_table = Some c2 ->
        ~ c1 `prefix_of` c2).

(** The sum of the frequencies of the internal nodes of a tree. *)
Fixpoint internal_sum (node : HuffmanNode) : Z :=
  match node with
  | Node _ _ None None => 0
  | Node _ freq left right =>
      freq + match left with Some l => internal_sum l | None => 0 end
           + match right with Some r => internal_sum r | None => 0 end
  end%Z.

(** ** Frequency tables and the forest of the builder *)

(** What a frequency table is: one entry per symbol, each count positive. *)
Definition frequency_table_ok (frequency_table : dict Z) : Prop :=
  NoDup (dict_keys frequency_table)
  /\ Forall (fun kv => (0 < kv.2)%Z) frequency_table.

(** One turn of the loop of [build_frequency_table]. *)
Definition count_step (frequency_table : dict Z) (char : pyval) : dict Z :=
  dict_set char (default 0%Z (dict_get char frequency_table) + 1)%Z frequency_table.

(** The leaf [build_huffman_tree] pushes for an entry of the table. *)
Definition leaf_of (entry : pyval * Z) : HuffmanNode :=
  new_node (Some entry.1) entry.2.

(** ** The bytes of the payload *)

(** One turn of the loop that fills [byte_array], for the eight characters
    [chunk]. *)
Definition pack_chunk (chunk : str) : option byte :=
  v ← int_base2 chunk; byte_of_int v.

(** ** The invariants of the heap operations *)

(** The child [_siftup] moves up: the right one when it exists and the left
    one is not smaller. *)
Definition smaller_child {A} (lt : A -> A -> bool) (heap : list A) (pos : nat)
    : option nat :=
  let childpos := 2 * pos + 1 in
  let rightpos := childpos + 1 in
  if decide (rightpos < length heap) then
    l ← heap !! childpos; r ← heap !! rightpos;
    Some (if negb (lt l r) then rightpos else childpos)
  else Some childpos.

(** The order holds on every edge [(i, parent i)] whose lower end is not
    skipped. *)
Definition ordered_but {A} (key : A -> Z) (H : list A) (skip : nat -> Prop) : Prop :=
  forall i x p, 0 < i -> ~ skip i -> H !! i = Some x -> H !! ((i - 1) / 2) = Some p ->
                (key p <= key x)%Z.

(** The children of [pos] are not below the parent of [pos]. *)
Definition grand_ok {A} (key : A -> Z) (H : list A) (pos : nat) : Prop :=
  forall c x g, 0 < pos -> 0 < c -> (c - 1) / 2 = pos ->
                H !! c = Some x -> H !! ((pos - 1) / 2) = Some g -> (key g <= key x)%Z.

(** While [_siftdown] runs, with [newitem] put in the hole at [pos]: only the
    edge above [pos] may be out of order. *)
Definition down_inv {A} (key : A -> Z) (H : list A) (pos : nat) : Prop :=
  ordered_but key H (fun i => i = pos) /\ grand_ok key H pos.

(** While the loop of [_siftup] runs: only the edges at [pos] (above it and
    below it) may be out of order. *)
Definition up_inv {A} (key : A -> Z) (H : list A) (pos : nat) : Prop :=
  ordered_but key H (fun i => i = pos \/ (i - 1) / 2 = pos) /\ grand_ok key H pos.

(** [H'] is [H] with the elements at [i] and [j] exchanged. *)
Definition exchanged {A} (H H' : list A) (i j : nat) (x y : A) : Prop :=
  H !! i = Some x /\ H !! j = Some y
  /\ forall k, H' !! k = if decide (k = j) then Some x
                         else if decide (k = i) then Some y else H !! k.

(** ** Code lengths *)

(** The Kraft sum of code lengths not above [L], scaled by [2 ^ L], and
    the Kraft inequality for them. *)
Definition kraft_sum (L : nat) (lengths : list nat) : nat :=
  sum_list_with (fun l => 2 ^ (L - l)) lengths.

Definition kraft (L : nat) (lengths : list nat) : Prop :=
  Forall (fun l => l <= L) lengths /\ kraft_sum L lengths <= 2 ^ L.

(** The cost of giving length [l] to weight [w], for every pair [(w, l)]. *)
Definition weighted_cost (wl : list (Z * nat)) : Z :=
  sumZ (fun p => (p.1 * Z.of_nat p.2)%Z) wl.

(** The codes that start with [b], without that first character. *)
Fixpoint tails (b : ascii) (codes : list str) : list str :=
  match codes with
  | [] => []
  | [] :: rest => tails b rest
  | (b' :: t) :: rest => if decide (b' = b) then t :: tails b rest else tails b rest
  end.

(** No code of the list is a prefix of a code at another position. *)
Fixpoint prefix_free_list (codes : list str) : Prop :=
  match codes with
  | [] => True
  | c :: rest =>
      Forall (fun c' => ~ c `prefix_of` c' /\ ~ c' `prefix_of` c) rest
      /\ prefix_free_list rest
  end.

(** The codes a table gives to the symbols of a frequency table. *)
Definition codes_of (frequency_table : dict Z) (encoding_table : dict str) : list str :=
  (fun kv => default [] (dict_get kv.1 encoding_table)) <$> frequency_table.

(** The number of occurrences of a symbol in the input. *)
Definition occurrences (symbol : pyval) (data : list pyval) : Z :=
  Z.of_nat (length (filter (fun c => c = symbol) data)).

(** ** A table for decoding *)

(** The table read the other way round, from code to the text of the
    symbol: the dictionary in which the loop of [decompress_file] can find
    its candidates. *)
Definition inverted_table (text : pyval -> str) (encoding_table : dict str) : dict str :=
  (fun sc => (PStr sc.2, text sc.1)) <$> encoding_table.

(** [chr(n)] for an ASCII byte value. *)
Definition chr (symbol : pyval) : str :=
  match symbol with
  | PInt n => [ascii_of_N (Z.to_N n)]
  | PStr s => s
  end.

(** ** Sample inputs *)

(** A compressed file whose bits are ["01"], and a table that only knows
    the code ["0"]. *)
Definition sample_world : world :=
  World {[ lit "t.huff" := [x06; x40] ]} [].


(** A two-bit code for the three symbols of [b"aaabbc"]. *)
Definition fixed_length_table : dict str :=
  [(PInt 97, lit "00"); (PInt 98, lit "01"); (PInt 99, lit "10")].

(** ** Renaming the symbols *)

Fixpoint rename_node (f : pyval -> pyval) (node : HuffmanNode) : HuffmanNode :=
  match node with
  | Node char freq left right =>
      Node (f <$> char) freq
        (match left with Some l => Some (rename_node f l) | None => None end)
        (match right with Some r => Some (rename_node f r) | None => None end)
  end.

Definition rename_keys {V} (f : pyval -> pyval) (d : dict V) : dict V :=
  prod_map f id <$> d.

(** The renaming of the elements of a [bytes] object that a map [g] on
    bytes gives; every other key is left as it is. *)
Definition rename_byte (g : byte -> byte) (k : pyval) : pyval :=
  match k with
  | PInt n =>
      match byte_of_int n with
      | Some b => PInt (byte_value (g b))
      | None => PInt n
      end
  | PStr s => PStr s
  end.

(** The map on bytes that exchanges the letters [a] and [b]. *)
Definition exchange_a_b (b : byte) : byte :=
  match b with
  | x61 => x62
  | x62 => x61
  | _ => b
  end.

(** Two files to run [main] on, and a stand-in for the floating-point
    ratio: the pair of sizes it is computed from, shown as two numerals. *)
Definition sample_files : world :=
  World {[ lit "a.txt" := [x61; x61; x61; x62; x62; x63; x0a];
           lit "blank.txt" := [x20; x0a];
           lit "latin1.txt" := [x63; x61; x66; xe9; x0a] ]} [].

Definition sample_percentage (compressed_size original_size : nat) : nat * nat :=
  (compressed_size, original_size).

Definition sample_format_float (ratio : nat * nat) : str :=
  format_int (Z.of_nat ratio.1) ++ lit "/" ++ format_int (Z.of_nat ratio.2).

(** ** Text and bytes *)

(** The bytes that occur in well-formed UTF-8: all but C0, C1 and F5 to
    FF. *)
Definition utf8_byte (b : byte) : bool :=
  byte_in 0x00 0xbf b || byte_in 0xc2 0xf4 b.

(** A sign that the data is not UTF-8, somewhere in it: a byte that UTF-8
    never uses, or a leading byte (C2 to F4) that no continuation byte (80 to
    BF) follows. *)
Fixpoint broken_utf8 (data : bytes) : bool :=
  match data with
  | [] => false
  | b :: rest =>
      negb (utf8_byte b)
      || byte_in 0xc2 0xf4 b
         && match rest with
            | [] => true
            | b' :: _ => negb (byte_in 0x80 0xbf b')
            end
      || broken_utf8 rest
  end.

(** An ASCII byte other than the carriage return, which universal newlines
    rewrite, and the separators 1C to 1F, which [str.rstrip] strips and
    [bytes.rstrip] keeps. *)
Definition plain_byte (b : byte) : bool :=
  byte_in 0x00 0x7f b && negb (byte_in 0x0d 0x0d b) && negb (byte_in 0x1c 0x1f b).

(** A byte value read as the one-character string with that code; every
    other key is given a mark that keeps the reading injective. *)
Definition char_key (k : pyval) : pyval :=
  match k with
  | PInt n =>
      match byte_of_int n with
      | Some b => PStr (character [b])
      | None => PInt n
      end
  | PStr s => PStr ("000"%char :: "000"%char :: s)
  end.

(** * Properties *)

(** ** heapq: the operations return, and keep the elements *)

Section heapq_elements.
Context {A : Type} (lt : A -> A -> bool).

Lemma cons_insert_exchange (l : list A) (i : nat) (x y : A) :
  i < length l -> x :: <[i:=y]> l ≡ₚ y :: <[i:=x]> l.
Proof.
  revert i. induction l as [|a l IH]; intros i Hi; simpl in Hi; [lia|].
  destruct i as [|i]; simpl.
  - apply perm_swap.
  - rewrite perm_swap, IH by lia. apply perm_swap.
Qed.

Lemma insert_exchange (l : list A) (i j : nat) (x y : A) :
  i <> j -> i < length l -> l !! j = Some y ->
  <[j:=x]> (<[i:=y]> l) ≡ₚ <[i:=x]> l.
Proof.
  revert i j. induction l as [|a l IH]; intros i j Hij Hi Hj; simpl in Hi; [lia|].
  destruct i as [|i], j as [|j]; simpl in *; try lia.
  - rewrite <- (list_insert_id l j y) at 2 by done.
    symmetry. apply cons_insert_exchange. eapply lookup_lt_Some; eauto.
  - injection Hj as ->. apply cons_insert_exchange. lia.
  - constructor. apply IH; auto; lia.
Qed.

Lemma siftdown_loop_exit (fuel : nat) (heap : list A) (startpos pos : nat) (newitem : A) :
  ~ startpos < pos ->
  heapq.siftdown_loop lt fuel heap startpos pos newitem = Some (<[pos:=newitem]> heap).
Proof. intros H. destruct fuel; simpl; destruct (decide (startpos < pos)); done. Qed.

Lemma siftdown_loop_step (fuel : nat) (heap : list A) (startpos pos : nat)
    (newitem parent : A) :
  startpos < pos -> heap !! ((pos - 1) / 2) = Some parent ->
  heapq.siftdown_loop lt (S fuel) heap startpos pos newitem =
    if lt newitem parent
    then heapq.siftdown_loop lt fuel (<[pos:=parent]> heap) startpos ((pos - 1) / 2) newitem
    else Some (<[pos:=newitem]> heap).
Proof.
  intros H Hp. cbn [heapq.siftdown_loop].
  destruct (decide (startpos < pos)); [|done]. rewrite Hp. reflexivity.
Qed.

Lemma siftup_loop_exit (fuel : nat) (heap : list A) (endpos pos : nat) :
  ~ 2 * pos + 1 < endpos ->
  heapq.siftup_loop lt fuel heap endpos pos = Some (heap, pos).
Proof. intros H. destruct fuel; simpl; destruct (decide _); done. Qed.

Lemma siftup_loop_step (fuel : nat) (heap : list A) (pos childpos : nat) (child : A) :
  2 * pos + 1 < length heap ->
  smaller_child lt heap pos = Some childpos -> heap !! childpos = Some child ->
  heapq.siftup_loop lt (S fuel) heap (length heap) pos =
    heapq.siftup_loop lt fuel (<[pos:=child]> heap) (length heap) childpos.
Proof.
  intros H Hsel Hc. cbn [heapq.siftup_loop].
  destruct (decide (2 * pos + 1 < length heap)); [|done].
  unfold smaller_child in Hsel. cbv zeta in Hsel. rewrite Hsel. simpl.
  rewrite Hc. reflexivity.
Qed.

Lemma smaller_child_range (heap : list A) (pos : nat) :
  2 * pos + 1 < length heap ->
  exists childpos, smaller_child lt heap pos = Some childpos
    /\ (childpos = 2 * pos + 1 \/ childpos = 2 * pos + 2) /\ childpos < length heap.
Proof.
  intros Hchild. unfold smaller_child. cbv zeta.
  destruct (decide (2 * pos + 1 + 1 < length heap)) as [Hright|_].
  - destruct (lookup_lt_is_Some_2 heap (2 * pos + 1) Hchild) as [l ->].
    destruct (lookup_lt_is_Some_2 heap (2 * pos + 1 + 1) Hright) as [r ->].
    simpl. destruct (negb (lt l r)); eexists; split; eauto; lia.
  - eexists; split; eauto; lia.
Qed.

Lemma siftdown_loop_elements (fuel : nat) (heap : list A) (startpos pos : nat)
    (newitem : A) :
  pos <= fuel -> pos < length heap ->
  exists heap', heapq.siftdown_loop lt fuel heap startpos pos newitem = Some heap'
                /\ heap' ≡ₚ <[pos:=newitem]> heap.
Proof.
  revert heap pos. induction fuel as [|fuel IH]; intros heap pos Hfuel Hpos.
  - rewrite siftdown_loop_exit by lia. eauto.
  - destruct (decide (startpos < pos)) as [Hlt|];
      [|rewrite siftdown_loop_exit by done; eauto].
    destruct (lookup_lt_is_Some_2 heap ((pos - 1) / 2)) as [parent Hparent]; [lia|].
    rewrite (siftdown_loop_step _ _ _ _ _ parent) by done.
    destruct (lt newitem parent); [|eauto].
    destruct (IH (<[pos:=parent]> heap) ((pos - 1) / 2)) as (heap' & -> & Hperm).
    + lia.
    + rewrite length_insert. lia.
    + exists heap'. split; [done|]. rewrite Hperm.
      apply insert_exchange; auto. lia.
Qed.

Lemma siftdown_elements (heap : list A) (startpos pos : nat) :
  pos < length heap ->
  exists heap', heapq._siftdown lt heap startpos pos = Some heap' /\ heap' ≡ₚ heap.
Proof.
  intros Hpos. unfold heapq._siftdown.
  destruct (lookup_lt_is_Some_2 heap pos Hpos) as [newitem Hnew].
  rewrite Hnew. simpl.
  destruct (siftdown_loop_elements pos heap startpos pos newitem) as (heap' & -> & Hperm);
    [lia|done|].
  exists heap'. split; [done|]. rewrite Hperm, list_insert_id; auto.
Qed.

Lemma siftup_loop_elements (fuel : nat) (heap : list A) (pos : nat) (newitem : A) :
  length heap <= fuel + pos -> pos < length heap ->
  exists heap' pos',
    heapq.siftup_loop lt fuel heap (length heap) pos = Some (heap', pos')
    /\ pos' < length heap' /\ length heap' = length heap
    /\ <[pos':=newitem]> heap' ≡ₚ <[pos:=newitem]> heap.
Proof.
  revert heap pos. induction fuel as [|fuel IH]; intros heap pos Hfuel Hpos.
  - rewrite siftup_loop_exit by lia. eauto 10.
  - destruct (decide (2 * pos + 1 < length heap)) as [Hchild|];
      [|rewrite siftup_loop_exit by done; eauto 10].
    destruct (smaller_child_range heap pos Hchild) as (childpos & Hsel & Hc & Hclt).
    destruct (lookup_lt_is_Some_2 heap childpos Hclt) as [child Hchildv].
    rewrite (siftup_loop_step _ _ _ childpos child) by done.
    destruct (IH (<[pos:=child]> heap) childpos) as (heap' & pos' & Heq & Hp' & Hlen & Hperm).
    + rewrite length_insert. lia.
    + rewrite length_insert. lia.
    + rewrite length_insert in Heq, Hlen. rewrite Heq.
      exists heap', pos'. repeat split; auto.
      rewrite Hperm. apply insert_exchange; auto; lia.
Qed.

Lemma siftup_elements (heap : list A) (pos : nat) :
  pos < length heap ->
  exists heap', heapq._siftup lt heap pos = Some heap' /\ heap' ≡ₚ heap.
Proof.
  intros Hpos. unfold heapq._siftup.
  destruct (lookup_lt_is_Some_2 heap pos Hpos) as [newitem Hnew].
  rewrite Hnew. simpl.
  destruct (siftup_loop_elements (length heap) heap pos newitem)
    as (heap1 & pos1 & -> & Hp1 & Hlen & Hperm); [lia|done|].
  simpl.
  destruct (siftdown_elements (<[pos1:=newitem]> heap1) pos pos1) as (heap' & -> & Hperm').
  { rewrite length_insert. done. }
  exists heap'. split; [done|].
  rewrite Hperm', Hperm, list_insert_id; auto.
Qed.

Lemma heappush_elements (heap : list A) (item : A) :
  exists heap', heapq.heappush lt heap item = Some heap' /\ heap' ≡ₚ item :: heap.
Proof.
  unfold heapq.heappush.
  destruct (siftdown_elements (heap ++ [item]) 0 (length (heap ++ [item]) - 1))
    as (heap' & -> & Hperm).
  { rewrite length_app. simpl. lia. }
  exists heap'. split; [done|]. rewrite Hperm.
  symmetry. apply Permutation_cons_append.
Qed.

Lemma heappop_empty : heapq.heappop lt [] = None.
Proof. reflexivity. Qed.

Lemma heappop_elements (heap : list A) :
  heap <> [] ->
  exists item heap', heapq.heappop lt heap = Some (item, heap')
                     /\ heap ≡ₚ item :: heap' /\ head heap = Some item.
Proof.
  intros Hne. unfold heapq.heappop.
  destruct (exists_last Hne) as (init & lastelt & ->).
  rewrite last_snoc. simpl. rewrite removelast_last.
  destruct init as [|returnitem rest].
  - exists lastelt, []. auto.
  - destruct (siftup_elements (<[0:=lastelt]> (returnitem :: rest)) 0) as (heap' & -> & Hperm).
    { simpl. lia. }
    exists returnitem, heap'. simpl. split; [done|]. split; [|done].
    constructor. rewrite Hperm. simpl. symmetry. apply Permutation_cons_append.
Qed.

End heapq_elements.

(** ** Dictionaries *)

Section dict_facts.
Context {V : Type}.
Implicit Types (d : dict V) (k : pyval) (v : V).

Lemma dict_get_Some_elem d k v : dict_get k d = Some v -> (k, v) ∈ d.
Proof.
  induction d as [|[k' v'] d IH]; csimpl; [done|].
  destruct (decide (k' = k)) as [->|]; intros H.
  - injection H as ->. left.
  - right. auto.
Qed.

Lemma dict_get_None d k : dict_get k d = None <-> k ∉ dict_keys d.
Proof.
  unfold dict_keys. induction d as [|[k' v'] d IH]; csimpl.
  - split; [intros _; apply not_elem_of_nil|done].
  - rewrite not_elem_of_cons. destruct (decide (k' = k)) as [->|Hne].
    + split; [done|]. intros [? _]. done.
    + rewrite IH. split; [intros ?; split; auto|intros [_ ?]; done].
Qed.

Lemma dict_get_is_Some d k : is_Some (dict_get k d) <-> k ∈ dict_keys d.
Proof.
  destruct (dict_get k d) eqn:E.
  - split; [intros _|eauto]. apply dec_stable. rewrite <- dict_get_None. congruence.
  - apply dict_get_None in E. split; [intros [? ?]; done|done].
Qed.

Lemma dict_get_elem d k v : NoDup (dict_keys d) -> (k, v) ∈ d -> dict_get k d = Some v.
Proof.
  unfold dict_keys. induction d as [|[k' v'] d IH]; csimpl; intros Hnd Hin.
  - by apply elem_of_nil in Hin.
  - apply NoDup_cons in Hnd as [Hk Hnd]. apply elem_of_cons in Hin as [Heq|Hin].
    + injection Heq as -> ->. destruct (decide (k' = k')); done.
    + destruct (decide (k' = k)) as [->|]; [|auto].
      exfalso. apply Hk. apply list_elem_of_fmap. exists (k, v). done.
Qed.

Lemma dict_set_new d k v : k ∉ dict_keys d -> dict_set k v d = d ++ [(k, v)].
Proof.
  unfold dict_keys. induction d as [|[k' v'] d IH]; csimpl; [done|].
  rewrite not_elem_of_cons. intros [Hne Hk].
  destruct (decide (k' = k)); [congruence|]. by rewrite IH.
Qed.

Lemma dict_keys_set d k v :
  dict_keys (dict_set k v d) = if decide (k ∈ dict_keys d) then dict_keys d
                               else dict_keys d ++ [k].
Proof.
  unfold dict_keys. induction d as [|[k' v'] d IH]; csimpl.
  - destruct (decide (k ∈ [])) as [H|]; [by apply elem_of_nil in H|done].
  - destruct (decide (k' = k)) as [->|Hne]; csimpl.
    + rewrite decide_True by left. done.
    + rewrite IH. destruct (decide (k ∈ d.*1)) as [Hin|Hnin].
      * rewrite decide_True by (by right). done.
      * rewrite decide_False; [done|]. rewrite not_elem_of_cons. split; auto.
Qed.

Lemma dict_set_NoDup d k v : NoDup (dict_keys d) -> NoDup (dict_keys (dict_set k v d)).
Proof.
  intros Hnd. rewrite dict_keys_set. destruct (decide _) as [|Hnin]; [done|].
  apply NoDup_app. repeat split; auto.
  - intros x Hx Hx'. apply list_elem_of_singleton in Hx' as ->. done.
  - apply NoDup_singleton.
Qed.

Lemma dict_get_set d k k' v :
  dict_get k' (dict_set k v d) = if decide (k = k') then Some v else dict_get k' d.
Proof.
  induction d as [|[k0 v0] d IH]; csimpl.
  - destruct (decide (k = k')); done.
  - destruct (decide (k0 = k)) as [->|Hne]; csimpl.
    + destruct (decide (k = k')); done.
    + destruct (decide (k0 = k')) as [->|]; [|done].
      destruct (decide (k = k')); [congruence|done].
Qed.

Lemma dict_set_values (P : V -> Prop) d k v :
  P v -> Forall (fun kv => P kv.2) d -> Forall (fun kv => P kv.2) (dict_set k v d).
Proof.
  intros Hv. induction d as [|[k' v'] d IH]; csimpl; intros Hd.
  - repeat constructor. done.
  - apply Forall_cons in Hd as [H1 H2].
    destruct (decide (k' = k)); constructor; auto.
Qed.

End dict_facts.

(** ** build_frequency_table *)

Lemma build_frequency_table_fold data :
  build_frequency_table data = fold_left count_step data [].
Proof. reflexivity. Qed.

Lemma count_fold_ok data d :
  NoDup (dict_keys d) -> Forall (fun kv => (0 < kv.2)%Z) d ->
  NoDup (dict_keys (fold_left count_step data d))
  /\ Forall (fun kv => (0 < kv.2)%Z) (fold_left count_step data d).
Proof.
  revert d. induction data as [|c data IH]; intros d Hnd Hpos; simpl; [done|].
  apply IH.
  - by apply dict_set_NoDup.
  - apply (dict_set_values (fun v => (0 < v)%Z)); [|done].
    destruct (dict_get c d) as [v|] eqn:E; simpl; [|lia].
    apply dict_get_Some_elem in E.
    rewrite Forall_forall in Hpos. specialize (Hpos _ E). simpl in Hpos. lia.
Qed.

Lemma count_fold_keys data d k :
  k ∈ dict_keys (fold_left count_step data d) <-> k ∈ dict_keys d \/ k ∈ data.
Proof.
  revert d. induction data as [|c data IH]; intros d; simpl.
  - split; [auto|]. intros [?|H]; [done|]. by apply elem_of_nil in H.
  - rewrite IH. unfold count_step at 1. rewrite dict_keys_set.
    rewrite elem_of_cons. destruct (decide (c ∈ dict_keys d)) as [Hc|Hc].
    + split; [tauto|]. intros [?|[->|?]]; auto.
    + rewrite elem_of_app, list_elem_of_singleton. split; [tauto|]. tauto.
Qed.

Lemma build_frequency_table_ok data : frequency_table_ok (build_frequency_table data).
Proof. apply count_fold_ok; simpl; constructor. Qed.

Lemma build_frequency_table_keys data k :
  k ∈ dict_keys (build_frequency_table data) <-> k ∈ data.
Proof.
  rewrite build_frequency_table_fold, count_fold_keys. simpl.
  split; [|auto]. intros [H|?]; [|done]. by apply elem_of_nil in H.
Qed.

Lemma build_frequency_table_nonempty data :
  data <> [] -> build_frequency_table data <> [].
Proof.
  destruct data as [|c data]; [done|]. intros _ Heq.
  assert (H : c ∈ dict_keys (build_frequency_table (c :: data))).
  { apply build_frequency_table_keys. left. }
  rewrite Heq in H. by apply elem_of_nil in H.
Qed.

(** ** build_huffman_tree: the loops return, and what they keep *)

Lemma push_leaves_elements (items : dict Z) (heap : list HuffmanNode) :
  exists heap', push_leaves items heap = Some heap'
                /\ heap' ≡ₚ (leaf_of <$> items) ++ heap.
Proof.
  revert heap. induction items as [|[c f] items IH]; intros heap; simpl.
  - eauto.
  - destruct (heappush_elements node_lt heap (new_node (Some c) f)) as (heap1 & -> & H1).
    simpl. destruct (IH heap1) as (heap' & -> & H').
    exists heap'. split; [done|]. rewrite H', H1.
    change (leaf_of (c, f)) with (new_node (Some c) f).
    symmetry. apply Permutation_middle.
Qed.

Lemma merge_loop_exit (fuel : nat) (heap : list HuffmanNode) :
  ~ 1 < length heap -> merge_loop fuel heap = Some heap.
Proof. intros H. destruct fuel; simpl; destruct (decide _); done. Qed.

Lemma merge_loop_step (fuel : nat) (heap : list HuffmanNode) :
  1 < length heap ->
  exists node1 heap1 node2 heap2 heap3,
    heapq.heappop node_lt heap = Some (node1, heap1)
    /\ heapq.heappop node_lt heap1 = Some (node2, heap2)
    /\ heapq.heappush node_lt heap2 (merge_nodes node1 node2) = Some heap3
    /\ heap ≡ₚ node1 :: heap1 /\ heap1 ≡ₚ node2 :: heap2
    /\ heap3 ≡ₚ merge_nodes node1 node2 :: heap2
    /\ merge_loop (S fuel) heap = merge_loop fuel heap3.
Proof.
  intros Hlen.
  destruct (heappop_elements node_lt heap) as (node1 & heap1 & Hpop1 & Hperm1 & _).
  { intros ->. simpl in Hlen. lia. }
  destruct (heappop_elements node_lt heap1) as (node2 & heap2 & Hpop2 & Hperm2 & _).
  { intros ->. apply Permutation_length in Hperm1. simpl in Hperm1. lia. }
  destruct (heappush_elements node_lt heap2 (merge_nodes node1 node2)) as (heap3 & Hpush & Hperm3).
  exists node1, heap1, node2, heap2, heap3. repeat split; auto.
  cbn [merge_loop]. destruct (decide (1 < length heap)); [|done].
  rewrite Hpop1. simpl. rewrite Hpop2. simpl. rewrite Hpush. reflexivity.
Qed.

(** A property of the forest that does not depend on the order of the heap
    list and survives a merge holds when the loop ends, and the loop ends
    within [length heap] turns with one tree (none for an empty heap). *)
Lemma merge_loop_invariant (I : list HuffmanNode -> Prop) :
  (forall heap heap', heap ≡ₚ heap' -> I heap -> I heap') ->
  (forall node1 node2 rest, I (node1 :: node2 :: rest) ->
                            I (merge_nodes node1 node2 :: rest)) ->
  forall fuel heap, length heap <= fuel + 1 -> I heap ->
  exists heap', merge_loop fuel heap = Some heap' /\ I heap'
                /\ length heap' = Nat.min 1 (length heap).
Proof.
  intros Hperm Hmerge. induction fuel as [|fuel IH]; intros heap Hlen HI.
  - rewrite merge_loop_exit by lia. exists heap. repeat split; auto. lia.
  - destruct (decide (1 < length heap)) as [Hgt|Hle].
    + destruct (merge_loop_step fuel heap Hgt)
        as (node1 & heap1 & node2 & heap2 & heap3 & _ & _ & _ & H1 & H2 & H3 & ->).
      assert (Hl3 : length heap3 + 1 = length heap).
      { apply Permutation_length in H1, H2, H3. simpl in *. lia. }
      destruct (IH heap3) as (heap' & -> & HI' & Hlen'); [lia| |].
      * apply (Hperm (merge_nodes node1 node2 :: heap2)); [done|].
        apply Hmerge. apply (Hperm heap); [|done]. by rewrite H1, H2.
      * exists heap'. repeat split; auto. lia.
    + rewrite merge_loop_exit by done. exists heap. repeat split; auto. lia.
Qed.

Lemma symbols_merge_nodes (node1 node2 : HuffmanNode) :
  symbols (merge_nodes node1 node2) = symbols node1 ++ symbols node2.
Proof. reflexivity. Qed.

Lemma build_huffman_tree_spec (frequency_table : dict Z) :
  frequency_table <> [] ->
  Forall (fun kv => (0 < kv.2)%Z) frequency_table ->
  exists root, build_huffman_tree frequency_table = Some ([], Some root)
               /\ huffman_shape root /\ symbols root ≡ₚ frequency_table.
Proof.
  intros Hne Hpos. unfold build_huffman_tree.
  destruct (push_leaves_elements frequency_table []) as (heap & -> & Hheap).
  rewrite app_nil_r in Hheap. simpl.
  set (I := fun h : list HuffmanNode =>
              Forall huffman_shape h /\ flat_map symbols h ≡ₚ frequency_table).
  destruct (merge_loop_invariant I) with (fuel := length heap) (heap := heap)
    as (heap' & -> & [Hshape Hsym] & Hlen).
  - intros h h' Hp [H1 H2]. split; [by rewrite <- Hp|]. by rewrite <- Hp.
  - intros n1 n2 rest [H1 H2]. apply Forall_cons in H1 as [Hn1 H1].
    apply Forall_cons in H1 as [Hn2 H1]. split.
    + constructor; [|done]. by constructor.
    + rewrite <- H2. simpl. rewrite !app_assoc. done.
  - lia.
  - split.
    + rewrite Hheap. apply Forall_fmap. eapply Forall_impl; [exact Hpos|].
      intros [c f] H. by constructor.
    + rewrite Hheap. clear. induction frequency_table as [|[c f] ft IH]; simpl; [done|].
      by constructor.
  - simpl. assert (length heap = length frequency_table) as Hl.
    { apply Permutation_length in Hheap. by rewrite length_fmap in Hheap. }
    destruct frequency_table as [|e ft]; [done|]. simpl in Hl. rewrite Hl in Hlen.
    destruct heap' as [|root [|]]; simpl in Hlen; try lia.
    exists root. apply Forall_cons in Hshape as [Hroot _]. simpl in Hsym.
    rewrite app_nil_r in Hsym. done.
Qed.

Lemma shape_counts (node : HuffmanNode) :
  huffman_shape node ->
  leaf_count node = length (symbols node) /\ internal_count node + 1 = leaf_count node.
Proof.
  induction 1 as [c f Hf|l r Hl [IHl1 IHl2] Hr [IHr1 IHr2]]; simpl; [done|].
  rewrite length_app. lia.
Qed.

Lemma shape_freq_positive (node : HuffmanNode) : huffman_shape node -> (0 < freq node)%Z.
Proof. induction 1; simpl in *; lia. Qed.

(** C5. An empty input gives an empty frequency table, and on an empty
    table [build_huffman_tree] raises nothing: it prints its error message
    and returns [None] to its caller. *)
Theorem empty_input_reported :
  build_frequency_table [] = []
  /\ build_huffman_tree [] = Some ([empty_tree_message], None).
Proof. split; reflexivity. Qed.

(** C7. For a non-empty frequency table with k entries the builder returns
    a tree in which every leaf has a positive frequency and every internal
    node has two children whose frequencies add up to its own, with k leaves
    and k - 1 internal nodes. *)
Theorem huffman_tree_invariant (frequency_table : dict Z) :
  frequency_table <> [] -> frequency_table_ok frequency_table ->
  exists root, build_huffman_tree frequency_table = Some ([], Some root)
    /\ huffman_shape root
    /\ leaf_count root = length frequency_table
    /\ internal_count root = length frequency_table - 1.
Proof.
  intros Hne [_ Hpos].
  destruct (build_huffman_tree_spec frequency_table Hne Hpos) as (root & Hroot & Hshape & Hsym).
  exists root. destruct (shape_counts root Hshape) as [Hl Hi].
  apply Permutation_length in Hsym. repeat split; auto; lia.
Qed.

Lemma huffman_tree_invariant_witness :
  exists root,
    build_huffman_tree (build_frequency_table (iter_bytes (list_byte_of_string "aaabbc")))
      = Some ([], Some root)
    /\ huffman_shape root /\ leaf_count root = 3 /\ internal_count root = 2.
Proof.
  apply (huffman_tree_invariant
           (build_frequency_table (iter_bytes (list_byte_of_string "aaabbc")))).
  - vm_compute. discriminate.
  - apply build_frequency_table_ok.
Defined.

(** ** build_encoding_table *)

Lemma leaf_paths_symbols (node : HuffmanNode) :
  huffman_shape node -> (leaf_paths node).*1 = (symbols node).*1.
Proof.
  induction 1 as [c f Hf|l r Hl IHl Hr IHr]; simpl; [done|].
  rewrite !fmap_app, <- !list_fmap_compose, <- IHl, <- IHr. done.
Qed.

Lemma build_encoding_node_shape (node : HuffmanNode) :
  huffman_shape node ->
  forall code encoding_table,
    NoDup (dict_keys encoding_table ++ (symbols node).*1) ->
    build_encoding_node node code encoding_table =
      encoding_table ++ ((fun cp => (cp.1, code ++ cp.2)) <$> leaf_paths node).
Proof.
  induction 1 as [c f Hf|l r Hl IHl Hr IHr]; intros code tbl Hnd.
  - simpl. rewrite app_nil_r. apply dict_set_new.
    simpl in Hnd. apply NoDup_app in Hnd as (_ & Hd & _).
    intros Hin. apply (Hd c Hin). left.
  - simpl in Hnd. rewrite fmap_app in Hnd.
    cbn [build_encoding_node leaf_paths]. cbn [app].
    rewrite IHl.
    2:{ rewrite app_assoc in Hnd. by apply NoDup_app in Hnd as (? & _ & _). }
    rewrite IHr.
    2:{ unfold dict_keys. rewrite fmap_app, <- list_fmap_compose.
        rewrite <- app_assoc. simpl.
        replace ((fun cp : pyval * str => cp.1) <$> leaf_paths l) with ((leaf_paths l).*1)
          by done.
        rewrite leaf_paths_symbols by done. exact Hnd. }
    rewrite <- app_assoc. f_equal. rewrite fmap_app, <- !list_fmap_compose.
    f_equal; apply list_fmap_ext; intros i [c p] _; simpl; by rewrite <- app_assoc.
Qed.

Lemma build_encoding_table_shape (root : HuffmanNode) :
  huffman_shape root -> NoDup (symbols root).*1 ->
  build_encoding_table (Some root) = leaf_paths root.
Proof.
  intros Hshape Hnd. unfold build_encoding_table, build_encoding_helper.
  rewrite build_encoding_node_shape by done. simpl.
  rewrite <- (list_fmap_id (leaf_paths root)) at 2.
  apply list_fmap_ext. by intros i [c p] _.
Qed.

Lemma leaf_paths_prefix (node : HuffmanNode) :
  huffman_shape node ->
  forall e1 e2, e1 ∈ leaf_paths node -> e2 ∈ leaf_paths node ->
                e1.2 `prefix_of` e2.2 -> e1 = e2.
Proof.
  induction 1 as [c f Hf|l r Hl IHl Hr IHr]; intros e1 e2 H1 H2 Hpre.
  - simpl in *. apply list_elem_of_singleton in H1, H2. congruence.
  - simpl in H1, H2. apply elem_of_app in H1, H2.
    destruct H1 as [H1|H1], H2 as [H2|H2];
      apply list_elem_of_fmap in H1 as ([s1 p1] & -> & H1);
      apply list_elem_of_fmap in H2 as ([s2 p2] & -> & H2);
      simpl in Hpre; destruct Hpre as [k Hk]; simplify_eq/=.
    + assert ((s1, p1) = (s2, p1 ++ k)) as E by (apply IHl; auto; by exists k).
      by injection E as -> <-.
    + assert ((s1, p1) = (s2, p1 ++ k)) as E by (apply IHr; auto; by exists k).
      by injection E as -> <-.
Qed.

Lemma leaf_paths_bits (node : HuffmanNode) :
  huffman_shape node -> Forall (fun cp => Forall is_bit cp.2) (leaf_paths node).
Proof.
  induction 1 as [c f Hf|l r Hl IHl Hr IHr]; simpl.
  - repeat constructor.
  - apply Forall_app. split; apply Forall_fmap; (eapply Forall_impl; [eassumption|]);
      intros [c p] Hp; simpl in *; constructor; auto; [by left|by right].
Qed.

(** What the builder and the table give for a frequency table: the tree,
    its shape, its symbols, and the table as the list of root-to-leaf paths. *)
Lemma encoding_table_spec (frequency_table : dict Z) :
  frequency_table <> [] -> frequency_table_ok frequency_table ->
  exists root,
    build_huffman_tree frequency_table = Some ([], Some root)
    /\ huffman_shape root
    /\ symbols root ≡ₚ frequency_table
    /\ build_encoding_table (Some root) = leaf_paths root
    /\ dict_keys (leaf_paths root) ≡ₚ dict_keys frequency_table.
Proof.
  intros Hne [Hnd Hpos].
  destruct (build_huffman_tree_spec frequency_table Hne Hpos) as (root & Hroot & Hshape & Hsym).
  exists root. repeat split; auto.
  - apply build_encoding_table_shape; [done|]. by rewrite Hsym.
  - unfold dict_keys. rewrite leaf_paths_symbols by done. by rewrite Hsym.
Qed.

(** C6. For a frequency table with at least two symbols, no code of the
    table built from its Huffman tree is a prefix of another symbol's code. *)
Theorem encoding_table_prefix_free (frequency_table : dict Z) :
  frequency_table_ok frequency_table -> 2 <= length frequency_table ->
  exists root, build_huffman_tree frequency_table = Some ([], Some root)
    /\ prefix_free (build_encoding_table (Some root)).
Proof.
  intros Hok Hlen.
  destruct (encoding_table_spec frequency_table) as (root & Hroot & Hshape & _ & Htbl & _);
    [intros ->; simpl in Hlen; lia|done|].
  exists root. split; [done|]. rewrite Htbl.
  intros s1 s2 c1 c2 Hne H1 H2 Hpre.
  apply dict_get_Some_elem in H1, H2.
  assert ((s1, c1) = (s2, c2)) by (eapply leaf_paths_prefix; eauto).
  congruence.
Qed.

Lemma encoding_table_prefix_free_witness :
  exists root,
    build_huffman_tree (build_frequency_table (iter_bytes (list_byte_of_string "aaabbc")))
      = Some ([], Some root)
    /\ prefix_free (build_encoding_table (Some root)).
Proof.
  apply (encoding_table_prefix_free
           (build_frequency_table (iter_bytes (list_byte_of_string "aaabbc")))).
  - apply build_frequency_table_ok.
  - vm_compute. lia.
Defined.

(** ** Packing bits into bytes and expanding them again *)

Lemma pack_chunk_format (chunk : str) :
  length chunk = 8 -> Forall is_bit chunk ->
  exists b, pack_chunk chunk = Some b /\ format_08b (byte_value b) = chunk.
Proof.
  intros Hlen Hbits.
  do 8 (destruct chunk as [|? chunk]; [simpl in Hlen; lia|]).
  destruct chunk; [|simpl in Hlen; lia]. clear Hlen.
  repeat match goal with
         | H : Forall is_bit (_ :: _) |- _ => apply Forall_cons in H as [[->| ->] H]
         end;
    vm_compute; eexists; split; reflexivity.
Qed.

Lemma mapM_cons {X Y : Type} (f : X -> option Y) (x : X) (l : list X) :
  mapM f (x :: l) = y ← f x; k ← mapM f l; Some (y :: k).
Proof. reflexivity. Qed.

Lemma mapM_fmap_compose {X Y Z' : Type} (f : Y -> option Z') (g : X -> Y) (l : list X) :
  mapM f (g <$> l) = mapM (f ∘ g) l.
Proof.
  induction l as [|x l IH]; [done|]. by rewrite fmap_cons, !mapM_cons, IH.
Qed.

Lemma py_range_8 (n : nat) : py_range (8 + n) 8 = 0 :: ((fun i => 8 + i) <$> py_range n 8).
Proof.
  unfold py_range. replace ((8 + n + 8 - 1) / 8) with (S ((n + 8 - 1) / 8)) by lia.
  cbn [seq]. rewrite <- fmap_S_seq, fmap_cons, <- !list_fmap_compose.
  reflexivity.
Qed.

Lemma slice_app_head {X : Type} (chunk rest : list X) :
  slice (chunk ++ rest) 0 (0 + length chunk) = chunk.
Proof.
  unfold slice. rewrite drop_0. replace (0 + length chunk - 0) with (length chunk) by lia.
  apply take_app_length.
Qed.

Lemma slice_app_tail {X : Type} (chunk rest : list X) (i n : nat) :
  slice (chunk ++ rest) (length chunk + i) (length chunk + i + n) = slice rest i (i + n).
Proof.
  unfold slice. rewrite drop_app_add' by done. f_equal. lia.
Qed.

Lemma pack_bytes_app (chunk rest : str) :
  length chunk = 8 ->
  pack_bytes (chunk ++ rest) =
    b ← pack_chunk chunk; bs ← pack_bytes rest; Some (b :: bs).
Proof.
  intros Hlen. unfold pack_bytes. rewrite length_app, Hlen, py_range_8.
  rewrite mapM_cons, mapM_fmap_compose.
  rewrite <- Hlen at 1. rewrite slice_app_head.
  fold (pack_chunk chunk). destruct (pack_chunk chunk) as [b|]; [|done]. simpl.
  erewrite mapM_ext; [reflexivity|]. intros i. unfold compose.
  pose proof (slice_app_tail chunk rest i 8) as Hs. rewrite Hlen in Hs.
  simpl in Hs |- *. by rewrite Hs.
Qed.

Lemma pack_bytes_expand (n : nat) (encoded_data : str) :
  length encoded_data = 8 * n -> Forall is_bit encoded_data ->
  exists byte_array, pack_bytes encoded_data = Some byte_array
                     /\ expand_payload byte_array = encoded_data.
Proof.
  revert encoded_data. induction n as [|n IH]; intros s Hlen Hbits.
  - destruct s; [|simpl in Hlen; lia]. exists []. done.
  - rewrite <- (take_drop 8 s) in Hbits |- *.
    apply Forall_app in Hbits as [Hb1 Hb2].
    destruct (pack_chunk_format (take 8 s)) as (b & Hb & Hfmt);
      [rewrite length_take; lia|done|].
    destruct (IH (drop 8 s)) as (bs & Hbs & Hexp); [rewrite length_drop; lia|done|].
    exists (b :: bs). rewrite pack_bytes_app by (rewrite length_take; lia).
    rewrite Hb. simpl. rewrite Hbs. simpl. split; [done|].
    unfold expand_payload in *. rewrite fmap_cons. cbn [concat].
    by rewrite Hfmt, Hexp.
Qed.

(** ** compress_file returns *)

Lemma join_codes_spec (encoding_table : dict str) (data : list pyval) :
  Forall (fun c => c ∈ dict_keys encoding_table) data ->
  exists encoded_data, join_codes encoding_table data = Some encoded_data.
Proof.
  intros Hall. unfold join_codes.
  destruct (mapM_is_Some_2 (fun char => dict_get char encoding_table) data) as [codes ->].
  - eapply Forall_impl; [exact Hall|]. intros c Hc. simpl. by apply dict_get_is_Some.
  - simpl. eauto.
Qed.

Lemma join_codes_bits (encoding_table : dict str) (data : list pyval) (encoded_data : str) :
  Forall (fun cp => Forall is_bit cp.2) encoding_table ->
  join_codes encoding_table data = Some encoded_data ->
  Forall is_bit encoded_data.
Proof.
  intros Hbits. unfold join_codes.
  destruct (mapM _ data) as [codes|] eqn:E; [|done]. simpl. intros [= <-].
  apply mapM_Some_1 in E. apply Forall_concat.
  induction E as [|c code data codes Hc _ IH]; constructor; [|done].
  apply dict_get_Some_elem in Hc. rewrite Forall_forall in Hbits.
  exact (Hbits _ Hc).
Qed.

(** The intermediate values of [compress_file] for given [data]. *)
Lemma compress_data_spec (data : bytes) :
  exists printed huffman_tree encoded_data byte_array header,
    build_huffman_tree (build_frequency_table (iter_bytes data)) = Some (printed, huffman_tree)
    /\ join_codes (build_encoding_table huffman_tree) (iter_bytes data) = Some encoded_data
    /\ Forall is_bit encoded_data
    /\ pack_bytes (encoded_data ++ replicate (padding_of encoded_data) "0"%char)
         = Some byte_array
    /\ expand_payload byte_array
         = encoded_data ++ replicate (padding_of encoded_data) "0"%char
    /\ byte_of_int (Z.of_nat (padding_of encoded_data)) = Some header
    /\ N.to_nat (Byte.to_N header) = padding_of encoded_data
    /\ compress_data data = Some (printed, header :: byte_array).
Proof.
  set (ft := build_frequency_table (iter_bytes data)).
  assert (Hok : frequency_table_ok ft) by apply build_frequency_table_ok.
  assert (Htree : exists printed huffman_tree,
            build_huffman_tree ft = Some (printed, huffman_tree)
            /\ Forall (fun c => c ∈ dict_keys (build_encoding_table huffman_tree)) (iter_bytes data)
            /\ Forall (fun cp => Forall is_bit cp.2) (build_encoding_table huffman_tree)).
  { destruct data as [|b data].
    - exists [empty_tree_message], None. repeat split; constructor.
    - destruct (encoding_table_spec ft) as (root & Hroot & Hshape & _ & Htbl & Hkeys).
      { by apply build_frequency_table_nonempty. }
      { done. }
      exists [], (Some root). rewrite Htbl. repeat split; auto.
      + apply Forall_forall. intros c Hc. rewrite Hkeys.
        by apply build_frequency_table_keys.
      + by apply leaf_paths_bits. }
  destruct Htree as (printed & tree & Htree & Hcover & Hbits).
  destruct (join_codes_spec _ _ Hcover) as [encoded Hjoin].
  assert (Hb : Forall is_bit encoded) by (eapply join_codes_bits; eauto).
  set (padding := padding_of encoded).
  assert (Hpad : 1 <= padding <= 8) by (unfold padding, padding_of; lia).
  destruct (pack_bytes_expand ((length encoded + padding) / 8)
              (encoded ++ replicate padding "0"%char)) as (byte_array & Hpack & Hexp).
  { rewrite length_app, length_replicate. unfold padding, padding_of in *. lia. }
  { apply Forall_app. split; [done|]. apply Forall_replicate. by left. }
  assert (Hhdr : exists header, byte_of_int (Z.of_nat padding) = Some header
                                /\ N.to_nat (Byte.to_N header) = padding).
  { unfold byte_of_int. rewrite decide_True by lia.
    destruct (Byte.of_N (Z.to_N (Z.of_nat padding))) as [h|] eqn:E.
    - exists h. split; [done|]. apply Byte.to_of_N in E. lia.
    - apply Byte.of_N_None_iff in E. lia. }
  destruct Hhdr as (header & Hhdr & Hval).
  exists printed, tree, encoded, byte_array, header. repeat split; auto.
  unfold compress_data. fold ft. rewrite Htree. simpl. rewrite Hjoin. simpl.
  fold padding. rewrite Hpack. simpl. rewrite Hhdr. done.
Qed.

(** ** The padding and the bits the decoder walks *)

(** Dropping the padding the header names leaves the encoded bits. *)
Lemma walked_bits_padded (header : byte) (payload : bytes) (encoded_data : str)
    (padding : nat) :
  N.to_nat (Byte.to_N header) = padding -> 1 <= padding ->
  expand_payload payload = encoded_data ++ replicate padding "0"%char ->
  walked_bits (header :: payload) = encoded_data.
Proof.
  intros Hval Hpad Hexp. unfold walked_bits, read_header, slice_to_neg.
  rewrite Hval, Hexp, decide_False by lia.
  rewrite length_app, length_replicate.
  replace (length encoded_data + padding - padding) with (length encoded_data) by lia.
  apply take_app_length.
Qed.

(** C3, as the program has it. For a non-empty input the header byte holds
    [8 - len(encoded_data) % 8], a value from 1 to 8 (8 when the encoded
    length is a multiple of 8); the payload expands to the encoded bits
    followed by that many zeros, and the decoder walks exactly the encoded
    bits: it drops the last [padding] bits and no more. *)
Theorem padding_header_and_stripping (data : bytes) :
  data <> [] ->
  exists printed huffman_tree encoded_data header payload,
    build_huffman_tree (build_frequency_table (iter_bytes data)) = Some (printed, huffman_tree)
    /\ join_codes (build_encoding_table huffman_tree) (iter_bytes data) = Some encoded_data
    /\ compress_data data = Some (printed, header :: payload)
    /\ byte_value header = Z.of_nat (8 - length encoded_data mod 8)
    /\ (1 <= byte_value header <= 8)%Z
    /\ expand_payload payload
        = encoded_data ++ replicate (Z.to_nat (byte_value header)) "0"%char
    /\ walked_bits (header :: payload) = encoded_data.
Proof.
  intros _.
  destruct (compress_data_spec data)
    as (printed & tree & encoded & byte_array & header
        & Htree & Hjoin & _ & _ & Hexp & _ & Hval & Hcomp).
  assert (Hpad : 1 <= padding_of encoded <= 8) by (unfold padding_of; lia).
  assert (Hbv : byte_value header = Z.of_nat (padding_of encoded)).
  { unfold byte_value. lia. }
  exists printed, tree, encoded, header, byte_array. repeat split; auto; try lia.
  - rewrite Hbv, Nat2Z.id. done.
  - eapply walked_bits_padded; eauto. lia.
Qed.

Lemma padding_header_and_stripping_witness :
  exists printed huffman_tree encoded_data header payload,
    build_huffman_tree
      (build_frequency_table (iter_bytes (list_byte_of_string "aaabbc")))
      = Some (printed, huffman_tree)
    /\ join_codes (build_encoding_table huffman_tree)
         (iter_bytes (list_byte_of_string "aaabbc")) = Some encoded_data
    /\ compress_data (list_byte_of_string "aaabbc") = Some (printed, header :: payload)
    /\ byte_value header = Z.of_nat (8 - length encoded_data mod 8)
    /\ (1 <= byte_value header <= 8)%Z
    /\ expand_payload payload
        = encoded_data ++ replicate (Z.to_nat (byte_value header)) "0"%char
    /\ walked_bits (header :: payload) = encoded_data.
Proof.
  apply (padding_header_and_stripping (list_byte_of_string "aaabbc")).
  vm_compute. discriminate.
Defined.

(** C3, as the specification words it, fails: eight one-bit codes fill a
    byte, and the header then holds 8, outside 0..7. *)
Lemma padding_header_can_be_eight :
  compress_data (list_byte_of_string "abababab") = Some ([], [x08; x55; x00])
  /\ byte_value x08 = 8%Z
  /\ ~ (0 <= byte_value x08 <= 7)%Z.
Proof. split; [|split]; [vm_compute; reflexivity..|]. vm_compute. intros [_ H]. by apply H. Qed.

(** ** The decoder *)

Lemma decode_loop_fold (encoding_table : dict str) (bits : str) (st : str * str) :
  (forall code, dict_get (PStr code) encoding_table = None) ->
  fold_left (decode_step encoding_table) bits st = (st.1 ++ bits, st.2).
Proof.
  intros Hnone. revert st. induction bits as [|bit bits IH]; intros [cur dec]; simpl.
  - by rewrite app_nil_r.
  - rewrite Hnone, IH. simpl. by rewrite <- app_assoc.
Qed.

Lemma decode_loop_no_str_key (encoding_table : dict str) (bits : str) :
  Forall (fun k => exists n, k = PInt n) (dict_keys encoding_table) ->
  decode_loop encoding_table bits = (bits, []).
Proof.
  intros Hkeys. unfold decode_loop. rewrite decode_loop_fold; [done|].
  intros code. apply dict_get_None. intros Hin.
  rewrite Forall_forall in Hkeys. destruct (Hkeys _ Hin) as [n Hn]. done.
Qed.

Lemma encoding_table_keys_of_bytes (data : bytes) (printed : list str)
    (huffman_tree : option HuffmanNode) :
  build_huffman_tree (build_frequency_table (iter_bytes data)) = Some (printed, huffman_tree) ->
  Forall (fun k => exists n, k = PInt n) (dict_keys (build_encoding_table huffman_tree)).
Proof.
  intros Htree. destruct data as [|b data].
  - vm_compute in Htree. injection Htree as <- <-. constructor.
  - destruct (encoding_table_spec (build_frequency_table (iter_bytes (b :: data))))
      as (root & Hroot & _ & _ & Htbl & Hkeys).
    { by apply build_frequency_table_nonempty. }
    { apply build_frequency_table_ok. }
    rewrite Hroot in Htree. injection Htree as <- <-. rewrite Htbl.
    apply Forall_forall. intros k Hk. rewrite Hkeys in Hk.
    apply (proj1 (build_frequency_table_keys _ _)) in Hk.
    apply list_elem_of_fmap in Hk as (b' & -> & _). eauto.
Qed.

(** C1 does not hold of the program. For every byte sequence, the table
    that [build_encoding_table] gives has the byte values as keys; the
    decoder looks bit-strings up among these keys, finds none, and its
    output is empty whatever was compressed. *)
Theorem decoder_output_empty (data : bytes) :
  exists printed huffman_tree written,
    build_huffman_tree (build_frequency_table (iter_bytes data)) = Some (printed, huffman_tree)
    /\ compress_data data = Some (printed, written)
    /\ decompress_data written (build_encoding_table huffman_tree) = [].
Proof.
  destruct (compress_data_spec data)
    as (printed & tree & encoded & byte_array & header & Htree & _ & _ & _ & _ & _ & _ & Hcomp).
  exists printed, tree, (header :: byte_array). repeat split; auto.
  unfold decompress_data. rewrite decode_loop_no_str_key; [done|].
  eapply encoding_table_keys_of_bytes; eauto.
Qed.

(** The same on the input [b"aaabbc"]: three bytes are written, and
    decoding them with the table of the compressor gives the empty string. *)
Lemma roundtrip_aaabbc_lost :
  compress_data (list_byte_of_string "aaabbc") = Some ([], [x07; x1f; x00])
  /\ rebuilt_table (list_byte_of_string "aaabbc")
     = Some ([], [(PInt 97, lit "0"); (PInt 99, lit "10"); (PInt 98, lit "11")])
  /\ decompress_data [x07; x1f; x00]
       [(PInt 97, lit "0"); (PInt 99, lit "10"); (PInt 98, lit "11")] = [].
Proof. repeat split; vm_compute; reflexivity. Qed.

(** ** One distinct symbol *)

Lemma count_fold_replicate (c : pyval) (n : nat) (k : Z) :
  fold_left count_step (replicate n c) [(c, k)] = [(c, (k + Z.of_nat n)%Z)].
Proof.
  revert k. induction n as [|n IH]; intros k; simpl.
  - by rewrite Z.add_0_r.
  - unfold count_step at 2. simpl. rewrite !decide_True by done. simpl.
    rewrite IH. do 2 f_equal. lia.
Qed.

Lemma build_frequency_table_replicate (c : pyval) (n : nat) :
  build_frequency_table (replicate (S n) c) = [(c, Z.of_nat (S n))].
Proof.
  rewrite build_frequency_table_fold. simpl. unfold count_step at 2. simpl.
  rewrite count_fold_replicate. do 2 f_equal. lia.
Qed.

Lemma single_symbol_tree (c : pyval) (f : Z) :
  build_huffman_tree [(c, f)] = Some ([], Some (Node (Some c) f None None)).
Proof. reflexivity. Qed.

(** C2 does not hold of the program. The tree of a one-symbol table is a
    single leaf, the code of the symbol is the empty string, and every
    repetition count gives the same two bytes (header 8, one zero byte),
    from which the decoder recovers nothing. *)
Theorem single_symbol_code_is_empty (b : byte) (n : nat) :
  build_frequency_table (iter_bytes (replicate (S n) b))
    = [(PInt (byte_value b), Z.of_nat (S n))]
  /\ build_huffman_tree [(PInt (byte_value b), Z.of_nat (S n))]
     = Some ([], Some (Node (Some (PInt (byte_value b))) (Z.of_nat (S n)) None None))
  /\ build_encoding_table (Some (Node (Some (PInt (byte_value b))) (Z.of_nat (S n)) None None))
     = [(PInt (byte_value b), [])]
  /\ compress_data (replicate (S n) b) = Some ([], [x08; x00])
  /\ decompress_data [x08; x00] [(PInt (byte_value b), [])] = [].
Proof.
  assert (Hft : build_frequency_table (iter_bytes (replicate (S n) b))
                = [(PInt (byte_value b), Z.of_nat (S n))]).
  { unfold iter_bytes. rewrite fmap_replicate. apply build_frequency_table_replicate. }
  split; [done|]. split; [reflexivity|]. split; [reflexivity|]. split; [|reflexivity].
  unfold compress_data. rewrite Hft, single_symbol_tree.
  cbn [mbind option_bind]. change (build_encoding_table _) with [(PInt (byte_value b), @nil ascii)].
  assert (Hjoin : join_codes [(PInt (byte_value b), [])] (iter_bytes (replicate (S n) b))
                  = Some []).
  { unfold join_codes, iter_bytes. rewrite fmap_replicate.
    assert (H : mapM (fun char => dict_get char [(PInt (byte_value b), @nil ascii)])
                  (replicate (S n) (PInt (byte_value b))) = Some (replicate (S n) [])).
    { generalize (S n). intros m. induction m as [|m IH]; [done|].
      cbn [replicate]. rewrite mapM_cons, IH. simpl. by rewrite decide_True. }
    rewrite H. simpl. clear. induction n as [|n IH]; [done|]. exact IH. }
  rewrite Hjoin. reflexivity.
Qed.

(** ** The end of the decoder's walk *)




(** ** The example of the specification *)

(** C9. The input [b"aaabbc"]: the frequencies, the two merges (c with b,
    then a with the merged node), the codes, the nine encoded bits, the
    padding of 7 to sixteen bits, and the three bytes written. *)
Theorem example_aaabbc :
  let data := list_byte_of_string "aaabbc" in
  let a := Node (Some (PInt 97)) 3 None None in
  let b := Node (Some (PInt 98)) 2 None None in
  let c := Node (Some (PInt 99)) 1 None None in
  let cb := Node None 3 (Some c) (Some b) in
  let root := Node None 6 (Some a) (Some cb) in
  let encoding_table := [(PInt 97, lit "0"); (PInt 99, lit "10"); (PInt 98, lit "11")] in
  build_frequency_table (iter_bytes data) = [(PInt 97, 3%Z); (PInt 98, 2%Z); (PInt 99, 1%Z)]
  /\ push_leaves [(PInt 97, 3%Z); (PInt 98, 2%Z); (PInt 99, 1%Z)] [] = Some [c; a; b]
  /\ heapq.heappop node_lt [c; a; b] = Some (c, [b; a])
  /\ heapq.heappop node_lt [b; a] = Some (b, [a])
  /\ merge_nodes c b = cb
  /\ heapq.heappush node_lt [a] cb = Some [a; cb]
  /\ heapq.heappop node_lt [a; cb] = Some (a, [cb])
  /\ heapq.heappop node_lt [cb] = Some (cb, [])
  /\ merge_nodes a cb = root
  /\ heapq.heappush node_lt [] root = Some [root]
  /\ build_huffman_tree (build_frequency_table (iter_bytes data)) = Some ([], Some root)
  /\ build_encoding_table (Some root) = encoding_table
  /\ join_codes encoding_table (iter_bytes data) = Some (lit "000111110")
  /\ padding_of (lit "000111110") = 7
  /\ length (lit "000111110" ++ replicate 7 "0"%char) = 16
  /\ pack_bytes (lit "000111110" ++ replicate 7 "0"%char) = Some [x1f; x00]
  /\ compress_data data = Some ([], [x07; x1f; x00]).
Proof. cbv zeta. repeat split; vm_compute; reflexivity. Qed.

(** ** Trailing whitespace *)

Lemma rstrip_whitespace (ws : bytes) :
  Forall (fun b => is_ascii_whitespace b = true) ws -> rstrip ws = [].
Proof.
  induction 1 as [|b ws Hb _ IH]; simpl; [done|]. by rewrite IH, Hb.
Qed.

Lemma rstrip_app_whitespace (contents ws : bytes) :
  Forall (fun b => is_ascii_whitespace b = true) ws ->
  rstrip (contents ++ ws) = rstrip contents.
Proof.
  intros Hws. induction contents as [|b contents IH]; simpl.
  - by apply rstrip_whitespace.
  - by rewrite IH.
Qed.

Lemma rstrip_decompose (contents : bytes) :
  exists ws, contents = rstrip contents ++ ws
             /\ Forall (fun b => is_ascii_whitespace b = true) ws.
Proof.
  induction contents as [|b contents (ws & Heq & Hws)]; simpl.
  - exists []. done.
  - destruct (rstrip contents) as [|b' stripped] eqn:E.
    + destruct (is_ascii_whitespace b) eqn:Hb.
      * exists (b :: ws). simpl in Heq. subst contents. split; [done|]. by constructor.
      * exists ws. simpl in *. by subst contents.
    + exists ws. split; [|done]. simpl in *. by rewrite <- Heq.
Qed.

(** C10. [compress_file] and the table rebuilt for decompression work on
    the file contents with the trailing ASCII whitespace removed: a file and
    the same file followed by whitespace give the same stripped data and the
    same table, and the same bytes are written for both, so nothing of the
    whitespace is in the compressed file. *)
Theorem trailing_whitespace_not_compressed (input_file output_file : str)
    (w1 w2 : world) (contents ws : bytes) :
  Forall (fun b => is_ascii_whitespace b = true) ws ->
  files w1 !! input_file = Some contents ->
  files w2 !! input_file = Some (contents ++ ws) ->
  rstrip (contents ++ ws) = rstrip contents
  /\ rebuilt_table (contents ++ ws) = rebuilt_table contents
  /\ exists printed written,
       compress_data (rstrip contents) = Some (printed, written)
       /\ (files <$> compress_file input_file output_file w1)
          = Some (<[output_file:=written]> (files w1))
       /\ (files <$> compress_file input_file output_file w2)
          = Some (<[output_file:=written]> (files w2)).
Proof.
  intros Hws H1 H2.
  assert (Hs : rstrip (contents ++ ws) = rstrip contents)
    by (by apply rstrip_app_whitespace).
  split; [done|]. split; [unfold rebuilt_table; by rewrite Hs|].
  destruct (compress_data_spec (rstrip contents))
    as (printed & _ & _ & byte_array & header & _ & _ & _ & _ & _ & _ & _ & Hcomp).
  exists printed, (header :: byte_array). split; [done|].
  unfold compress_file. rewrite H1, H2. simpl. rewrite Hs, Hcomp. done.
Qed.

Lemma trailing_whitespace_not_compressed_witness :
  let w1 := World {[ lit "in.txt" := list_byte_of_string "aaabbc" ]} [] in
  let w2 := World {[ lit "in.txt" := list_byte_of_string "aaabbc" ++ [x20; x0a] ]} [] in
  rstrip (list_byte_of_string "aaabbc" ++ [x20; x0a]) = rstrip (list_byte_of_string "aaabbc")
  /\ rebuilt_table (list_byte_of_string "aaabbc" ++ [x20; x0a])
     = rebuilt_table (list_byte_of_string "aaabbc")
  /\ exists printed written,
       compress_data (rstrip (list_byte_of_string "aaabbc")) = Some (printed, written)
       /\ (files <$> compress_file (lit "in.txt") (lit "in.txt.huff") w1)
          = Some (<[lit "in.txt.huff":=written]> (files w1))
       /\ (files <$> compress_file (lit "in.txt") (lit "in.txt.huff") w2)
          = Some (<[lit "in.txt.huff":=written]> (files w2)).
Proof.
  intros w1 w2.
  apply (trailing_whitespace_not_compressed (lit "in.txt") (lit "in.txt.huff") w1 w2
           (list_byte_of_string "aaabbc") [x20; x0a]).
  - repeat constructor.
  - apply lookup_singleton_eq.
  - apply lookup_singleton_eq.
Defined.

(** ** heapq: the heap order *)

Section heapq_order.
Context {A : Type} (key : A -> Z).

Local Abbreviation lt := (fun x y : A => (key x <? key y)%Z).

Lemma exchanged_insert (heap : list A) (pos other : nat) (newitem moved : A) :
  pos <> other -> pos < length heap -> heap !! other = Some moved ->
  exchanged (<[pos:=newitem]> heap) (<[other:=newitem]> (<[pos:=moved]> heap))
    pos other newitem moved.
Proof.
  intros Hne Hpos Hother.
  assert (other < length heap) by (eapply lookup_lt_Some; eauto).
  split; [by apply list_lookup_insert_eq|].
  split; [by rewrite list_lookup_insert_ne|].
  intros k. destruct (decide (k = other)) as [->|].
  - apply list_lookup_insert_eq. by rewrite length_insert.
  - rewrite list_lookup_insert_ne by done. destruct (decide (k = pos)) as [->|].
    + by apply list_lookup_insert_eq.
    + by rewrite !list_lookup_insert_ne.
Qed.

Lemma heap_ordered_down (H : list A) (pos : nat) (newitem : A) :
  down_inv key H pos -> H !! pos = Some newitem ->
  (0 < pos -> forall parent, H !! ((pos - 1) / 2) = Some parent ->
              (key parent <= key newitem)%Z) ->
  heap_ordered key H.
Proof.
  intros [Hord _] Hnew Htop i x p Hi Hx Hp.
  destruct (decide (i = pos)) as [->|Hne].
  - rewrite Hnew in Hx. injection Hx as <-. eauto.
  - eapply Hord; eauto.
Qed.

Lemma down_step (H H' : list A) (pos : nat) (newitem parent : A) :
  0 < pos -> exchanged H H' pos ((pos - 1) / 2) newitem parent ->
  (key newitem < key parent)%Z ->
  down_inv key H pos -> down_inv key H' ((pos - 1) / 2).
Proof.
  intros Hpos (Hnew & Hpar & Hlook) Hlt [Hord Hgrand].
  set (pp := (pos - 1) / 2) in *.
  assert (Hpp : pp < pos) by (unfold pp; lia).
  split.
  - intros i x p Hi Hskip Hx Hp. rewrite Hlook in Hx, Hp.
    destruct (decide (i = pp)) as [|_]; [done|].
    destruct (decide (i = pos)) as [->|Hipos].
    + fold pp in Hp. rewrite decide_True in Hp by done.
      injection Hx as <-. injection Hp as <-. lia.
    + destruct (decide ((i - 1) / 2 = pp)) as [Hipp|Hipp].
      * injection Hp as <-. assert (key parent <= key x)%Z; [|lia].
        eapply (Hord i); eauto. by rewrite Hipp.
      * destruct (decide ((i - 1) / 2 = pos)) as [Hic|Hic].
        -- injection Hp as <-. eapply (Hgrand i); eauto.
        -- eapply (Hord i); eauto.
  - intros c x g Hpp0 Hc Hcp Hx Hg. rewrite Hlook in Hx, Hg.
    rewrite decide_False in Hg by lia. rewrite decide_False in Hg by lia.
    rewrite decide_False in Hx by lia.
    assert (Hpg : (key g <= key parent)%Z).
    { eapply (Hord pp); eauto. lia. }
    destruct (decide (c = pos)) as [->|Hcpos].
    + by injection Hx as <-.
    + assert (key parent <= key x)%Z; [|lia].
      eapply (Hord c); eauto. by rewrite Hcp.
Qed.

Lemma siftdown_loop_ordered (fuel : nat) (heap : list A) (pos : nat) (newitem : A)
    (heap' : list A) :
  heapq.siftdown_loop lt fuel heap 0 pos newitem = Some heap' ->
  pos < length heap -> down_inv key (<[pos:=newitem]> heap) pos ->
  heap_ordered key heap'.
Proof.
  revert heap pos. induction fuel as [|fuel IH]; intros heap pos Hrun Hpos Hinv.
  - destruct (decide (0 < pos)) as [H0|H0].
    + simpl in Hrun. by rewrite decide_True in Hrun.
    + rewrite siftdown_loop_exit in Hrun by done. injection Hrun as <-.
      eapply heap_ordered_down; eauto; [by apply list_lookup_insert_eq|lia].
  - destruct (decide (0 < pos)) as [H0|H0].
    2:{ rewrite siftdown_loop_exit in Hrun by done. injection Hrun as <-.
        eapply heap_ordered_down; eauto; [by apply list_lookup_insert_eq|lia]. }
    destruct (lookup_lt_is_Some_2 heap ((pos - 1) / 2)) as [parent Hparent]; [lia|].
    rewrite (siftdown_loop_step _ _ _ _ _ _ parent) in Hrun by done.
    destruct (key newitem <? key parent)%Z eqn:Hlt.
    + apply IH in Hrun; [done|rewrite length_insert; lia|].
      eapply down_step; [done| |apply Z.ltb_lt, Hlt|exact Hinv].
      apply exchanged_insert; [lia|done|done].
    + injection Hrun as <-. apply Z.ltb_ge in Hlt.
      eapply heap_ordered_down; eauto; [by apply list_lookup_insert_eq|].
      intros _ parent'. rewrite list_lookup_insert_ne by lia.
      rewrite Hparent. by intros [= <-].
Qed.

Lemma up_step (H H' : list A) (pos c : nat) (newitem child : A) :
  (c = 2 * pos + 1 \/ c = 2 * pos + 2) ->
  exchanged H H' pos c newitem child ->
  (forall s y, s = 2 * pos + 1 \/ s = 2 * pos + 2 -> H !! s = Some y ->
               (key child <= key y)%Z) ->
  up_inv key H pos -> up_inv key H' c.
Proof.
  intros Hc (Hnew & Hchild & Hlook) Hmin [Hord Hgrand].
  assert (Hcp : (c - 1) / 2 = pos) by lia.
  split.
  - intros i x p Hi Hskip Hx Hp. rewrite Hlook in Hx, Hp.
    rewrite decide_False in Hx by tauto. rewrite decide_False in Hp by tauto.
    destruct (decide (i = pos)) as [->|Hipos].
    + injection Hx as <-. rewrite decide_False in Hp by lia.
      eapply (Hgrand c); eauto. lia.
    + destruct (decide ((i - 1) / 2 = pos)) as [Hip|Hip].
      * injection Hp as <-. eapply (Hmin i); eauto. lia.
      * eapply (Hord i); eauto. tauto.
  - intros c' x g Hc0 Hc' Hc'p Hx Hg. rewrite Hlook in Hx, Hg.
    rewrite Hcp in Hg. rewrite decide_False in Hg by lia.
    rewrite decide_True in Hg by done. injection Hg as <-.
    rewrite decide_False in Hx by lia. rewrite decide_False in Hx by lia.
    eapply (Hord c'); eauto; [lia|]. by rewrite Hc'p.
Qed.

Lemma smaller_child_least (heap : list A) (pos childpos : nat) (child : A) :
  smaller_child lt heap pos = Some childpos -> heap !! childpos = Some child ->
  forall s y, s = 2 * pos + 1 \/ s = 2 * pos + 2 -> heap !! s = Some y ->
              (key child <= key y)%Z.
Proof.
  unfold smaller_child. cbv zeta. intros Hsel Hchild s y Hs Hy.
  replace (2 * pos + 2) with (2 * pos + 1 + 1) in Hs by lia.
  destruct (decide (2 * pos + 1 + 1 < length heap)) as [Hright|Hright].
  - destruct (heap !! (2 * pos + 1)) as [l|] eqn:Hl; [|done].
    destruct (heap !! (2 * pos + 1 + 1)) as [r|] eqn:Hr; [|done].
    cbn [mbind option_bind] in Hsel.
    destruct (key l <? key r)%Z eqn:Hlt; cbn [negb] in Hsel.
    + assert (childpos = 2 * pos + 1) as -> by congruence.
      apply Z.ltb_lt in Hlt. rewrite Hl in Hchild.
      destruct Hs as [-> | ->]; rewrite ?Hl, ?Hr in Hy; simplify_eq; lia.
    + assert (childpos = 2 * pos + 1 + 1) as -> by congruence.
      apply Z.ltb_ge in Hlt. rewrite Hr in Hchild.
      destruct Hs as [-> | ->]; rewrite ?Hl, ?Hr in Hy; simplify_eq; lia.
  - assert (childpos = 2 * pos + 1) as -> by congruence.
    destruct Hs as [-> | ->].
    + rewrite Hchild in Hy. injection Hy as <-. lia.
    + apply lookup_lt_Some in Hy. lia.
Qed.

Lemma siftup_loop_inv (fuel : nat) (heap : list A) (pos : nat) (newitem : A)
    (heap' : list A) (pos' : nat) :
  heapq.siftup_loop lt fuel heap (length heap) pos = Some (heap', pos') ->
  pos < length heap -> up_inv key (<[pos:=newitem]> heap) pos ->
  pos' < length heap' /\ down_inv key (<[pos':=newitem]> heap') pos'.
Proof.
  revert heap pos. induction fuel as [|fuel IH]; intros heap pos Hrun Hpos Hinv.
  - destruct (decide (2 * pos + 1 < length heap)) as [H0|H0].
    + simpl in Hrun. replace (pos + (pos + 0)) with (2 * pos) in Hrun by lia.
      by rewrite decide_True in Hrun.
    + rewrite siftup_loop_exit in Hrun by done. injection Hrun as <- <-.
      split; [done|]. destruct Hinv as [Hord Hgrand]. split; [|done].
      intros i x p Hi Hskip Hx Hp. eapply (Hord i); eauto.
      intros [?|Hip]; [done|]. apply lookup_lt_Some in Hx.
      rewrite length_insert in Hx. lia.
  - destruct (decide (2 * pos + 1 < length heap)) as [H0|H0].
    2:{ rewrite siftup_loop_exit in Hrun by done. injection Hrun as <- <-.
        split; [done|]. destruct Hinv as [Hord Hgrand]. split; [|done].
        intros i x p Hi Hskip Hx Hp. eapply (Hord i); eauto.
        intros [?|Hip]; [done|]. apply lookup_lt_Some in Hx.
        rewrite length_insert in Hx. lia. }
    destruct (smaller_child_range lt heap pos H0) as (childpos & Hsel & Hc & Hclt).
    destruct (lookup_lt_is_Some_2 heap childpos Hclt) as [child Hchildv].
    rewrite (siftup_loop_step _ _ _ _ childpos child) in Hrun by done.
    rewrite <- (length_insert heap pos child) in Hrun.
    apply IH in Hrun; [done|rewrite length_insert; lia|].
    eapply up_step; [exact Hc| | |exact Hinv].
    + apply exchanged_insert; [lia|done|done].
    + intros s y Hs Hy. rewrite list_lookup_insert_ne in Hy by lia.
      eapply smaller_child_least; eauto.
Qed.

Lemma siftdown_ordered (heap : list A) (pos : nat) (heap' : list A) :
  heapq._siftdown lt heap 0 pos = Some heap' -> down_inv key heap pos ->
  heap_ordered key heap'.
Proof.
  unfold heapq._siftdown. destruct (heap !! pos) as [newitem|] eqn:Hnew; [|done].
  simpl. intros Hrun Hinv. eapply siftdown_loop_ordered; eauto.
  - eapply lookup_lt_Some; eauto.
  - by rewrite list_insert_id.
Qed.

Lemma siftup_ordered (heap : list A) (heap' : list A) :
  heapq._siftup lt heap 0 = Some heap' -> up_inv key heap 0 -> heap_ordered key heap'.
Proof.
  unfold heapq._siftup. destruct (heap !! 0) as [newitem|] eqn:Hnew; [|done].
  simpl. destruct (heapq.siftup_loop _ _ _ _ _) as [[heap1 pos1]|] eqn:Hloop; [|done].
  simpl. intros Hrun Hinv.
  apply (siftup_loop_inv _ _ _ newitem) in Hloop as [Hp1 Hdown].
  - eapply siftdown_ordered; eauto.
  - eapply lookup_lt_Some; eauto.
  - by rewrite list_insert_id.
Qed.

Lemma heap_ordered_nil : heap_ordered key [].
Proof. intros i x p _ Hx. done. Qed.

Lemma heappush_ordered (heap : list A) (item : A) (heap' : list A) :
  heap_ordered key heap -> heapq.heappush lt heap item = Some heap' ->
  heap_ordered key heap'.
Proof.
  intros Hord Hrun. unfold heapq.heappush in Hrun.
  eapply siftdown_ordered; [exact Hrun|].
  rewrite length_app. simpl. replace (length heap + 1 - 1) with (length heap) by lia.
  split.
  - intros i x p Hi Hskip Hx Hp.
    assert (i < length heap).
    { apply lookup_lt_Some in Hx. rewrite length_app in Hx. simpl in Hx. lia. }
    rewrite lookup_app_l in Hx, Hp by lia. eauto.
  - intros c x g _ Hc Hcp Hx _. apply lookup_lt_Some in Hx.
    rewrite length_app in Hx. simpl in Hx. lia.
Qed.

Lemma heap_ordered_head (heap : list A) (root : A) :
  heap_ordered key heap -> head heap = Some root ->
  forall x, x ∈ heap -> (key root <= key x)%Z.
Proof.
  intros Hord Hroot x Hx. apply list_elem_of_lookup in Hx as [i Hi].
  rewrite head_lookup in Hroot.
  revert x Hi. induction (lt_wf i) as [i _ IH]. intros x Hi.
  destruct (decide (i = 0)) as [->|Hne].
  - rewrite Hroot in Hi. injection Hi as <-. lia.
  - destruct (lookup_lt_is_Some_2 heap ((i - 1) / 2)) as [p Hp].
    { apply lookup_lt_Some in Hi. lia. }
    assert (key root <= key p)%Z by (eapply (IH ((i - 1) / 2)); eauto; lia).
    assert (key p <= key x)%Z by (eapply (Hord i); eauto; lia).
    lia.
Qed.

Lemma heappop_ordered (heap : list A) (item : A) (heap' : list A) :
  heap_ordered key heap -> heapq.heappop lt heap = Some (item, heap') ->
  heap_ordered key heap' /\ forall x, x ∈ heap -> (key item <= key x)%Z.
Proof.
  intros Hord Hrun.
  assert (Hne : heap <> []) by (intros ->; done).
  destruct (heappop_elements lt heap Hne) as (item' & heap'' & Hrun' & _ & Hhead).
  rewrite Hrun in Hrun'. injection Hrun' as <- <-.
  split; [|by eapply heap_ordered_head].
  unfold heapq.heappop in Hrun.
  destruct (exists_last Hne) as (init & lastelt & ->).
  rewrite last_snoc in Hrun. simpl in Hrun. rewrite removelast_last in Hrun.
  destruct init as [|returnitem rest].
  - injection Hrun as _ <-. apply heap_ordered_nil.
  - destruct (heapq._siftup _ _ _) as [heap1|] eqn:Hup; [|done].
    injection Hrun as _ <-. eapply siftup_ordered; [exact Hup|].
    split.
    + intros i x p Hi Hskip Hx Hp.
      assert (i <> 0 /\ (i - 1) / 2 <> 0) as [Hi0 Hp0] by tauto.
      rewrite list_lookup_insert_ne in Hx, Hp by lia.
      eapply (Hord i); eauto; rewrite lookup_app_l; eauto;
        eapply lookup_lt_Some; eauto.
    + intros c x g Hpos. lia.
Qed.

End heapq_order.

(** ** Code lengths: the Kraft inequality and the cost of a merge *)

Section kraft.

Lemma sumZ_app {X} (f : X -> Z) (l k : list X) :
  sumZ f (l ++ k) = (sumZ f l + sumZ f k)%Z.
Proof. induction l as [|x l IH]; simpl; lia. Qed.

Lemma sumZ_fmap {X Y} (f : Y -> Z) (g : X -> Y) (l : list X) :
  sumZ f (g <$> l) = sumZ (fun x => f (g x)) l.
Proof.
  induction l as [|x l IH]; [done|]. rewrite fmap_cons. cbn [sumZ foldr].
  fold (sumZ f (g <$> l)). fold (sumZ (fun x => f (g x)) l). by rewrite IH.
Qed.

Lemma sumZ_ext {X} (f g : X -> Z) (l : list X) :
  (forall x, x ∈ l -> f x = g x) -> sumZ f l = sumZ g l.
Proof.
  induction l as [|x l IH]; intros H; simpl; [done|].
  rewrite H by left. rewrite IH; [done|]. intros y Hy. apply H. by right.
Qed.

Lemma sumZ_plus {X} (f g : X -> Z) (l : list X) :
  sumZ (fun x => (f x + g x)%Z) l = (sumZ f l + sumZ g l)%Z.
Proof. induction l as [|x l IH]; simpl; lia. Qed.

#[global] Instance sumZ_perm {X} (f : X -> Z) : Proper (Permutation ==> eq) (sumZ f).
Proof. induction 1; simpl; lia. Qed.

#[global] Instance kraft_sum_perm (L : nat) : Proper (Permutation ==> eq) (kraft_sum L).
Proof. intros l k H. unfold kraft_sum. by rewrite H. Qed.

#[global] Instance kraft_perm (L : nat) : Proper (Permutation ==> iff) (kraft L).
Proof. intros l k H. unfold kraft. by rewrite H. Qed.

Lemma fmap_Permutation_inv {X Y} (f : X -> Y) (l : list X) (k : list Y) :
  f <$> l ≡ₚ k -> exists l', l ≡ₚ l' /\ f <$> l' = k.
Proof.
  intros H. assert (Hmap : forall l0 : list X, f <$> l0 = map f l0).
  { induction l0; simpl; by f_equal. }
  rewrite Hmap in H. symmetry in H.
  destruct (Permutation_map_inv f l H) as (l' & -> & Hl').
  exists l'. by rewrite Hmap.
Qed.

Lemma pow2_split (L m : nat) : m <= L -> 2 ^ L = 2 ^ (L - m) * 2 ^ m.
Proof. intros H. rewrite <- Nat.pow_add_r. f_equal. lia. Qed.

Lemma pow2_pos (n : nat) : 0 < 2 ^ n.
Proof. induction n; simpl; lia. Qed.

Lemma kraft_sum_scale (L m : nat) (lengths : list nat) :
  m <= L -> Forall (fun l => l <= m) lengths ->
  kraft_sum L lengths = 2 ^ (L - m) * kraft_sum m lengths.
Proof.
  intros HmL. unfold kraft_sum. induction 1 as [|l lengths Hl _ IH]; simpl; [lia|].
  rewrite IH. replace (L - l) with ((L - m) + (m - l)) by lia.
  rewrite Nat.pow_add_r. lia.
Qed.

(** Two longest codes of equal length can be merged into one code that is
    one bit shorter. *)
Lemma kraft_merge_lengths (L la lb : nat) (lengths : list nat) :
  kraft L (la :: lb :: lengths) -> lb <= la -> Forall (fun l => l <= lb) lengths ->
  1 <= lb /\ kraft L ((lb - 1) :: lengths).
Proof.
  intros [Hle Hsum] Hba Hls.
  apply Forall_cons in Hle as [HaL Hle]. apply Forall_cons in Hle as [HbL Hle].
  unfold kraft_sum in Hsum. simpl in Hsum. fold (kraft_sum L lengths) in Hsum.
  rewrite (kraft_sum_scale L lb) in Hsum by done.
  rewrite (pow2_split L lb) in Hsum by done.
  pose proof (pow2_pos (L - la)) as Ha. pose proof (pow2_pos (L - lb)) as HD.
  set (D := 2 ^ (L - lb)) in *. set (k := kraft_sum lb lengths) in *.
  assert (Hk : k + 1 < 2 ^ lb) by nia.
  assert (Hlb : 1 <= lb).
  { destruct lb; [simpl in Hk; lia|lia]. }
  split; [done|]. split.
  - constructor; [lia|done].
  - unfold kraft_sum. simpl. fold (kraft_sum L lengths).
    rewrite (kraft_sum_scale L lb) by done. fold D k.
    rewrite (pow2_split L lb) by done. fold D.
    replace (L - (lb - 1)) with (S (L - lb)) by lia. simpl. fold D. nia.
Qed.

(** The longest length can be moved to the lightest weight without raising
    the cost. *)
Lemma longest_to_lightest (a : Z) (la : nat) (rest : list (Z * nat)) :
  Forall (fun p => (a <= p.1)%Z) rest ->
  exists la' rest',
    rest'.*1 = rest.*1
    /\ la' :: rest'.*2 ≡ₚ la :: rest.*2
    /\ Forall (fun p => p.2 <= la') rest'
    /\ (a * Z.of_nat la' + weighted_cost rest' <= a * Z.of_nat la + weighted_cost rest)%Z.
Proof.
  induction 1 as [|[w l] rest Hw _ (la1 & rest1 & Hfst & Hperm & Hmax & Hcost)].
  - exists la, []. repeat split; auto. lia.
  - simpl in Hw. destruct (decide (l <= la1)) as [Hle|Hgt].
    + exists la1, ((w, l) :: rest1). csimpl. repeat split.
      * by rewrite Hfst.
      * rewrite perm_swap, Hperm. apply perm_swap.
      * constructor; done.
      * unfold weighted_cost in *. simpl. lia.
    + exists l, ((w, la1) :: rest1). csimpl. repeat split.
      * by rewrite Hfst.
      * rewrite Hperm. apply perm_swap.
      * constructor; [simpl; lia|]. eapply Forall_impl; [exact Hmax|].
        intros p Hp. simpl in *. lia.
      * unfold weighted_cost in *. simpl. nia.
Qed.

(** The step of the optimality argument: in any assignment of lengths that
    satisfies the Kraft inequality, the two lightest weights can be replaced
    by their sum, at a saving of at least that sum. *)
Lemma kraft_merge (L : nat) (a b : Z) (weights : list Z) (wl : list (Z * nat)) :
  (0 <= a)%Z -> (a <= b)%Z -> Forall (fun w => (b <= w)%Z) weights ->
  wl.*1 ≡ₚ a :: b :: weights -> kraft L wl.*2 ->
  exists wl', wl'.*1 ≡ₚ (a + b)%Z :: weights /\ kraft L wl'.*2
              /\ (weighted_cost wl' + a + b <= weighted_cost wl)%Z.
Proof.
  intros Ha Hab Hws Hperm Hkraft.
  destruct (fmap_Permutation_inv fst wl _ Hperm) as (wl0 & Hwl0 & Hfst0).
  destruct wl0 as [|[a' la] [|[b' lb] wr]]; simplify_eq/=.
  rewrite Hwl0 in Hkraft. assert (Hcost0 := sumZ_perm (fun p => (p.1 * Z.of_nat p.2)%Z) _ _ Hwl0).
  fold (weighted_cost wl) in Hcost0. rewrite Hcost0. clear Hcost0 Hwl0 Hperm wl.
  csimpl in Hkraft.
  destruct (longest_to_lightest a la ((b, lb) :: wr)) as (la1 & R1 & Hf1 & Hp1 & Hm1 & Hc1).
  { constructor; [done|]. rewrite Forall_fmap in Hws. eapply Forall_impl; [exact Hws|].
    intros p Hp. simpl in *. lia. }
  destruct R1 as [|[b1 lb1] wr1]; [done|]. csimpl in *.
  injection Hf1 as -> Hf1.
  destruct (longest_to_lightest b lb1 wr1) as (lb2 & wr2 & Hf2 & Hp2 & Hm2 & Hc2).
  { rewrite <- Hf1 in Hws. by rewrite Forall_fmap in Hws. }
  apply Forall_cons in Hm1 as [Hlb1 Hm1]. simpl in Hlb1.
  assert (Hlb2 : lb2 <= la1).
  { assert (Hin : lb2 ∈ lb1 :: wr1.*2) by (rewrite <- Hp2; left).
    apply elem_of_cons in Hin as [->|Hin]; [done|].
    apply list_elem_of_fmap in Hin as (p & -> & Hp).
    rewrite Forall_forall in Hm1. by apply Hm1. }
  assert (Hk : kraft L (la1 :: lb2 :: wr2.*2)).
  { rewrite Hp2. by rewrite Hp1. }
  destruct (kraft_merge_lengths L la1 lb2 wr2.*2 Hk Hlb2) as [Hpos Hk'].
  { by rewrite Forall_fmap. }
  exists (((a + b)%Z, lb2 - 1) :: wr2). csimpl. repeat split.
  - by rewrite Hf2, Hf1.
  - apply Hk'.
  - apply Hk'.
  - unfold weighted_cost in *. simpl in *. nia.
Qed.

End kraft.

(** ** A prefix-free set of binary codes satisfies the Kraft inequality *)

Section prefix_codes.

Lemma elem_of_tails (b : ascii) (t : str) (codes : list str) :
  t ∈ tails b codes <-> (b :: t) ∈ codes.
Proof.
  induction codes as [|[|b' t'] rest IH]; simpl.
  - split; intros H; by apply elem_of_nil in H.
  - rewrite IH, elem_of_cons. split; [auto|]. intros [?|?]; done.
  - destruct (decide (b' = b)) as [->|Hne].
    + rewrite !elem_of_cons, IH. split; intros [H|H]; auto; left; congruence.
    + rewrite IH, elem_of_cons. split; [auto|]. intros [?|?]; [congruence|done].
Qed.

Lemma prefix_free_tails (b : ascii) (codes : list str) :
  prefix_free_list codes -> prefix_free_list (tails b codes).
Proof.
  induction codes as [|[|b' t'] rest IH]; simpl; [done|tauto|].
  intros [Hall Hrest]. destruct (decide (b' = b)) as [->|Hne]; [|auto].
  simpl. split; [|auto]. apply Forall_forall. intros t Ht.
  apply elem_of_tails in Ht. rewrite Forall_forall in Hall.
  destruct (Hall _ Ht) as [H1 H2]. split; intros Hp.
  - apply H1. by apply prefix_cons.
  - apply H2. by apply prefix_cons.
Qed.

Lemma prefix_free_empty (codes : list str) :
  prefix_free_list codes -> [] ∈ codes -> codes = [[]].
Proof.
  destruct codes as [|c rest]; simpl; intros Hpf Hin.
  - by apply elem_of_nil in Hin.
  - destruct Hpf as [Hall Hrest]. apply elem_of_cons in Hin as [<-|Hin].
    + destruct rest as [|c' rest]; [done|].
      rewrite Forall_cons in Hall. destruct Hall as [[H _] _].
      destruct H. apply prefix_nil.
    + rewrite Forall_forall in Hall. destruct (Hall _ Hin) as [_ H].
      destruct H. apply prefix_nil.
Qed.

Lemma kraft_sum_tails (L : nat) (codes : list str) :
  Forall (Forall is_bit) codes -> [] ∉ codes ->
  kraft_sum (S L) (length <$> codes)
  = kraft_sum L (length <$> tails "0"%char codes)
    + kraft_sum L (length <$> tails "1"%char codes).
Proof.
  unfold kraft_sum. induction 1 as [|c codes Hc _ IH]; intros Hne; [done|].
  apply not_elem_of_cons in Hne as [Hc0 Hne]. specialize (IH Hne).
  destruct c as [|b t]; [done|]. apply Forall_cons in Hc as [[-> | ->] _];
    csimpl; rewrite IH; simpl; lia.
Qed.

Lemma tails_bits (b : ascii) (codes : list str) :
  Forall (Forall is_bit) codes -> Forall (Forall is_bit) (tails b codes).
Proof.
  intros H. apply Forall_forall. intros t Ht. apply elem_of_tails in Ht.
  rewrite Forall_forall in H. specialize (H _ Ht). by apply Forall_cons in H as [_ ?].
Qed.

Lemma tails_lengths (b : ascii) (L : nat) (codes : list str) :
  Forall (fun c => length c <= S L) codes ->
  Forall (fun c => length c <= L) (tails b codes).
Proof.
  intros H. apply Forall_forall. intros t Ht. apply elem_of_tails in Ht.
  rewrite Forall_forall in H. specialize (H _ Ht). simpl in H. lia.
Qed.

Lemma kraft_prefix_free (L : nat) (codes : list str) :
  Forall (Forall is_bit) codes -> prefix_free_list codes ->
  Forall (fun c => length c <= L) codes ->
  kraft_sum L (length <$> codes) <= 2 ^ L.
Proof.
  revert codes. induction L as [|L IH]; intros codes Hbits Hpf Hlen.
  - destruct codes as [|c codes]; [simpl; lia|].
    assert (Hc : c = []).
    { apply Forall_cons in Hlen as [Hc _]. destruct c; [done|simpl in Hc; lia]. }
    subst c. rewrite (prefix_free_empty _ Hpf) by left. simpl. lia.
  - destruct (decide ([] ∈ codes)) as [Hin|Hnin].
    + rewrite (prefix_free_empty _ Hpf Hin). unfold kraft_sum. simpl. lia.
    + rewrite kraft_sum_tails by done.
      pose proof (IH (tails "0"%char codes) (tails_bits _ _ Hbits)
                    (prefix_free_tails _ _ Hpf) (tails_lengths _ _ _ Hlen)).
      pose proof (IH (tails "1"%char codes) (tails_bits _ _ Hbits)
                    (prefix_free_tails _ _ Hpf) (tails_lengths _ _ _ Hlen)).
      simpl. lia.
Qed.

Lemma codes_of_prefix_free (frequency_table : dict Z) (encoding_table : dict str) :
  NoDup (dict_keys frequency_table) ->
  binary_prefix_code (dict_keys frequency_table) encoding_table ->
  Forall (Forall is_bit) (codes_of frequency_table encoding_table)
  /\ prefix_free_list (codes_of frequency_table encoding_table).
Proof.
  unfold dict_keys, codes_of.
  induction frequency_table as [|[s f] ft IH]; csimpl; intros Hnd [Hcov Hpf]; [done|].
  apply NoDup_cons in Hnd as [Hs Hnd].
  destruct IH as [IH1 IH2]; [done| |].
  { split; [intros s' Hs'; apply Hcov; by right|].
    intros s1 s2 c1 c2 H1 H2. apply Hpf; by right. }
  destruct (Hcov s) as (c & Hc & Hcb); [left|]. rewrite Hc. simpl.
  split; [by constructor|]. split; [|done].
  apply Forall_fmap, Forall_forall. intros [s' f'] Hin. simpl.
  assert (Hs' : s' ∈ ft.*1) by (apply list_elem_of_fmap; by exists (s', f')).
  destruct (Hcov s') as (c' & Hc' & _); [by right|]. rewrite Hc'. simpl.
  assert (s <> s') by (intros ->; done).
  split.
  - apply (Hpf s s'); auto; [left|by right].
  - apply (Hpf s' s); auto; [by right|left].
Qed.

End prefix_codes.

(** ** The bits a Huffman table spends *)

Lemma dict_get_app {V} (d1 d2 : dict V) (k : pyval) :
  dict_get k (d1 ++ d2) =
    match dict_get k d1 with Some v => Some v | None => dict_get k d2 end.
Proof.
  induction d1 as [|[k' v'] d1 IH]; simpl; [done|].
  destruct (decide (k' = k)); done.
Qed.

Lemma dict_get_fmap {V W} (g : V -> W) (d : dict V) (k : pyval) :
  dict_get k ((fun kv => (kv.1, g kv.2)) <$> d) = g <$> dict_get k d.
Proof.
  induction d as [|[k' v'] d IH]; csimpl; [done|].
  destruct (decide (k' = k)); done.
Qed.

Lemma shape_freq_sum (node : HuffmanNode) :
  huffman_shape node -> sumZ snd (symbols node) = freq node.
Proof.
  induction 1 as [c f Hf|l r Hl IHl Hr IHr]; simpl; [lia|].
  rewrite sumZ_app. lia.
Qed.

Lemma total_bits_app (ft1 ft2 : dict Z) (encoding_table : dict str) :
  total_bits (ft1 ++ ft2) encoding_table
  = (total_bits ft1 encoding_table + total_bits ft2 encoding_table)%Z.
Proof. apply sumZ_app. Qed.

(** Below one more branch every code is one bit longer. *)
Lemma total_bits_deeper (b : ascii) (ft : dict Z) (paths before after : dict str) :
  (forall s, s ∈ dict_keys ft -> (s ∉ dict_keys before) /\ (s ∈ dict_keys paths)) ->
  total_bits ft (before ++ ((fun cp => (cp.1, b :: cp.2)) <$> paths) ++ after)
  = (sumZ snd ft + total_bits ft paths)%Z.
Proof.
  intros Hkeys. unfold total_bits. rewrite <- sumZ_plus. apply sumZ_ext.
  intros [s f] Hin. simpl.
  destruct (Hkeys s) as [Hbefore Hpaths].
  { apply list_elem_of_fmap. by exists (s, f). }
  unfold code_length. rewrite !dict_get_app, dict_get_fmap.
  apply dict_get_None in Hbefore. rewrite Hbefore.
  apply dict_get_is_Some in Hpaths as [p Hp]. rewrite Hp. simpl. lia.
Qed.

Lemma total_bits_shape (node : HuffmanNode) :
  huffman_shape node -> NoDup (symbols node).*1 ->
  total_bits (symbols node) (leaf_paths node) = internal_sum node.
Proof.
  induction 1 as [c f Hf|l r Hl IHl Hr IHr]; intros Hnd.
  - unfold total_bits, code_length. simpl. rewrite decide_True by done. simpl. lia.
  - cbn [symbols leaf_paths internal_sum app] in Hnd |- *. rewrite fmap_app in Hnd.
    apply NoDup_app in Hnd as (Hndl & Hdisj & Hndr).
    rewrite total_bits_app.
    rewrite <- (app_nil_l (_ ++ _)) at 1.
    rewrite (total_bits_deeper "0"%char (symbols l) (leaf_paths l) []).
    2:{ intros s Hs. split; [apply not_elem_of_nil|].
        unfold dict_keys. by rewrite leaf_paths_symbols. }
    rewrite <- (app_nil_r (_ ++ _)), <- app_assoc.
    rewrite (total_bits_deeper "1"%char (symbols r) (leaf_paths r) _ []).
    2:{ intros s Hs. unfold dict_keys. rewrite <- list_fmap_compose.
        change (fst ∘ _) with (@fst pyval str).
        rewrite !leaf_paths_symbols by done. split; [|done].
        intros Hsl. by apply (Hdisj s). }
    rewrite !shape_freq_sum, IHl, IHr by done. lia.
Qed.

#[global] Instance total_bits_perm :
  Proper (Permutation ==> eq ==> eq) total_bits.
Proof. intros ft1 ft2 H t1 t2 ->. unfold total_bits. by rewrite H. Qed.

(** ** The merge loop builds a tree of least cost *)

Lemma push_leaves_ordered (items : dict Z) (heap heap' : list HuffmanNode) :
  heap_ordered freq heap -> push_leaves items heap = Some heap' ->
  heap_ordered freq heap'.
Proof.
  revert heap. induction items as [|[c f] items IH]; intros heap Hord; simpl.
  - by intros [= <-].
  - destruct (heapq.heappush node_lt heap _) as [heap1|] eqn:Hpush; [|done]. simpl.
    apply IH. eapply (heappush_ordered freq); eauto.
Qed.

Lemma weighted_cost_nonneg (wl : list (Z * nat)) :
  Forall (fun w => (0 <= w)%Z) wl.*1 -> (0 <= weighted_cost wl)%Z.
Proof.
  unfold weighted_cost. induction wl as [|[w l] wl IH]; csimpl; intros H; [lia|].
  apply Forall_cons in H as [Hw H]. specialize (IH H). nia.
Qed.

Lemma merge_loop_lower_bound (fuel : nat) (heap heap' : list HuffmanNode) :
  merge_loop fuel heap = Some heap' ->
  heap_ordered freq heap -> Forall (fun n => (0 <= freq n)%Z) heap ->
  forall L wl, wl.*1 ≡ₚ freq <$> heap -> kraft L wl.*2 ->
    (sumZ internal_sum heap' <= weighted_cost wl + sumZ internal_sum heap)%Z.
Proof.
  revert heap. induction fuel as [|fuel IH]; intros heap Hrun Hord Hpos L wl Hw Hk.
  - destruct (decide (1 < length heap)) as [Hgt|Hle].
    + simpl in Hrun. by rewrite decide_True in Hrun.
    + rewrite merge_loop_exit in Hrun by done. injection Hrun as <-.
      assert (0 <= weighted_cost wl)%Z; [|lia].
      apply weighted_cost_nonneg. rewrite Hw. by apply Forall_fmap.
  - destruct (decide (1 < length heap)) as [Hgt|Hle].
    2:{ rewrite merge_loop_exit in Hrun by done. injection Hrun as <-.
        assert (0 <= weighted_cost wl)%Z; [|lia].
        apply weighted_cost_nonneg. rewrite Hw. by apply Forall_fmap. }
    destruct (merge_loop_step fuel heap Hgt)
      as (n1 & heap1 & n2 & heap2 & heap3 & Hpop1 & Hpop2 & Hpush & H1 & H2 & H3 & Heq).
    rewrite Heq in Hrun.
    destruct (heappop_ordered freq heap n1 heap1 Hord Hpop1) as [Hord1 Hmin1].
    destruct (heappop_ordered freq heap1 n2 heap2 Hord1 Hpop2) as [Hord2 Hmin2].
    pose proof (heappush_ordered freq heap2 _ heap3 Hord2 Hpush) as Hord3.
    assert (Hheap : heap ≡ₚ n1 :: n2 :: heap2) by (by rewrite H1, H2).
    rewrite Hheap in Hpos. apply Forall_cons in Hpos as [Hp1 Hpos].
    apply Forall_cons in Hpos as [Hp2 Hpos].
    destruct (kraft_merge L (freq n1) (freq n2) (freq <$> heap2) wl) as (wl' & Hw' & Hk' & Hcost).
    + done.
    + apply Hmin1. rewrite H1, H2. right. left.
    + apply Forall_fmap, Forall_forall. intros n Hn. simpl.
      apply Hmin2. rewrite H2. by right.
    + rewrite Hw, Hheap. done.
    + done.
    + specialize (IH heap3 Hrun Hord3).
      assert (Hpos3 : Forall (fun n => (0 <= freq n)%Z) heap3).
      { rewrite H3. constructor; [simpl; lia|done]. }
      assert (Hw3 : wl'.*1 ≡ₚ freq <$> heap3) by (by rewrite H3).
      specialize (IH Hpos3 L wl' Hw3 Hk').
      assert (Hs3 : sumZ internal_sum heap3
                    = sumZ internal_sum (merge_nodes n1 n2 :: heap2)) by (by rewrite H3).
      assert (Hs : sumZ internal_sum heap = sumZ internal_sum (n1 :: n2 :: heap2))
        by (by rewrite Hheap).
      rewrite Hs. rewrite Hs3 in IH. simpl in *. lia.
Qed.

Lemma build_huffman_tree_run (frequency_table : dict Z) (printed : list str)
    (root : HuffmanNode) :
  build_huffman_tree frequency_table = Some (printed, Some root) ->
  exists heap, push_leaves frequency_table [] = Some heap
               /\ merge_loop (length heap) heap = Some [root].
Proof.
  unfold build_huffman_tree.
  destruct (push_leaves frequency_table []) as [heap|] eqn:Hpush; [|done]. simpl.
  destruct (merge_loop_invariant (fun _ => True)) with (fuel := length heap) (heap := heap)
    as (heap' & Hloop & _ & Hlen); auto; [lia|].
  rewrite Hloop. simpl. destruct heap' as [|root' [|]]; try done.
  - intros [= _ <-]. eauto.
  - cbn [length] in Hlen. lia.
Qed.

(** C8. For a frequency table with at least two symbols, the table built
    from its Huffman tree is a prefix-free binary code for the symbols, and
    it spends no more bits (the sum of frequency times code length) than any
    other prefix-free binary code for them. *)
Theorem huffman_code_optimal (frequency_table : dict Z) (other : dict str) :
  frequency_table_ok frequency_table -> 2 <= length frequency_table ->
  binary_prefix_code (dict_keys frequency_table) other ->
  exists root,
    build_huffman_tree frequency_table = Some ([], Some root)
    /\ binary_prefix_code (dict_keys frequency_table) (build_encoding_table (Some root))
    /\ (total_bits frequency_table (build_encoding_table (Some root))
        <= total_bits frequency_table other)%Z.
Proof.
  intros Hok Hlen Hother.
  destruct (encoding_table_spec frequency_table)
    as (root & Hroot & Hshape & Hsym & Htbl & Hkeys);
    [intros ->; simpl in Hlen; lia|done|].
  destruct Hok as [Hnd Hpos].
  exists root. split; [done|]. rewrite Htbl. split.
  - split.
    + intros s Hs. rewrite <- Hkeys in Hs. apply dict_get_is_Some in Hs as [c Hc].
      exists c. split; [done|]. apply dict_get_Some_elem in Hc.
      pose proof (leaf_paths_bits root Hshape) as Hb. rewrite Forall_forall in Hb.
      exact (Hb _ Hc).
    + intros s1 s2 c1 c2 _ _ Hne H1 H2 Hpre.
      apply dict_get_Some_elem in H1, H2.
      assert ((s1, c1) = (s2, c2)) by (eapply leaf_paths_prefix; eauto).
      congruence.
  - destruct (build_huffman_tree_run _ _ _ Hroot) as (heap & Hpush & Hloop).
    destruct (push_leaves_elements frequency_table []) as (heap0 & Hpush0 & Hheap).
    rewrite Hpush in Hpush0. injection Hpush0 as <-. rewrite app_nil_r in Hheap.
    destruct (codes_of_prefix_free frequency_table other Hnd Hother) as [Hbits Hpf].
    set (wl := (fun kv : pyval * Z =>
                  (kv.2, length (default [] (dict_get kv.1 other)))) <$> frequency_table).
    set (L := sum_list_with length (codes_of frequency_table other)).
    assert (Hbound : merge_loop (length heap) heap = Some [root] ->
              (sumZ internal_sum [root] <= weighted_cost wl + sumZ internal_sum heap)%Z).
    { intros Hrun. eapply (merge_loop_lower_bound _ _ _ Hrun) with (L := L).
      - eapply push_leaves_ordered; [|exact Hpush]. apply heap_ordered_nil.
      - rewrite Hheap. apply Forall_fmap. eapply Forall_impl; [exact Hpos|].
        intros [c f] Hf. simpl in *. lia.
      - rewrite Hheap. unfold wl. rewrite <- !list_fmap_compose. done.
      - unfold wl. rewrite <- list_fmap_compose.
        change (snd ∘ _) with (length ∘ (fun kv : pyval * Z => default [] (dict_get kv.1 other))).
        rewrite list_fmap_compose. fold (codes_of frequency_table other). split.
        + apply Forall_fmap, Forall_forall. intros c Hc. simpl.
          by apply sum_list_with_in.
        + apply kraft_prefix_free; [done|done|].
          apply Forall_forall. intros c Hc. by apply sum_list_with_in. }
    specialize (Hbound Hloop).
    assert (Hleaves : sumZ internal_sum heap = 0%Z).
    { rewrite Hheap. clear. induction frequency_table as [|[c f] ft IH]; csimpl; [done|].
      by rewrite IH. }
    assert (Hcost : weighted_cost wl = total_bits frequency_table other).
    { unfold weighted_cost, wl, total_bits, code_length. by rewrite sumZ_fmap. }
    rewrite <- Hsym at 1. rewrite total_bits_shape; [|done|by rewrite Hsym].
    simpl in Hbound. lia.
Qed.

Lemma fixed_length_table_prefix_code :
  binary_prefix_code [PInt 97; PInt 98; PInt 99] fixed_length_table.
Proof.
  split.
  - intros s Hs. repeat (apply elem_of_cons in Hs as [->|Hs]);
      [..|by apply elem_of_nil in Hs];
      eexists; (split; [reflexivity|]); repeat constructor; by ((by left) || (by right)).
  - intros s1 s2 c1 c2 H1 H2 Hne Hc1 Hc2 [k Hk].
    repeat (apply elem_of_cons in H1 as [->|H1]); [..|by apply elem_of_nil in H1];
      repeat (apply elem_of_cons in H2 as [->|H2]); try (by apply elem_of_nil in H2);
      try done; vm_compute in Hc1, Hc2; simplify_eq.
Defined.

Lemma huffman_code_optimal_witness :
  exists root,
    build_huffman_tree (build_frequency_table (iter_bytes (list_byte_of_string "aaabbc")))
      = Some ([], Some root)
    /\ binary_prefix_code
         (dict_keys (build_frequency_table (iter_bytes (list_byte_of_string "aaabbc"))))
         (build_encoding_table (Some root))
    /\ (total_bits (build_frequency_table (iter_bytes (list_byte_of_string "aaabbc")))
          (build_encoding_table (Some root))
        <= total_bits (build_frequency_table (iter_bytes (list_byte_of_string "aaabbc")))
             fixed_length_table)%Z.
Proof.
  apply (huffman_code_optimal
           (build_frequency_table (iter_bytes (list_byte_of_string "aaabbc")))
           fixed_length_table).
  - apply build_frequency_table_ok.
  - vm_compute. lia.
  - exact fixed_length_table_prefix_code.
Defined.

(** ** What the [-d] option writes *)


(** ** Decoding with the table read from code to symbol *)

Section decoding.
Context (text : pyval -> str) (root : HuffmanNode).
Hypothesis Hshape : huffman_shape root.

Lemma inverted_lookup_Some (code : str) (v : str) :
  dict_get (PStr code) (inverted_table text (leaf_paths root)) = Some v ->
  exists s, (s, code) ∈ leaf_paths root /\ v = text s.
Proof.
  intros H. apply dict_get_Some_elem in H.
  apply list_elem_of_fmap in H as ([s c] & Heq & Hin). simpl in Heq.
  injection Heq as -> ->. eauto.
Qed.

Lemma inverted_lookup_code (s : pyval) (code : str) :
  (s, code) ∈ leaf_paths root ->
  dict_get (PStr code) (inverted_table text (leaf_paths root)) = Some (text s).
Proof.
  intros Hin.
  destruct (dict_get (PStr code) (inverted_table text (leaf_paths root))) as [v|] eqn:E.
  - apply inverted_lookup_Some in E as (s' & Hin' & ->).
    assert ((s', code) = (s, code)) as Heq by (eapply leaf_paths_prefix; eauto).
    congruence.
  - apply dict_get_None in E. destruct E. unfold dict_keys, inverted_table.
    rewrite <- list_fmap_compose. apply list_elem_of_fmap. by exists (s, code).
Qed.

Lemma inverted_lookup_prefix (s : pyval) (pre post : str) :
  (s, pre ++ post) ∈ leaf_paths root -> post <> [] ->
  dict_get (PStr pre) (inverted_table text (leaf_paths root)) = None.
Proof.
  intros Hin Hpost.
  destruct (dict_get (PStr pre) (inverted_table text (leaf_paths root))) as [v|] eqn:E;
    [|done].
  apply inverted_lookup_Some in E as (s' & Hin' & ->).
  assert ((s', pre) = (s, pre ++ post)) as Heq.
  { eapply leaf_paths_prefix; eauto. by exists post. }
  injection Heq as _ Heq. rewrite <- (app_nil_r pre) in Heq at 1.
  apply app_inv_head in Heq. congruence.
Qed.

Lemma leaf_paths_nonempty :
  2 <= length (leaf_paths root) -> forall e, e ∈ leaf_paths root -> e.2 <> [].
Proof.
  destruct Hshape as [c f Hf|l r Hl Hr]; simpl; [lia|].
  intros _ e He. apply elem_of_app in He as [He|He];
    apply list_elem_of_fmap in He as (e' & -> & _); done.
Qed.

(** Walking the bits of one code emits its symbol and empties the
    candidate. *)
Lemma decode_one_code (s : pyval) (pre post rest decoded : str) :
  (s, pre ++ post) ∈ leaf_paths root -> post <> [] ->
  fold_left (decode_step (inverted_table text (leaf_paths root))) (post ++ rest)
    (pre, decoded)
  = fold_left (decode_step (inverted_table text (leaf_paths root))) rest
      ([], decoded ++ text s).
Proof.
  revert pre. induction post as [|bit post IH]; intros pre Hin Hpost; [done|].
  simpl. destruct post as [|bit' post].
  - rewrite (inverted_lookup_code s) by done. done.
  - rewrite (inverted_lookup_prefix s _ (bit' :: post)); [|by rewrite <- app_assoc|done].
    apply IH; [by rewrite <- app_assoc|done].
Qed.

Lemma decode_codes (data : list pyval) (encoded_data decoded : str) :
  2 <= length (leaf_paths root) ->
  join_codes (leaf_paths root) data = Some encoded_data ->
  forall rest,
    fold_left (decode_step (inverted_table text (leaf_paths root)))
      (encoded_data ++ rest) ([], decoded)
    = fold_left (decode_step (inverted_table text (leaf_paths root))) rest
        ([], decoded ++ concat (text <$> data)).
Proof.
  intros Htwo. unfold join_codes.
  destruct (mapM _ data) as [codes|] eqn:E; [|done]. simpl. intros [= <-].
  apply mapM_Some_1 in E. revert decoded.
  induction E as [|s code data codes Hs _ IH]; intros decoded rest; simpl.
  - by rewrite app_nil_r.
  - apply dict_get_Some_elem in Hs.
    assert (Hne : code <> []) by (by apply (leaf_paths_nonempty Htwo (s, code))).
    rewrite <- app_assoc.
    rewrite (decode_one_code s [] code) by done.
    rewrite IH. by rewrite <- app_assoc.
Qed.

End decoding.

(** X1. With the table of the compressor read from code to symbol, the loop
    of [decompress_file] gives back the text of every symbol of the input,
    for an input with at least two distinct byte values. *)
Theorem decode_with_inverted_table (text : pyval -> str) (data : bytes) :
  2 <= length (build_frequency_table (iter_bytes data)) ->
  exists printed huffman_tree written,
    build_huffman_tree (build_frequency_table (iter_bytes data)) = Some (printed, huffman_tree)
    /\ compress_data data = Some (printed, written)
    /\ decompress_data written (inverted_table text (build_encoding_table huffman_tree))
       = concat (text <$> iter_bytes data).
Proof.
  intros Htwo.
  destruct (compress_data_spec data)
    as (printed & tree & encoded & payload & header
        & Htree & Hjoin & _ & _ & Hexp & _ & Hval & Hcomp).
  assert (Hbits : walked_bits (header :: payload) = encoded).
  { eapply walked_bits_padded; eauto. unfold padding_of. lia. }
  destruct (encoding_table_spec (build_frequency_table (iter_bytes data)))
    as (root & Hroot & Hshape & _ & Htbl & Hkeys).
  { intros Heq. rewrite Heq in Htwo. simpl in Htwo. lia. }
  { apply build_frequency_table_ok. }
  rewrite Hroot in Htree. injection Htree as <- <-.
  exists [], (Some root), (header :: payload). repeat split; auto.
  unfold decompress_data, decode_loop. rewrite Hbits, Htbl.
  rewrite Htbl in Hjoin.
  rewrite <- (app_nil_r encoded).
  rewrite (decode_codes text root Hshape (iter_bytes data) encoded []); [done| |done].
  apply Permutation_length in Hkeys. unfold dict_keys in Hkeys.
  rewrite !length_fmap in Hkeys. lia.
Qed.

Lemma decode_with_inverted_table_witness :
  exists printed huffman_tree written,
    build_huffman_tree (build_frequency_table (iter_bytes (list_byte_of_string "aaabbc")))
      = Some (printed, huffman_tree)
    /\ compress_data (list_byte_of_string "aaabbc") = Some (printed, written)
    /\ decompress_data written (inverted_table chr (build_encoding_table huffman_tree))
       = concat (chr <$> iter_bytes (list_byte_of_string "aaabbc")).
Proof.
  apply (decode_with_inverted_table chr (list_byte_of_string "aaabbc")).
  vm_compute. lia.
Defined.

(** ** The counts of the frequency table *)

Lemma count_fold_get (data : list pyval) (d : dict Z) (symbol : pyval) :
  default 0%Z (dict_get symbol (fold_left count_step data d))
  = (default 0%Z (dict_get symbol d) + occurrences symbol data)%Z.
Proof.
  unfold occurrences. revert d. induction data as [|c data IH]; intros d; simpl.
  - lia.
  - rewrite IH. unfold count_step at 1. rewrite dict_get_set.
    rewrite filter_cons. destruct (decide (c = symbol)) as [->|Hne]; simpl; lia.
Qed.

(** X2. [build_frequency_table] maps every symbol of the input to the
    number of its occurrences, and has no other key. *)
Theorem build_frequency_table_counts (data : list pyval) (symbol : pyval) :
  dict_get symbol (build_frequency_table data)
  = if decide (symbol ∈ data) then Some (occurrences symbol data) else None.
Proof.
  pose proof (count_fold_get data [] symbol) as Hget.
  rewrite <- build_frequency_table_fold in Hget. simpl in Hget.
  destruct (decide (symbol ∈ data)) as [Hin|Hnin].
  - apply build_frequency_table_keys, dict_get_is_Some in Hin as [n Hn].
    rewrite Hn in Hget |- *. simpl in Hget. by rewrite Hget.
  - apply dict_get_None. by rewrite build_frequency_table_keys.
Qed.


(** ** The weight of the root and the length of the encoded bits *)

Lemma count_step_weighted (g : pyval -> Z) (d : dict Z) (c : pyval) :
  sumZ (fun kv => (kv.2 * g kv.1)%Z) (count_step d c)
  = (sumZ (fun kv => (kv.2 * g kv.1)%Z) d + g c)%Z.
Proof.
  unfold count_step. induction d as [|[k v] d IH]; simpl.
  - lia.
  - destruct (decide (k = c)) as [->|Hne]; simpl; [lia|]. rewrite IH. lia.
Qed.

Lemma count_fold_weighted (g : pyval -> Z) (data : list pyval) (d : dict Z) :
  sumZ (fun kv => (kv.2 * g kv.1)%Z) (fold_left count_step data d)
  = (sumZ (fun kv => (kv.2 * g kv.1)%Z) d + sumZ g data)%Z.
Proof.
  revert d. induction data as [|c data IH]; intros d; simpl; [lia|].
  rewrite IH, count_step_weighted. lia.
Qed.

(** Summing over the table, each symbol weighted by its count, is summing
    over the input. *)
Lemma build_frequency_table_weighted (g : pyval -> Z) (data : list pyval) :
  sumZ (fun kv => (kv.2 * g kv.1)%Z) (build_frequency_table data) = sumZ g data.
Proof. rewrite build_frequency_table_fold, count_fold_weighted. simpl. lia. Qed.

Lemma sumZ_const_one {X} (l : list X) : sumZ (fun _ => 1%Z) l = Z.of_nat (length l).
Proof. induction l as [|x l IH]; simpl; lia. Qed.

Lemma build_frequency_table_total (data : list pyval) :
  sumZ snd (build_frequency_table data) = Z.of_nat (length data).
Proof.
  rewrite <- sumZ_const_one, <- (build_frequency_table_weighted (fun _ => 1%Z)).
  apply sumZ_ext. intros [c f] _. simpl. lia.
Qed.

(** X4. The frequency at the root of the tree is the length of the input:
    the counts of all symbols add up in the merges. *)
Theorem root_frequency_is_input_length (data : list pyval) :
  data <> [] ->
  exists root,
    build_huffman_tree (build_frequency_table data) = Some ([], Some root)
    /\ freq root = Z.of_nat (length data).
Proof.
  intros Hne.
  destruct (encoding_table_spec (build_frequency_table data))
    as (root & Hroot & Hshape & Hsym & _).
  { by apply build_frequency_table_nonempty. }
  { apply build_frequency_table_ok. }
  exists root. split; [done|].
  rewrite <- (shape_freq_sum root Hshape), Hsym. apply build_frequency_table_total.
Qed.

Lemma root_frequency_is_input_length_witness :
  exists root,
    build_huffman_tree (build_frequency_table (iter_bytes (list_byte_of_string "aaabbc")))
      = Some ([], Some root)
    /\ freq root = Z.of_nat (length (iter_bytes (list_byte_of_string "aaabbc"))).
Proof.
  apply (root_frequency_is_input_length (iter_bytes (list_byte_of_string "aaabbc"))).
  discriminate.
Defined.

Lemma join_codes_length (encoding_table : dict str) (data : list pyval) (encoded_data : str) :
  join_codes encoding_table data = Some encoded_data ->
  Z.of_nat (length encoded_data) = sumZ (code_length encoding_table) data.
Proof.
  unfold join_codes. destruct (mapM _ data) as [codes|] eqn:E; [|done].
  simpl. intros [= <-]. apply mapM_Some_1 in E.
  induction E as [|c code data codes Hc _ IH]; simpl; [done|].
  rewrite length_app, Nat2Z.inj_add, IH. unfold code_length at 2. by rewrite Hc.
Qed.

Lemma format_08b_length (b : byte) : length (format_08b (byte_value b)) = 8.
Proof. destruct b; reflexivity. Qed.

Lemma expand_payload_length (payload : bytes) :
  length (expand_payload payload) = 8 * length payload.
Proof.
  unfold expand_payload. induction payload as [|b payload IH]; [done|].
  rewrite fmap_cons. cbn [concat]. rewrite length_app, format_08b_length, IH.
  cbn [length]. lia.
Qed.

(** The values [compress_file] goes through, with the length of the bits
    and of the bytes written. *)
Lemma compress_data_size (data : bytes) :
  exists printed huffman_tree encoded_data written,
    build_huffman_tree (build_frequency_table (iter_bytes data)) = Some (printed, huffman_tree)
    /\ join_codes (build_encoding_table huffman_tree) (iter_bytes data) = Some encoded_data
    /\ compress_data data = Some (printed, written)
    /\ Z.of_nat (length encoded_data)
       = total_bits (build_frequency_table (iter_bytes data))
           (build_encoding_table huffman_tree)
    /\ length written = 2 + length encoded_data / 8.
Proof.
  destruct (compress_data_spec data)
    as (printed & tree & encoded & byte_array & header
        & Htree & Hjoin & _ & _ & Hexp & _ & _ & Hcomp).
  exists printed, tree, encoded, (header :: byte_array). repeat split; auto.
  - rewrite (join_codes_length _ _ _ Hjoin). unfold total_bits.
    by rewrite build_frequency_table_weighted.
  - apply (f_equal length) in Hexp.
    rewrite expand_payload_length, length_app, length_replicate in Hexp.
    unfold padding_of in Hexp. cbn [length]. lia.
Qed.

(** X5. The encoded bit-string has one bit per unit of frequency times code
    length, summed over the table, and the file written has two bytes more
    than an eighth of these bits, rounded down: the header byte, and a last
    byte that is padded, or all padding. *)
Theorem compressed_size (data : bytes) :
  exists printed huffman_tree written,
    build_huffman_tree (build_frequency_table (iter_bytes data)) = Some (printed, huffman_tree)
    /\ compress_data data = Some (printed, written)
    /\ Z.of_nat (length written)
       = (2 + total_bits (build_frequency_table (iter_bytes data))
                (build_encoding_table huffman_tree) / 8)%Z.
Proof.
  destruct (compress_data_size data)
    as (printed & tree & encoded & written & Htree & _ & Hcomp & Hbits & Hlen).
  exists printed, tree, written. repeat split; auto.
  rewrite <- Hbits, Hlen. lia.
Qed.

(** ** The table of a tree: keys, digits, lengths *)

Lemma leaf_paths_length (node : HuffmanNode) :
  huffman_shape node -> length (leaf_paths node) = leaf_count node.
Proof.
  intros H. destruct (shape_counts node H) as [-> _].
  rewrite <- (length_fmap fst), leaf_paths_symbols by done. by rewrite length_fmap.
Qed.

Lemma leaf_paths_depth (node : HuffmanNode) :
  huffman_shape node ->
  Forall (fun cp => length cp.2 <= leaf_count node - 1) (leaf_paths node).
Proof.
  induction 1 as [c f Hf|l r Hl IHl Hr IHr]; simpl.
  - repeat constructor.
  - pose proof (shape_counts l Hl) as [_ Hcl]. pose proof (shape_counts r Hr) as [_ Hcr].
    apply Forall_app. split; apply Forall_fmap; (eapply Forall_impl; [eassumption|]);
      intros [c p] Hp; simpl in *; lia.
Qed.

Lemma leaf_paths_first_bit (node : HuffmanNode) :
  huffman_shape node -> 2 <= leaf_count node ->
  Forall (fun cp => 1 <= length cp.2) (leaf_paths node).
Proof.
  destruct 1 as [c f Hf|l r Hl Hr]; simpl; [lia|]. intros _.
  apply Forall_app. split; apply Forall_fmap, Forall_forall; intros [c p] _; simpl; lia.
Qed.

(** X6. For a frequency table with k >= 2 symbols, the code table has
    exactly the symbols of the frequency table as keys, once each, and every
    code is a string of binary digits of length 1 to k - 1. *)
Theorem encoding_table_keys_and_lengths (frequency_table : dict Z) :
  frequency_table_ok frequency_table -> 2 <= length frequency_table ->
  exists root,
    build_huffman_tree frequency_table = Some ([], Some root)
    /\ dict_keys (build_encoding_table (Some root)) ≡ₚ dict_keys frequency_table
    /\ NoDup (dict_keys (build_encoding_table (Some root)))
    /\ forall s c, dict_get s (build_encoding_table (Some root)) = Some c ->
         Forall is_bit c /\ 1 <= length c <= length frequency_table - 1.
Proof.
  intros Hok Hlen.
  destruct (encoding_table_spec frequency_table)
    as (root & Hroot & Hshape & Hsym & Htbl & Hkeys);
    [intros ->; simpl in Hlen; lia|done|].
  assert (Hcount : leaf_count root = length frequency_table).
  { destruct (shape_counts root Hshape) as [-> _]. by rewrite Hsym. }
  exists root. rewrite Htbl. repeat split; auto.
  - rewrite Hkeys. apply Hok.
  - apply dict_get_Some_elem in H.
    pose proof (leaf_paths_bits root Hshape) as Hb. rewrite Forall_forall in Hb.
    exact (Hb _ H).
  - apply dict_get_Some_elem in H.
    pose proof (leaf_paths_first_bit root Hshape) as Hb. rewrite Forall_forall in Hb.
    apply (Hb ltac:(lia) _ H).
  - apply dict_get_Some_elem in H.
    pose proof (leaf_paths_depth root Hshape) as Hb. rewrite Forall_forall in Hb.
    rewrite <- Hcount. exact (Hb _ H).
Qed.

Lemma encoding_table_keys_and_lengths_witness :
  exists root,
    build_huffman_tree (build_frequency_table (iter_bytes (list_byte_of_string "aaabbc")))
      = Some ([], Some root)
    /\ dict_keys (build_encoding_table (Some root))
       ≡ₚ dict_keys (build_frequency_table (iter_bytes (list_byte_of_string "aaabbc")))
    /\ NoDup (dict_keys (build_encoding_table (Some root)))
    /\ forall s c, dict_get s (build_encoding_table (Some root)) = Some c ->
         Forall is_bit c
         /\ 1 <= length c
            <= length (build_frequency_table (iter_bytes (list_byte_of_string "aaabbc"))) - 1.
Proof.
  apply (encoding_table_keys_and_lengths
           (build_frequency_table (iter_bytes (list_byte_of_string "aaabbc")))).
  - apply build_frequency_table_ok.
  - vm_compute. lia.
Defined.

(** ** No assignment of code lengths costs less *)

(** The bits the table of the tree spends are a lower bound for every
    assignment of lengths to the frequencies that satisfies the Kraft
    inequality. *)
Lemma huffman_cost_least (frequency_table : dict Z) (root : HuffmanNode) :
  frequency_table_ok frequency_table ->
  build_huffman_tree frequency_table = Some ([], Some root) ->
  forall L wl, wl.*1 ≡ₚ frequency_table.*2 -> kraft L wl.*2 ->
    (total_bits frequency_table (leaf_paths root) <= weighted_cost wl)%Z.
Proof.
  intros [Hnd Hpos] Hroot L wl Hw Hk.
  assert (Hne : frequency_table <> []).
  { intros ->. vm_compute in Hroot. done. }
  destruct (build_huffman_tree_spec frequency_table Hne Hpos)
    as (root' & Hroot' & Hshape & Hsym).
  rewrite Hroot in Hroot'. injection Hroot' as <-.
  destruct (build_huffman_tree_run _ _ _ Hroot) as (heap & Hpush & Hloop).
  destruct (push_leaves_elements frequency_table []) as (heap0 & Hpush0 & Hheap).
  rewrite Hpush in Hpush0. injection Hpush0 as <-. rewrite app_nil_r in Hheap.
  assert (Hbound : (sumZ internal_sum [root] <= weighted_cost wl + sumZ internal_sum heap)%Z).
  { eapply (merge_loop_lower_bound _ _ _ Hloop) with (L := L).
    - eapply push_leaves_ordered; [|exact Hpush]. apply heap_ordered_nil.
    - rewrite Hheap. apply Forall_fmap. eapply Forall_impl; [exact Hpos|].
      intros [c f] Hf. simpl in *. lia.
    - rewrite Hheap, Hw, <- list_fmap_compose. done.
    - done. }
  assert (Hleaves : sumZ internal_sum heap = 0%Z).
  { rewrite Hheap. clear. induction frequency_table as [|[c f] ft IH]; csimpl; [done|].
    by rewrite IH. }
  rewrite <- Hsym at 1. rewrite total_bits_shape; [|done|by rewrite Hsym].
  simpl in Hbound. lia.
Qed.

Lemma weighted_cost_const (l : nat) (frequency_table : dict Z) :
  weighted_cost ((fun kv => (kv.2, l)) <$> frequency_table)
  = (Z.of_nat l * sumZ snd frequency_table)%Z.
Proof.
  unfold weighted_cost. rewrite sumZ_fmap.
  induction frequency_table as [|[c f] ft IH]; simpl in *; lia.
Qed.

Lemma kraft_sum_replicate (L l k : nat) :
  kraft_sum L (replicate k l) = k * 2 ^ (L - l).
Proof. unfold kraft_sum. induction k as [|k IH]; simpl; lia. Qed.

(** At most 256 distinct byte values. *)
Lemma byte_keys_bound (keys : list pyval) :
  NoDup keys -> Forall (fun k => exists b, k = PInt (byte_value b)) keys ->
  length keys <= 256.
Proof.
  intros Hnd Hall.
  set (index := fun k => match k with PInt n => Z.to_nat n | PStr _ => 0 end).
  assert (Hnd' : NoDup (index <$> keys)).
  { apply NoDup_fmap_2_strong; [|done]. intros x y Hx Hy Heq.
    rewrite Forall_forall in Hall.
    destruct (Hall _ Hx) as [bx ->], (Hall _ Hy) as [by' ->].
    unfold index, byte_value in Heq. f_equal. unfold byte_value. lia. }
  assert (Hsub : index <$> keys ⊆ seq 0 256).
  { intros i Hi. apply list_elem_of_fmap in Hi as (k & -> & Hk).
    rewrite Forall_forall in Hall. destruct (Hall _ Hk) as [b ->].
    apply elem_of_seq. unfold index, byte_value.
    pose proof (Byte.to_N_bounded b). lia. }
  apply NoDup_submseteq in Hsub; [|done]. apply submseteq_length in Hsub.
  rewrite length_fmap, length_seq in Hsub. done.
Qed.

(** X7. The file [compress_file] writes is never more than two bytes longer
    than the data it compresses: eight-bit codes satisfy the Kraft
    inequality for up to 256 byte values, so the Huffman table spends at
    most eight bits per input byte. *)
Theorem compressed_size_bound (data : bytes) :
  exists printed written,
    compress_data data = Some (printed, written)
    /\ 2 <= length written <= length data + 2.
Proof.
  destruct (compress_data_size data)
    as (printed & tree & encoded & written & Htree & Hjoin & Hcomp & Hbits & Hlen).
  exists printed, written. split; [done|]. split; [lia|].
  assert (Z.of_nat (length encoded) <= 8 * Z.of_nat (length data))%Z; [|lia].
  rewrite Hbits. destruct data as [|b data].
  { vm_compute in Htree. injection Htree as <- <-. done. }
  set (ft := build_frequency_table (iter_bytes (b :: data))) in *.
  destruct (encoding_table_spec ft) as (root & Hroot & Hshape & Hsym & Htbl & Hkeys).
  { by apply build_frequency_table_nonempty. }
  { apply build_frequency_table_ok. }
  rewrite Hroot in Htree. injection Htree as <- <-. rewrite Htbl.
  replace (8 * Z.of_nat (length (b :: data)))%Z
    with (weighted_cost ((fun kv : pyval * Z => (kv.2, 8)) <$> ft)).
  2:{ rewrite weighted_cost_const. unfold ft.
      rewrite build_frequency_table_total. unfold iter_bytes.
      rewrite length_fmap. lia. }
  apply (huffman_cost_least ft root (build_frequency_table_ok _) Hroot 8).
  - by rewrite <- !list_fmap_compose.
  - rewrite <- list_fmap_compose.
    replace ((snd ∘ (fun kv : pyval * Z => (kv.2, 8))) <$> ft)
      with (replicate (length ft) 8).
    2:{ clear. induction ft as [|e ft IH]; csimpl; [done|]. by rewrite IH. }
    split; [apply Forall_replicate; lia|].
    rewrite kraft_sum_replicate. replace (8 - 8) with 0 by lia.
    assert (length ft <= 256); [|simpl; lia].
    rewrite <- (length_fmap fst). apply byte_keys_bound; [apply build_frequency_table_ok|].
    apply Forall_forall. intros k Hk.
    apply (proj1 (build_frequency_table_keys _ _)) in Hk.
    apply list_elem_of_fmap in Hk as (b' & -> & _). eauto.
Qed.

(** X8. In the table of a Huffman tree a symbol with a higher frequency
    never has a longer code than a symbol with a lower one. *)
Theorem frequent_symbols_have_short_codes (frequency_table : dict Z)
    (s1 s2 : pyval) (f1 f2 : Z) :
  frequency_table_ok frequency_table ->
  dict_get s1 frequency_table = Some f1 -> dict_get s2 frequency_table = Some f2 ->
  (f1 < f2)%Z ->
  exists root c1 c2,
    build_huffman_tree frequency_table = Some ([], Some root)
    /\ dict_get s1 (build_encoding_table (Some root)) = Some c1
    /\ dict_get s2 (build_encoding_table (Some root)) = Some c2
    /\ length c2 <= length c1.
Proof.
  intros Hok H1 H2 Hlt.
  apply dict_get_Some_elem in H1 as Hin1. apply dict_get_Some_elem in H2 as Hin2.
  assert (Hne : frequency_table <> []) by (intros ->; by apply elem_of_nil in Hin1).
  destruct (encoding_table_spec frequency_table Hne Hok)
    as (root & Hroot & Hshape & Hsym & Htbl & Hkeys).
  set (T := leaf_paths root) in *.
  assert (Hcode : forall s, s ∈ dict_keys frequency_table -> is_Some (dict_get s T)).
  { intros s Hs. apply dict_get_is_Some. by rewrite Hkeys. }
  destruct (Hcode s1) as [c1 Hc1]; [apply list_elem_of_fmap; by exists (s1, f1)|].
  destruct (Hcode s2) as [c2 Hc2]; [apply list_elem_of_fmap; by exists (s2, f2)|].
  exists root, c1, c2. rewrite Htbl. repeat split; auto.
  assert (Hs12 : s1 <> s2) by (intros ->; rewrite H1 in H2; injection H2; lia).
  apply elem_of_Permutation in Hin1 as [rest1 Hp1].
  assert (Hin2' : (s2, f2) ∈ rest1).
  { rewrite Hp1 in Hin2. apply elem_of_cons in Hin2 as [Heq|?]; [congruence|done]. }
  apply elem_of_Permutation in Hin2' as [rest Hp2].
  assert (Hp : frequency_table ≡ₚ (s1, f1) :: (s2, f2) :: rest) by (by rewrite Hp1, Hp2).
  set (len := fun kv : pyval * Z => length (default [] (dict_get kv.1 T))).
  set (wl := (f1, len (s2, f2)) :: (f2, len (s1, f1))
             :: ((fun kv => (kv.2, len kv)) <$> rest)).
  assert (Hprefix : binary_prefix_code (dict_keys frequency_table) T).
  { split.
    - intros s Hs. destruct (Hcode s Hs) as [c Hc]. exists c. split; [done|].
      apply dict_get_Some_elem in Hc.
      pose proof (leaf_paths_bits root Hshape) as Hb. rewrite Forall_forall in Hb.
      exact (Hb _ Hc).
    - intros a b ca cb _ _ Hab Ha Hb Hpre. apply dict_get_Some_elem in Ha, Hb.
      assert ((a, ca) = (b, cb)) by (eapply leaf_paths_prefix; eauto). congruence. }
  destruct Hok as [Hnd Hpos].
  destruct (codes_of_prefix_free frequency_table T Hnd Hprefix) as [Hbits Hpf].
  set (L := sum_list_with length (codes_of frequency_table T)).
  assert (Hk : kraft L (length <$> codes_of frequency_table T)).
  { split.
    - apply Forall_fmap, Forall_forall. intros c Hc. simpl. by apply sum_list_with_in.
    - apply kraft_prefix_free; [done|done|].
      apply Forall_forall. intros c Hc. by apply sum_list_with_in. }
  assert (Hbound : (total_bits frequency_table T <= weighted_cost wl)%Z).
  { apply (huffman_cost_least frequency_table root (conj Hnd Hpos) Hroot L).
    - rewrite Hp. unfold wl. csimpl. rewrite <- list_fmap_compose.
      reflexivity.
    - assert (Hl : wl.*2 ≡ₚ length <$> codes_of frequency_table T).
      { unfold codes_of. rewrite Hp. unfold wl. csimpl.
        rewrite <- !list_fmap_compose. rewrite perm_swap. reflexivity. }
      by rewrite Hl. }
  rewrite Hp in Hbound. unfold total_bits, weighted_cost, wl, code_length, len in Hbound.
  simpl in Hbound. rewrite sumZ_fmap in Hbound. simpl in Hbound.
  rewrite Hc1, Hc2 in Hbound. simpl in Hbound. nia.
Qed.

Lemma frequent_symbols_have_short_codes_witness :
  exists root c1 c2,
    build_huffman_tree (build_frequency_table (iter_bytes (list_byte_of_string "aaabbc")))
      = Some ([], Some root)
    /\ dict_get (PInt 99) (build_encoding_table (Some root)) = Some c1
    /\ dict_get (PInt 97) (build_encoding_table (Some root)) = Some c2
    /\ length c2 <= length c1.
Proof.
  apply (frequent_symbols_have_short_codes
           (build_frequency_table (iter_bytes (list_byte_of_string "aaabbc")))
           (PInt 99) (PInt 97) 1 3).
  - apply build_frequency_table_ok.
  - reflexivity.
  - reflexivity.
  - lia.
Defined.

(** ** What compress_file changes *)

(** X9. [compress_file] raises at the read when the input file is missing.
    For every existing input, whatever its bytes, nothing is raised between
    the read and the write (no [KeyError] from the table, no [ValueError]
    from [int] or [bytearray.append]): once [output_file] is open, the bytes
    of [compress_data] are stored under it, the message is printed last, and
    every other file is as it was. *)
Theorem compress_file_effect (input_file output_file : str) (w : world) :
  (files w !! input_file = None /\ compress_file input_file output_file w = None)
  \/ (exists contents printed written w',
        files w !! input_file = Some contents
        /\ compress_data (rstrip contents) = Some (printed, written)
        /\ compress_file input_file output_file w = Some w'
        /\ files w' !! output_file = Some written
        /\ (forall other, other <> output_file -> files w' !! other = files w !! other)
        /\ stdout w' = stdout w ++ printed
                        ++ [lit "Arquivo comprimido salvo como " ++ output_file]).
Proof.
  unfold compress_file. destruct (files w !! input_file) as [contents|] eqn:Hfile.
  - right.
    destruct (compress_data_spec (rstrip contents))
      as (printed & _ & _ & byte_array & header & _ & _ & _ & _ & _ & _ & _ & Hcomp).
    exists contents, printed, (header :: byte_array). eexists.
    split; [done|]. split; [done|]. simpl. rewrite Hcomp. simpl.
    split; [reflexivity|]. simpl. split; [apply lookup_insert_eq|].
    split; [|by rewrite <- app_assoc].
    intros other Hne. by apply lookup_insert_ne.
  - left. done.
Qed.

(** ** The bits the decoder walks *)

Lemma expand_payload_bits (payload : bytes) : Forall is_bit (expand_payload payload).
Proof.
  unfold expand_payload. apply Forall_concat, Forall_fmap, Forall_forall.
  intros b _. simpl.
  assert (forallb (fun c => bool_decide (is_bit c)) (format_08b (byte_value b)) = true)
    as Hall by (destruct b; vm_compute; reflexivity).
  apply Forall_forall. intros c Hc.
  rewrite forallb_forall in Hall. apply list_elem_of_In, Hall in Hc.
  by apply bool_decide_eq_true in Hc.
Qed.

(** X10. The decoder walks [8 * len(payload) - padding] binary digits when
    the header byte is 1 or more, and none when the header byte is 0 or the
    file is empty, Python reading [[:-0]] as [[:0]]: a file with header 0
    decodes to the empty string whatever its payload and the table. *)
Theorem walked_bits_length (header : byte) (payload : bytes) (encoding_table : dict str) :
  let padding := N.to_nat (Byte.to_N header) in
  Forall is_bit (walked_bits (header :: payload))
  /\ length (walked_bits (header :: payload))
     = (if decide (padding = 0) then 0 else 8 * length payload - padding)
  /\ decompress_data (x00 :: payload) encoding_table = []
  /\ decompress_data [] encoding_table = [].
Proof.
  intros padding. split; [|split; [|done]].
  - unfold walked_bits, read_header, slice_to_neg. fold padding.
    destruct (decide _); [constructor|].
    apply Forall_take, expand_payload_bits.
  - unfold walked_bits, read_header, slice_to_neg. fold padding.
    destruct (decide (padding = 0)); [done|].
    rewrite length_take, expand_payload_length. lia.
Qed.

(** ** What the decoder can emit *)

Lemma decode_fold_values (encoding_table : dict str) (bits : str) (current decoded : str) :
  exists values,
    snd (fold_left (decode_step encoding_table) bits (current, decoded))
      = decoded ++ concat values
    /\ Forall (fun v => exists code, dict_get (PStr code) encoding_table = Some v) values
    /\ length values <= length bits.
Proof.
  revert current decoded. induction bits as [|bit bits IH]; intros current decoded; simpl.
  - exists []. simpl. rewrite app_nil_r. repeat split; auto.
  - destruct (dict_get (PStr (current ++ [bit])) encoding_table) as [v|] eqn:E.
    + destruct (IH [] (decoded ++ v)) as (values & Heq & Hall & Hlen).
      exists (v :: values). rewrite Heq. simpl. rewrite <- app_assoc.
      repeat split; auto; [|lia]. constructor; eauto.
    + destruct (IH (current ++ [bit]) decoded) as (values & Heq & Hall & Hlen).
      exists values. repeat split; auto.
Qed.

(** X11. Whatever the file and the table, the text [decompress_file]
    writes is a concatenation of values of the table, each found under a
    [str] key, and there are no more of them than bits walked: the decoder
    emits nothing that is not in the table it was given. *)
Theorem decoder_emits_table_values (contents : bytes) (encoding_table : dict str) :
  exists values,
    decompress_data contents encoding_table = concat values
    /\ Forall (fun v => exists code, dict_get (PStr code) encoding_table = Some v) values
    /\ length values <= length (walked_bits contents).
Proof.
  unfold decompress_data, decode_loop.
  destruct (decode_fold_values encoding_table (walked_bits contents) [] [])
    as (values & Heq & Hall & Hlen).
  exists values. by rewrite Heq.
Qed.

(** ** heapq: the operations commute with a map that keeps the order *)

Section heapq_fmap.
Context {A B : Type} (g : A -> B) (lt : A -> A -> bool) (lt' : B -> B -> bool).
Hypothesis lt_fmap : forall a b, lt' (g a) (g b) = lt a b.

Lemma siftdown_loop_fmap (fuel : nat) (heap : list A) (startpos pos : nat) (newitem : A) :
  heapq.siftdown_loop lt' fuel (g <$> heap) startpos pos (g newitem)
  = fmap (M:=list) g <$> heapq.siftdown_loop lt fuel heap startpos pos newitem.
Proof.
  revert heap pos. induction fuel as [|fuel IH]; intros heap pos.
  - cbn [heapq.siftdown_loop]. destruct (decide _); [done|].
    cbn. by rewrite list_fmap_insert.
  - cbn [heapq.siftdown_loop]. destruct (decide _); [|cbn; by rewrite list_fmap_insert].
    rewrite list_lookup_fmap. destruct (heap !! _) as [parent|]; [|done].
    cbn [fmap option_fmap option_map mbind option_bind]. rewrite lt_fmap.
    destruct (lt newitem parent).
    + rewrite <- list_fmap_insert. apply IH.
    + cbn. by rewrite list_fmap_insert.
Qed.

Lemma _siftdown_fmap (heap : list A) (startpos pos : nat) :
  heapq._siftdown lt' (g <$> heap) startpos pos
  = fmap (M:=list) g <$> heapq._siftdown lt heap startpos pos.
Proof.
  unfold heapq._siftdown. rewrite list_lookup_fmap.
  destruct (heap !! pos) as [newitem|]; [|done]. cbn. apply siftdown_loop_fmap.
Qed.

Lemma siftup_loop_fmap (fuel : nat) (heap : list A) (endpos pos : nat) :
  heapq.siftup_loop lt' fuel (g <$> heap) endpos pos
  = prod_map (fmap (M:=list) g) id <$> heapq.siftup_loop lt fuel heap endpos pos.
Proof.
  revert heap pos. induction fuel as [|fuel IH]; intros heap pos.
  - cbn [heapq.siftup_loop]. destruct (decide _) as [Hc|Hc]; done.
  - cbn [heapq.siftup_loop]. destruct (decide _) as [Hc|Hc]; [|done].
    destruct (decide _) as [Hr|Hr].
    + rewrite !list_lookup_fmap.
      destruct (heap !! (2 * pos + 1)) as [cl|] eqn:El; [|done].
      destruct (heap !! (2 * pos + 1 + 1)) as [cr|] eqn:Er; [|done].
      cbn [fmap option_fmap option_map mbind option_bind]. rewrite lt_fmap.
      destruct (negb (lt cl cr)).
      * rewrite list_lookup_fmap, Er. cbn [fmap option_fmap option_map mbind option_bind].
        rewrite <- list_fmap_insert. apply IH.
      * rewrite list_lookup_fmap, El. cbn [fmap option_fmap option_map mbind option_bind].
        rewrite <- list_fmap_insert. apply IH.
    + cbn [mbind option_bind]. rewrite list_lookup_fmap.
      destruct (heap !! (2 * pos + 1)) as [cl|]; [|done].
      cbn [fmap option_fmap option_map mbind option_bind].
      rewrite <- list_fmap_insert. apply IH.
Qed.

Lemma _siftup_fmap (heap : list A) (pos : nat) :
  heapq._siftup lt' (g <$> heap) pos = fmap (M:=list) g <$> heapq._siftup lt heap pos.
Proof.
  unfold heapq._siftup. rewrite list_lookup_fmap, length_fmap.
  destruct (heap !! pos) as [newitem|]; [|done].
  cbn [fmap option_fmap option_map mbind option_bind].
  rewrite siftup_loop_fmap.
  destruct (heapq.siftup_loop lt (length heap) heap (length heap) pos) as [[heap' pos']|];
    [|done].
  cbn [fmap option_fmap option_map mbind option_bind prod_map fst snd id].
  rewrite <- list_fmap_insert. apply _siftdown_fmap.
Qed.

Lemma heappush_fmap (heap : list A) (item : A) :
  heapq.heappush lt' (g <$> heap) (g item) = fmap (M:=list) g <$> heapq.heappush lt heap item.
Proof.
  unfold heapq.heappush. rewrite !length_app, length_fmap.
  change [g item] with (g <$> [item]). rewrite <- fmap_app. apply _siftdown_fmap.
Qed.

Lemma removelast_fmap (heap : list A) : removelast (g <$> heap) = g <$> removelast heap.
Proof.
  induction heap as [|a [|b heap] IH]; [done..|].
  change (g a :: removelast (g <$> b :: heap) = g a :: (g <$> removelast (b :: heap))).
  by rewrite IH.
Qed.

Lemma heappop_fmap (heap : list A) :
  heapq.heappop lt' (g <$> heap) = prod_map g (fmap (M:=list) g) <$> heapq.heappop lt heap.
Proof.
  unfold heapq.heappop. rewrite fmap_last.
  destruct (last heap) as [lastelt|]; [|done].
  cbn [fmap option_fmap option_map mbind option_bind].
  rewrite removelast_fmap.
  destruct (removelast heap) as [|returnitem rest]; [done|].
  rewrite fmap_cons.
  change (<[0:=g lastelt]> (g returnitem :: (g <$> rest)))
    with (g <$> <[0:=lastelt]> (returnitem :: rest)).
  rewrite _siftup_fmap.
  by destruct (heapq._siftup lt (<[0:=lastelt]> (returnitem :: rest)) 0).
Qed.

End heapq_fmap.

(** ** The builder, the tables and the codes commute with a renaming *)

Section renaming.
Context (f : pyval -> pyval) `{!Inj (=) (=) f}.

Lemma dict_get_rename {V} (k : pyval) (d : dict V) :
  dict_get (f k) (rename_keys f d) = dict_get k d.
Proof.
  induction d as [|[k' v] d IH]; [done|].
  cbn. destruct (decide (k' = k)) as [->|Hne].
  - by rewrite decide_True.
  - rewrite decide_False; [apply IH|]. intros Heq. by apply Hne, (inj f).
Qed.

Lemma dict_set_rename {V} (k : pyval) (v : V) (d : dict V) :
  dict_set (f k) v (rename_keys f d) = rename_keys f (dict_set k v d).
Proof.
  induction d as [|[k' v'] d IH]; [done|].
  cbn. destruct (decide (k' = k)) as [->|Hne].
  - by rewrite decide_True.
  - rewrite decide_False; [|intros Heq; by apply Hne, (inj f)].
    cbn. f_equal. apply IH.
Qed.

Lemma count_fold_rename (data : list pyval) (frequency_table : dict Z) :
  fold_left count_step (f <$> data) (rename_keys f frequency_table)
  = rename_keys f (fold_left count_step data frequency_table).
Proof.
  revert frequency_table. induction data as [|c data IH]; intros frequency_table; [done|].
  cbn [fmap list_fmap fold_left]. rewrite <- IH. f_equal.
  unfold count_step. by rewrite dict_get_rename, dict_set_rename.
Qed.

Lemma build_frequency_table_rename (data : list pyval) :
  build_frequency_table (f <$> data) = rename_keys f (build_frequency_table data).
Proof. apply (count_fold_rename data []). Qed.

Lemma node_lt_rename (a b : HuffmanNode) :
  node_lt (rename_node f a) (rename_node f b) = node_lt a b.
Proof. by destruct a, b. Qed.

Lemma push_leaves_rename (items : dict Z) (heap : list HuffmanNode) :
  push_leaves (rename_keys f items) (rename_node f <$> heap)
  = fmap (M:=list) (rename_node f) <$> push_leaves items heap.
Proof.
  revert heap. induction items as [|[c n] items IH]; intros heap; [done|].
  cbn [rename_keys fmap list_fmap prod_map fst snd id push_leaves].
  change (new_node (Some (f c)) n) with (rename_node f (new_node (Some c) n)).
  rewrite (heappush_fmap _ _ _ node_lt_rename).
  destruct (heapq.heappush node_lt heap (new_node (Some c) n)) as [heap'|]; [|done].
  apply IH.
Qed.

Lemma merge_nodes_rename (node1 node2 : HuffmanNode) :
  merge_nodes (rename_node f node1) (rename_node f node2)
  = rename_node f (merge_nodes node1 node2).
Proof. by destruct node1, node2. Qed.

Lemma merge_loop_rename (fuel : nat) (heap : list HuffmanNode) :
  merge_loop fuel (rename_node f <$> heap)
  = fmap (M:=list) (rename_node f) <$> merge_loop fuel heap.
Proof.
  revert heap. induction fuel as [|fuel IH]; intros heap.
  - cbn [merge_loop]. rewrite length_fmap. by destruct (decide _).
  - cbn [merge_loop]. rewrite length_fmap. destruct (decide _); [|done].
    rewrite (heappop_fmap _ _ _ node_lt_rename).
    destruct (heapq.heappop node_lt heap) as [[node1 heap1]|]; [|done].
    cbn [fmap option_fmap option_map mbind option_bind prod_map fst snd].
    rewrite (heappop_fmap _ _ _ node_lt_rename).
    destruct (heapq.heappop node_lt heap1) as [[node2 heap2]|]; [|done].
    cbn [fmap option_fmap option_map mbind option_bind prod_map fst snd].
    rewrite merge_nodes_rename.
    rewrite (heappush_fmap _ _ _ node_lt_rename).
    destruct (heapq.heappush node_lt heap2 (merge_nodes node1 node2)) as [heap3|]; [|done].
    apply IH.
Qed.

Lemma build_huffman_tree_rename (frequency_table : dict Z) :
  build_huffman_tree (rename_keys f frequency_table)
  = prod_map id (fmap (M:=option) (rename_node f)) <$> build_huffman_tree frequency_table.
Proof.
  unfold build_huffman_tree.
  change (@nil HuffmanNode) with (rename_node f <$> @nil HuffmanNode) at 1.
  rewrite push_leaves_rename.
  destruct (push_leaves frequency_table []) as [heap|]; [|done].
  cbn [fmap option_fmap option_map mbind option_bind].
  rewrite length_fmap, merge_loop_rename.
  destruct (merge_loop (length heap) heap) as [[|root rest]|]; done.
Qed.

Lemma build_encoding_node_rename :
  forall (node : HuffmanNode) (code : str) (encoding_table : dict str),
    build_encoding_node (rename_node f node) code (rename_keys f encoding_table)
    = rename_keys f (build_encoding_node node code encoding_table).
Proof.
  fix IH 1. intros [c n l r] code encoding_table.
  cbn [rename_node build_encoding_node].
  assert (match f <$> c with
          | Some c' => dict_set c' code (rename_keys f encoding_table)
          | None => rename_keys f encoding_table
          end
          = rename_keys f match c with
                          | Some c' => dict_set c' code encoding_table
                          | None => encoding_table
                          end) as ->.
  { destruct c as [c|]; [apply dict_set_rename|done]. }
  destruct l as [l|], r as [r|]; rewrite ?IH; reflexivity.
Qed.

Lemma build_encoding_table_rename (huffman_tree : option HuffmanNode) :
  build_encoding_table (rename_node f <$> huffman_tree)
  = rename_keys f (build_encoding_table huffman_tree).
Proof.
  destruct huffman_tree as [root|]; [|done].
  apply (build_encoding_node_rename root [] []).
Qed.

Lemma join_codes_rename (encoding_table : dict str) (data : list pyval) :
  join_codes (rename_keys f encoding_table) (f <$> data) = join_codes encoding_table data.
Proof.
  unfold join_codes. f_equal.
  induction data as [|c data IH]; [done|].
  rewrite fmap_cons, !mapM_cons, dict_get_rename, IH. done.
Qed.

End renaming.

(** ** The compressed file does not name its symbols *)

Lemma byte_of_int_value (b : byte) : byte_of_int (byte_value b) = Some b.
Proof.
  unfold byte_of_int, byte_value. pose proof (Byte.to_N_bounded b) as Hb.
  rewrite decide_True by lia. rewrite N2Z.id. apply Byte.of_to_N.
Qed.

Lemma byte_of_int_inv (n : Z) (b : byte) : byte_of_int n = Some b -> byte_value b = n.
Proof.
  unfold byte_of_int, byte_value. destruct (decide _) as [Hn|]; [|done].
  intros Hb. apply Byte.to_of_N in Hb. rewrite Hb. lia.
Qed.

Lemma byte_value_inj (b1 b2 : byte) : byte_value b1 = byte_value b2 -> b1 = b2.
Proof.
  intros Heq. pose proof (byte_of_int_value b1) as H1.
  rewrite Heq, byte_of_int_value in H1. congruence.
Qed.

Lemma rename_byte_inj (g : byte -> byte) : Inj (=) (=) g -> Inj (=) (=) (rename_byte g).
Proof.
  intros Hg [n1|s1] [n2|s2]; unfold rename_byte.
  - destruct (byte_of_int n1) as [b1|] eqn:E1;
      destruct (byte_of_int n2) as [b2|] eqn:E2; intros [= Heq].
    + apply byte_value_inj, Hg in Heq. subst b2.
      apply byte_of_int_inv in E1, E2. congruence.
    + subst n2. by rewrite byte_of_int_value in E2.
    + subst n1. by rewrite byte_of_int_value in E1.
    + by subst.
  - by destruct (byte_of_int n1).
  - by destruct (byte_of_int n2).
  - done.
Qed.

Lemma iter_bytes_rename (g : byte -> byte) (data : bytes) :
  iter_bytes (g <$> data) = rename_byte g <$> iter_bytes data.
Proof.
  unfold iter_bytes. rewrite <- !list_fmap_compose. apply list_fmap_ext.
  intros i b _. simpl. by rewrite byte_of_int_value.
Qed.

(** X12. Replacing the bytes of the data by others, different bytes by
    different bytes, does not change one byte of what [compress_file]
    writes for it: the header and the payload depend on which positions
    hold equal bytes, not on which bytes they are. The file alone therefore
    cannot tell such inputs apart. *)
Theorem compress_data_renaming (g : byte -> byte) (data : bytes) :
  Inj (=) (=) g -> compress_data (g <$> data) = compress_data data.
Proof.
  intros Hg. pose proof (rename_byte_inj g Hg) as Hf.
  unfold compress_data. rewrite iter_bytes_rename.
  rewrite (build_frequency_table_rename (rename_byte g)).
  rewrite (build_huffman_tree_rename (rename_byte g)).
  destruct (build_huffman_tree (build_frequency_table (iter_bytes data)))
    as [[printed huffman_tree]|]; [|done].
  cbn [fmap option_fmap option_map mbind option_bind prod_map fst snd id].
  by rewrite (build_encoding_table_rename (rename_byte g)),
    (join_codes_rename (rename_byte g)).
Qed.

Lemma compress_data_renaming_witness :
  Inj (=) (=) exchange_a_b
  /\ compress_data (exchange_a_b <$> [x61; x61; x61; x62; x62; x63])
     = compress_data [x61; x61; x61; x62; x62; x63]
  /\ exchange_a_b <$> [x61; x61; x61; x62; x62; x63] = [x62; x62; x62; x61; x61; x63].
Proof.
  assert (Inj (=) (=) exchange_a_b) as Hg.
  { intros b1 b2 Heq.
    assert (forall b, exchange_a_b (exchange_a_b b) = b) as Hinv
      by (intros b; destruct b; reflexivity).
    rewrite <- (Hinv b1), <- (Hinv b2). by rewrite Heq. }
  split; [exact Hg|]. split; [|reflexivity].
  apply (compress_data_renaming exchange_a_b _ Hg).
Defined.

(** ** main *)

Lemma print_help_lines (w : world) : print_help w = print_lines help_lines w.
Proof.
  unfold print_help, print_lines. generalize help_lines. intros lines. revert w.
  induction lines as [|line lines IH]; intros w; simpl.
  - destruct w. simpl. by rewrite app_nil_r.
  - rewrite IH. simpl. by rewrite <- app_assoc.
Qed.

Lemma endswith_app (name suffix : str) : endswith (name ++ suffix) suffix = true.
Proof.
  unfold endswith. apply bool_decide_eq_true. rewrite length_app.
  replace (length name + length suffix - length suffix) with (length name) by lia.
  apply drop_app_length.
Qed.

Lemma slice_to_neg_app {X} (s t : list X) :
  t <> [] -> slice_to_neg (s ++ t) (length t) = s.
Proof.
  intros Ht. unfold slice_to_neg. rewrite decide_False by (by destruct t).
  rewrite length_app.
  replace (length s + length t - length t) with (length s) by lia.
  apply take_app_length.
Qed.

Lemma slice_to_neg_huff (name : str) : slice_to_neg (name ++ lit ".huff") 5 = name.
Proof. by apply (slice_to_neg_app name (lit ".huff")). Qed.

Lemma app_neq_self {X} (s t : list X) : t <> [] -> s <> s ++ t.
Proof.
  intros Ht Heq. apply (f_equal length) in Heq. rewrite length_app in Heq.
  destruct t; [done|]. simpl in Heq. lia.
Qed.

(** What [main_decompress] does for an existing file: it raises when the
    output file cannot be opened, and writes an empty file otherwise. *)
Lemma main_decompress_run (input_file : str) (contents : bytes) (w : world) :
  files w !! input_file = Some contents ->
  exists printed,
    main_decompress input_file w
    = if decide (opens_for_writing (slice_to_neg input_file 5) w) then
        Some (World (<[slice_to_neg input_file 5 := []]> (files w))
                (stdout w ++ printed
                   ++ [lit "Arquivo descomprimido salvo como "
                         ++ slice_to_neg input_file 5]))
      else None.
Proof.
  intros Hfile. unfold main_decompress, rebuilt_table. rewrite Hfile. simpl.
  destruct (compress_data_spec (rstrip contents))
    as (printed & tree & _ & _ & _ & Htree & _).
  rewrite Htree. simpl. rewrite Hfile. simpl. exists printed.
  unfold opens_for_writing. simpl.
  destruct (decide _); [|done].
  unfold decompress_data. rewrite decode_loop_no_str_key.
  - unfold print, write_file. simpl. by rewrite <- app_assoc.
  - eapply encoding_table_keys_of_bytes; eauto.
Qed.

Section main_properties.
Context {float : Type} (percentage : nat -> nat -> float) (format_float : float -> str).

Lemma main_c (prog input_file : str) (w : world) :
  main percentage format_float [prog; lit "-c"; lit "-f"; input_file] w
  = (w ← main_compress input_file w;
     original_size ← getsize input_file w;
     compressed_size ← getsize (input_file ++ lit ".huff") w;
     let '(w, compression_ratio) :=
       calculate_compression_ratio percentage original_size compressed_size w in
     Some (print (lit "Taxa de compressão: " ++ format_ratio format_float compression_ratio
                    ++ lit "%") w)).
Proof. reflexivity. Qed.

Lemma main_d (prog input_file : str) (w : world) :
  main percentage format_float [prog; lit "-d"; lit "-f"; input_file] w
  = if endswith input_file (lit ".huff") then main_decompress input_file w
    else Some (print (lit "Erro: o arquivo de entrada não parece ser um arquivo comprimido.") w).
Proof. reflexivity. Qed.

Lemma main_s (prog input_file : str) (w : world) :
  main percentage format_float [prog; lit "-s"; lit "-f"; input_file] w
  = main_symbols input_file w.
Proof. reflexivity. Qed.

Lemma compress_file_run (input_file output_file : str) (contents : bytes) (w : world) :
  files w !! input_file = Some contents ->
  exists printed written,
    compress_data (rstrip contents) = Some (printed, written)
    /\ 2 <= length written
    /\ compress_file input_file output_file w
       = Some (World (<[output_file := written]> (files w))
                 (stdout w ++ printed
                    ++ [lit "Arquivo comprimido salvo como " ++ output_file])).
Proof.
  intros Hfile.
  destruct (compress_data_spec (rstrip contents))
    as (printed & _ & encoded & byte_array & header & _ & _ & _ & Hpack & Hexp & _ & _ & Hcomp).
  exists printed, (header :: byte_array). split; [done|]. split.
  - destruct byte_array as [|b byte_array]; [|simpl; lia].
    apply (f_equal length) in Hexp. rewrite length_app, length_replicate in Hexp.
    unfold padding_of in Hexp. simpl in Hexp. lia.
  - unfold compress_file. rewrite Hfile. simpl. rewrite Hcomp. simpl.
    unfold print, write_file. simpl. by rewrite <- app_assoc.
Qed.

(** X13. With [-c -f name] and an existing file, [main] returns: it
    writes [name.huff], leaves the input file as it was, and prints the
    lines of [compress_file] and then the ratio of the size of the output to
    the size of the whole input, trailing whitespace included; for an input
    of size zero it prints the error of [calculate_compression_ratio] and
    the ratio [None%]. *)
Theorem main_compress_option (prog input_file : str) (contents : bytes) (w : world) :
  files w !! input_file = Some contents ->
  exists printed written w',
    compress_data (rstrip contents) = Some (printed, written)
    /\ main percentage format_float [prog; lit "-c"; lit "-f"; input_file] w = Some w'
    /\ files w' = <[input_file ++ lit ".huff" := written]> (files w)
    /\ files w' !! input_file = Some contents
    /\ stdout w'
       = stdout w ++ printed
         ++ [lit "Arquivo comprimido salvo como " ++ input_file ++ lit ".huff"]
         ++ (if decide (length contents = 0) then
               [lit "Erro: o tamanho do arquivo original é zero.";
                lit "Taxa de compressão: None%"]
             else
               [lit "Taxa de compressão: "
                  ++ format_float (percentage (length written) (length contents))
                  ++ lit "%"]).
Proof.
  intros Hfile.
  destruct (compress_file_run input_file (input_file ++ lit ".huff") contents w Hfile)
    as (printed & written & Hcomp & _ & Hrun).
  assert (files w !! input_file = Some contents
          -> <[input_file ++ lit ".huff" := written]> (files w) !! input_file = Some contents)
    as Hkept.
  { intros H. rewrite lookup_insert_ne; [done|]. intros Heq. symmetry in Heq.
    revert Heq. by apply app_neq_self. }
  exists printed, written. rewrite main_c. unfold main_compress. rewrite Hrun.
  cbn [mbind option_bind]. unfold getsize. cbn [files].
  rewrite (Hkept Hfile), lookup_insert_eq.
  cbn [fmap option_fmap option_map mbind option_bind].
  unfold calculate_compression_ratio.
  destruct (decide (length contents = 0)) as [Hzero|Hsize].
  - eexists. split; [done|]. split; [reflexivity|]. cbn [files stdout print].
    split; [done|]. split; [by apply Hkept|].
    rewrite <- !app_assoc. reflexivity.
  - eexists. split; [done|]. split; [reflexivity|]. cbn [files stdout print].
    split; [done|]. split; [by apply Hkept|].
    rewrite <- !app_assoc. reflexivity.
Qed.

Lemma main_symbols_files (input_file : str) (w w' : world) :
  main_symbols input_file w = Some w' -> files w' = files w.
Proof.
  unfold main_symbols. destruct (read_text input_file w) as [data|]; [|done].
  cbn [mbind option_bind].
  destruct (build_huffman_tree _) as [[printed huffman_tree]|]; [|done].
  cbn [mbind option_bind]. by intros [= <-].
Qed.

(** X14. Whatever its arguments, [main] changes at most one file. With
    [-c -f name] it is [name.huff]. With [-d -f name.huff] it is [name],
    which becomes an empty file whatever [name.huff] holds. With any other
    arguments, valid or not, every file is left as it was. *)
Theorem main_changes_one_file (argv : list str) (w w' : world) :
  main percentage format_float argv w = Some w' ->
  files w' = files w
  \/ (exists prog input_file written,
        argv = [prog; lit "-c"; lit "-f"; input_file]
        /\ files w' = <[input_file ++ lit ".huff" := written]> (files w))
  \/ (exists prog name,
        argv = [prog; lit "-d"; lit "-f"; name ++ lit ".huff"]
        /\ files w' = <[name := []]> (files w)).
Proof.
  intros Hrun.
  destruct (decide (length argv < 3)) as [Hshort|Hlong].
  { unfold main in Hrun. rewrite decide_True in Hrun by done.
    injection Hrun as <-. left. by rewrite print_help_lines. }
  destruct argv as [|prog [|option [|flag rest]]]; cbn [length] in Hlong; try lia.
  destruct (decide (length rest = 1 /\ flag = lit "-f")) as [[Hlen ->]|Hbad].
  - destruct rest as [|input_file [|]]; try done. clear Hlen Hlong.
    destruct (decide (option = lit "-h")) as [->|Hh].
    { injection Hrun as <-. left. by rewrite print_help_lines. }
    destruct (decide (option = lit "-c")) as [->|Hc].
    { right. left. rewrite main_c in Hrun. unfold main_compress in Hrun.
      destruct (files w !! input_file) as [contents|] eqn:Hfile.
      - destruct (compress_file_run input_file (input_file ++ lit ".huff") contents w Hfile)
          as (printed & written & _ & _ & Hcomp).
        rewrite Hcomp in Hrun. cbn [mbind option_bind] in Hrun.
        destruct (getsize input_file _) as [original_size|]; [|done].
        cbn [mbind option_bind] in Hrun.
        destruct (getsize (input_file ++ lit ".huff") _) as [compressed_size|]; [|done].
        cbn [mbind option_bind] in Hrun.
        exists prog, input_file, written. split; [done|].
        unfold calculate_compression_ratio in Hrun.
        destruct (decide (original_size = 0)); by injection Hrun as <-.
      - unfold compress_file in Hrun. by rewrite Hfile in Hrun. }
    destruct (decide (option = lit "-d")) as [->|Hd].
    { rewrite main_d in Hrun.
      destruct (endswith input_file (lit ".huff")) eqn:Hends.
      - right. right. unfold endswith in Hends. apply bool_decide_eq_true in Hends.
        pose proof (take_drop (length input_file - length (lit ".huff")) input_file) as Hname.
        rewrite Hends in Hname. symmetry in Hname.
        set (name := take (length input_file - length (lit ".huff")) input_file) in Hname.
        exists prog, name. split; [by rewrite <- Hname|].
        destruct (files w !! input_file) as [contents|] eqn:Hfile.
        + destruct (main_decompress_run input_file contents w Hfile) as (printed & Hdec).
          rewrite Hdec in Hrun. destruct (decide _); [|done].
          injection Hrun as <-. cbn [files].
          rewrite Hname at 1. by rewrite slice_to_neg_huff.
        + unfold main_decompress in Hrun. by rewrite Hfile in Hrun.
      - left. by injection Hrun as <-. }
    destruct (decide (option = lit "-s")) as [->|Hs].
    { rewrite main_s in Hrun. left. by eapply main_symbols_files. }
    left. unfold main in Hrun. rewrite decide_False in Hrun by (cbn [length]; lia).
    cbn [lookup list_lookup mbind option_bind] in Hrun.
    rewrite !decide_False in Hrun by done.
    injection Hrun as <-. by rewrite print_help_lines.
  - left. unfold main in Hrun. rewrite decide_False in Hrun by (cbn [length]; lia).
    cbn [lookup list_lookup mbind option_bind] in Hrun.
    rewrite bool_decide_eq_false_2 in Hrun.
    2:{ intros [Hlen Hflag]. apply Hbad. cbn [length] in Hlen.
        cbn [lookup list_lookup] in Hflag. split; [lia|congruence]. }
    destruct (decide (option = lit "-h")); [injection Hrun as <-; by rewrite print_help_lines|].
    destruct (decide (option = lit "-c")); [injection Hrun as <-; by rewrite print_help_lines|].
    destruct (decide (option = lit "-d")); [injection Hrun as <-; by rewrite print_help_lines|].
    destruct (decide (option = lit "-s")); injection Hrun as <-; by rewrite print_help_lines.
Qed.

(** X15. Compressing a file with [-c] and then decompressing the result with
    [-d], both through [main], returns twice and leaves an empty file under
    the name of the original: the contents of the original are lost, and
    [name.huff] is the only place left that depends on them. *)
Theorem compress_then_decompress_empties (prog prog' name : str) (contents : bytes)
    (w : world) :
  files w !! name = Some contents ->
  exists w1 w2,
    main percentage format_float [prog; lit "-c"; lit "-f"; name] w = Some w1
    /\ main percentage format_float [prog'; lit "-d"; lit "-f"; name ++ lit ".huff"] w1
       = Some w2
    /\ files w2 !! name = Some []
    /\ files w2 !! (name ++ lit ".huff") = files w1 !! (name ++ lit ".huff")
    /\ (forall other, other <> name -> other <> name ++ lit ".huff" ->
          files w2 !! other = files w !! other).
Proof.
  intros Hfile.
  destruct (compress_file_run name (name ++ lit ".huff") contents w Hfile)
    as (printed & written & _ & _ & Hcomp).
  assert (name ++ lit ".huff" <> name) as Hne.
  { intros Heq. symmetry in Heq. revert Heq. by apply app_neq_self. }
  assert (exists w1, main percentage format_float [prog; lit "-c"; lit "-f"; name] w = Some w1
                     /\ files w1 = <[name ++ lit ".huff" := written]> (files w))
    as (w1 & Hrun1 & Hfiles1).
  { rewrite main_c. unfold main_compress. rewrite Hcomp.
    cbn [mbind option_bind]. unfold getsize. cbn [files].
    rewrite (lookup_insert_ne _ (name ++ lit ".huff") name) by done.
    rewrite Hfile, lookup_insert_eq.
    cbn [fmap option_fmap option_map mbind option_bind].
    unfold calculate_compression_ratio.
    destruct (decide (length contents = 0)); eexists; split; reflexivity. }
  assert (files w1 !! (name ++ lit ".huff") = Some written) as Hhuff.
  { rewrite Hfiles1. apply lookup_insert_eq. }
  destruct (main_decompress_run (name ++ lit ".huff") written w1 Hhuff) as (printed' & Hdec).
  exists w1. eexists. split; [exact Hrun1|].
  rewrite main_d, endswith_app, Hdec.
  rewrite slice_to_neg_huff.
  rewrite decide_True.
  2:{ right. rewrite Hfiles1. rewrite lookup_insert_ne by done. by rewrite Hfile. }
  split; [reflexivity|]. cbn [files]. split; [apply lookup_insert_eq|].
  split; [by rewrite lookup_insert_ne|].
  intros other Hother Hother'. rewrite lookup_insert_ne by done.
  rewrite Hfiles1. by rewrite lookup_insert_ne.
Qed.

(** X16. An input file that holds nothing but ASCII whitespace, or nothing
    at all, is compressed to the two bytes [08 00]: [main -c] prints the
    error of [build_huffman_tree], goes on, and reports the file as saved. *)
Theorem whitespace_only_input (prog input_file : str) (contents : bytes) (w : world) :
  files w !! input_file = Some contents ->
  Forall (fun b => is_ascii_whitespace b = true) contents ->
  exists w',
    main percentage format_float [prog; lit "-c"; lit "-f"; input_file] w = Some w'
    /\ files w' = <[input_file ++ lit ".huff" := [x08; x00]]> (files w)
    /\ take 2 (drop (length (stdout w)) (stdout w'))
       = [empty_tree_message;
          lit "Arquivo comprimido salvo como " ++ input_file ++ lit ".huff"].
Proof.
  intros Hfile Hws.
  assert (input_file ++ lit ".huff" <> input_file) as Hne.
  { intros Heq. symmetry in Heq. revert Heq. by apply app_neq_self. }
  rewrite main_c. unfold main_compress, compress_file. rewrite Hfile.
  cbn [mbind option_bind]. rewrite (rstrip_whitespace contents Hws).
  change (compress_data []) with (Some ([empty_tree_message], [x08; x00])).
  cbn [mbind option_bind]. unfold getsize. cbn [files print write_file print_lines].
  rewrite (lookup_insert_ne _ (input_file ++ lit ".huff") input_file) by done.
  rewrite Hfile, lookup_insert_eq.
  cbn [fmap option_fmap option_map mbind option_bind].
  unfold calculate_compression_ratio.
  destruct (decide (length contents = 0)); eexists; (split; [reflexivity|]).
  - cbn [files stdout print write_file print_lines]. split; [reflexivity|].
    rewrite <- !app_assoc, drop_app_length. reflexivity.
  - cbn [files stdout print write_file print_lines]. split; [reflexivity|].
    rewrite <- !app_assoc, drop_app_length. reflexivity.
Qed.

End main_properties.

Lemma main_compress_option_witness :
  exists printed written w',
    compress_data (rstrip [x61; x61; x61; x62; x62; x63; x0a]) = Some (printed, written)
    /\ main sample_percentage sample_format_float
         [lit "main.py"; lit "-c"; lit "-f"; lit "a.txt"] sample_files = Some w'
    /\ files w' = <[lit "a.txt" ++ lit ".huff" := written]> (files sample_files)
    /\ files w' !! lit "a.txt" = Some [x61; x61; x61; x62; x62; x63; x0a]
    /\ stdout w'
       = stdout sample_files ++ printed
         ++ [lit "Arquivo comprimido salvo como " ++ lit "a.txt" ++ lit ".huff"]
         ++ (if decide (length [x61; x61; x61; x62; x62; x63; x0a] = 0) then
               [lit "Erro: o tamanho do arquivo original é zero.";
                lit "Taxa de compressão: None%"]
             else
               [lit "Taxa de compressão: "
                  ++ sample_format_float
                       (sample_percentage (length written)
                          (length [x61; x61; x61; x62; x62; x63; x0a]))
                  ++ lit "%"]).
Proof.
  apply (main_compress_option sample_percentage sample_format_float
           (lit "main.py") (lit "a.txt") [x61; x61; x61; x62; x62; x63; x0a] sample_files).
  reflexivity.
Defined.

Lemma main_changes_one_file_witness :
  files (World (<[lit "t" := []]> (files sample_world))
           [lit "Arquivo descomprimido salvo como t"])
    = files sample_world
  \/ (exists prog input_file written,
        [lit "main.py"; lit "-d"; lit "-f"; lit "t.huff"]
          = [prog; lit "-c"; lit "-f"; input_file]
        /\ files (World (<[lit "t" := []]> (files sample_world))
                    [lit "Arquivo descomprimido salvo como t"])
           = <[input_file ++ lit ".huff" := written]> (files sample_world))
  \/ (exists prog name,
        [lit "main.py"; lit "-d"; lit "-f"; lit "t.huff"]
          = [prog; lit "-d"; lit "-f"; name ++ lit ".huff"]
        /\ files (World (<[lit "t" := []]> (files sample_world))
                    [lit "Arquivo descomprimido salvo como t"])
           = <[name := []]> (files sample_world)).
Proof.
  apply (main_changes_one_file sample_percentage sample_format_float
           [lit "main.py"; lit "-d"; lit "-f"; lit "t.huff"] sample_world).
  reflexivity.
Defined.

Lemma compress_then_decompress_empties_witness :
  exists w1 w2,
    main sample_percentage sample_format_float
      [lit "main.py"; lit "-c"; lit "-f"; lit "a.txt"] sample_files = Some w1
    /\ main sample_percentage sample_format_float
         [lit "main.py"; lit "-d"; lit "-f"; lit "a.txt" ++ lit ".huff"] w1 = Some w2
    /\ files w2 !! lit "a.txt" = Some []
    /\ files w2 !! (lit "a.txt" ++ lit ".huff") = files w1 !! (lit "a.txt" ++ lit ".huff")
    /\ (forall other, other <> lit "a.txt" -> other <> lit "a.txt" ++ lit ".huff" ->
          files w2 !! other = files sample_files !! other).
Proof.
  apply (compress_then_decompress_empties sample_percentage sample_format_float
           (lit "main.py") (lit "main.py") (lit "a.txt")
           [x61; x61; x61; x62; x62; x63; x0a] sample_files).
  reflexivity.
Defined.

Lemma whitespace_only_input_witness :
  exists w',
    main sample_percentage sample_format_float
      [lit "main.py"; lit "-c"; lit "-f"; lit "blank.txt"] sample_files = Some w'
    /\ files w' = <[lit "blank.txt" ++ lit ".huff" := [x08; x00]]> (files sample_files)
    /\ take 2 (drop (length (stdout sample_files)) (stdout w'))
       = [empty_tree_message;
          lit "Arquivo comprimido salvo como " ++ lit "blank.txt" ++ lit ".huff"].
Proof.
  apply (whitespace_only_input sample_percentage sample_format_float
           (lit "main.py") (lit "blank.txt") [x20; x0a] sample_files).
  - reflexivity.
  - repeat constructor.
Defined.

(** ** Reading a text *)

Lemma byte_in_spec (lo hi : N) (b : byte) :
  byte_in lo hi b = true <-> (lo <= Byte.to_N b <= hi)%N.
Proof.
  unfold byte_in. rewrite andb_true_iff, !N.leb_le. done.
Qed.

Lemma byte_in_utf8 (lo hi : N) (b : byte) :
  ((hi <= 0xbf) \/ (0xc2 <= lo /\ hi <= 0xf4))%N ->
  byte_in lo hi b = true -> utf8_byte b = true.
Proof.
  intros Hrange Hb%byte_in_spec. unfold utf8_byte. apply orb_true_iff.
  rewrite !byte_in_spec. lia.
Qed.

Lemma byte_in_weaken (lo hi lo' hi' : N) (b : byte) :
  (lo' <= lo)%N -> (hi <= hi')%N -> byte_in lo hi b = true -> byte_in lo' hi' b = true.
Proof. rewrite !byte_in_spec. lia. Qed.

Lemma second_of_three_continuation (b0 b1 : byte) :
  second_of_three b0 b1 = true -> byte_in 0x80 0xbf b1 = true.
Proof. unfold second_of_three. destruct b0; apply byte_in_weaken; lia. Qed.

Lemma second_of_four_continuation (b0 b1 : byte) :
  second_of_four b0 b1 = true -> byte_in 0x80 0xbf b1 = true.
Proof. unfold second_of_four. destruct b0; apply byte_in_weaken; lia. Qed.

(** Induction over a successful run of the decoder: it reads the bytes in
    groups, one group per character, an ASCII byte alone or a leading byte
    with one to three continuation bytes. *)
Lemma decode_utf8_groups (P : bytes -> list str -> Prop) :
  P [] [] ->
  (forall b0 conts rest chars,
     Forall (fun b => byte_in 0x80 0xbf b = true) conts ->
     (byte_in 0x00 0x7f b0 = true /\ conts = [])
     \/ (byte_in 0xc2 0xf4 b0 = true /\ 1 <= length conts <= 3) ->
     decode_utf8 rest = Some chars -> P rest chars ->
     P (b0 :: conts ++ rest) (character (b0 :: conts) :: chars)) ->
  forall data chars, decode_utf8 data = Some chars -> P data chars.
Proof.
  intros Hnil Hstep data.
  assert (forall n data chars,
            length data <= n -> decode_utf8 data = Some chars -> P data chars) as Hall;
    [|intros chars; by apply (Hall (length data))].
  clear data. induction n as [|n IH]; intros data chars Hlen Hdec.
  { destruct data; [|simpl in Hlen; lia]. by injection Hdec as <-. }
  destruct data as [|b0 rest]; [by injection Hdec as <-|].
  cbn [length] in Hlen. cbn [decode_utf8] in Hdec.
  destruct (byte_in 0 127 b0) eqn:E0.
  { destruct (decode_utf8 rest) as [cs|] eqn:Er; [|done]. injection Hdec as <-.
    apply (Hstep b0 [] rest cs); [constructor|by left|done|apply IH; [lia|done]]. }
  destruct (byte_in 194 223 b0) eqn:E1.
  { destruct rest as [|b1 rest]; [done|].
    destruct (byte_in 128 191 b1) eqn:C1; [|done].
    destruct (decode_utf8 rest) as [cs|] eqn:Er; [|done]. injection Hdec as <-.
    cbn [length] in Hlen.
    apply (Hstep b0 [b1] rest cs); [by repeat constructor| |done|apply IH; [lia|done]].
    right. split; [|simpl; lia]. revert E1. apply byte_in_weaken; lia. }
  destruct (byte_in 224 239 b0) eqn:E2.
  { destruct rest as [|b1 [|b2 rest]]; [done..|].
    destruct (second_of_three b0 b1) eqn:C1; [|done].
    destruct (byte_in 128 191 b2) eqn:C2; [|done].
    destruct (decode_utf8 rest) as [cs|] eqn:Er; [|done]. injection Hdec as <-.
    cbn [length] in Hlen. apply second_of_three_continuation in C1.
    apply (Hstep b0 [b1; b2] rest cs); [by repeat constructor| |done|apply IH; [lia|done]].
    right. split; [|simpl; lia]. revert E2. apply byte_in_weaken; lia. }
  destruct (byte_in 240 244 b0) eqn:E3; [|done].
  destruct rest as [|b1 [|b2 [|b3 rest]]]; [done..|].
  destruct (second_of_four b0 b1) eqn:C1; [|done].
  destruct (byte_in 128 191 b2) eqn:C2; [|done].
  destruct (byte_in 128 191 b3) eqn:C3; [|done].
  destruct (decode_utf8 rest) as [cs|] eqn:Er; [|done]. injection Hdec as <-.
  cbn [length] in Hlen. apply second_of_four_continuation in C1.
  apply (Hstep b0 [b1; b2; b3] rest cs); [by repeat constructor| |done|apply IH; [lia|done]].
  right. split; [|simpl; lia]. revert E3. apply byte_in_weaken; lia.
Qed.

Lemma continuation_not_broken (conts rest : bytes) :
  Forall (fun b => byte_in 0x80 0xbf b = true) conts ->
  broken_utf8 rest = false -> broken_utf8 (conts ++ rest) = false.
Proof.
  induction 1 as [|b conts Hb _ IH]; [done|]. intros Hrest.
  cbn [app broken_utf8]. rewrite (IH Hrest).
  assert (utf8_byte b = true) as -> by (revert Hb; apply byte_in_utf8; lia).
  assert (byte_in 0xc2 0xf4 b = false) as ->; [|done].
  apply byte_in_spec in Hb. apply not_true_is_false. rewrite byte_in_spec. lia.
Qed.

(** A text that decodes shows no sign of being broken. *)
Lemma decode_utf8_not_broken (data : bytes) (chars : list str) :
  decode_utf8 data = Some chars -> broken_utf8 data = false.
Proof.
  revert data chars. apply decode_utf8_groups; [done|].
  intros b0 conts rest chars Hconts Hlead _ Hrest.
  cbn [broken_utf8]. rewrite (continuation_not_broken conts rest Hconts Hrest).
  destruct Hlead as [[Hb0 ->]|[Hb0 Hlen]].
  - assert (utf8_byte b0 = true) as -> by (revert Hb0; apply byte_in_utf8; lia).
    assert (byte_in 0xc2 0xf4 b0 = false) as ->; [|done].
    apply byte_in_spec in Hb0. apply not_true_is_false. rewrite byte_in_spec. lia.
  - assert (utf8_byte b0 = true) as -> by (revert Hb0; apply byte_in_utf8; lia).
    destruct Hconts as [|b1 conts Hb1 _]; [simpl in Hlen; lia|].
    cbn [app]. rewrite Hb1. by rewrite andb_false_r.
Qed.

Lemma decode_utf8_ascii (data : bytes) :
  Forall (fun b => byte_in 0x00 0x7f b = true) data ->
  decode_utf8 data = Some ((fun b => character [b]) <$> data).
Proof.
  induction 1 as [|b data Hb _ IH]; [done|].
  cbn [decode_utf8]. rewrite Hb, IH. done.
Qed.

Lemma translate_newlines_none (data : list str) :
  CR ∉ data -> translate_newlines data = data.
Proof.
  induction data as [|c data IH]; [done|].
  intros Hnot. apply not_elem_of_cons in Hnot as [Hc Hdata].
  cbn [translate_newlines]. rewrite decide_False by done. by rewrite IH.
Qed.

Lemma plain_byte_spec (b : byte) :
  plain_byte b = true ->
  byte_in 0x00 0x7f b = true
  /\ character [b] <> CR
  /\ isspace (character [b]) = is_ascii_whitespace b.
Proof. destruct b; (discriminate || (intros _; repeat split; discriminate)). Qed.

Lemma str_rstrip_plain (data : bytes) :
  Forall (fun b => plain_byte b = true) data ->
  str_rstrip ((fun b => character [b]) <$> data)
  = (fun b => character [b]) <$> rstrip data.
Proof.
  induction 1 as [|b data Hb _ IH]; [done|].
  rewrite fmap_cons. cbn [str_rstrip rstrip]. rewrite IH.
  destruct (plain_byte_spec b Hb) as (_ & _ & ->).
  destruct (rstrip data); [|done]. cbn [fmap list_fmap].
  by destruct (is_ascii_whitespace b).
Qed.

(** What [read()] and [rstrip()] give in text mode for a file of plain
    bytes: the characters of what they give in binary mode. *)
Lemma read_text_plain (input_file : str) (contents : bytes) (w : world) :
  files w !! input_file = Some contents ->
  Forall (fun b => plain_byte b = true) contents ->
  exists data, read_text input_file w = Some data
    /\ iter_text (str_rstrip data) = char_key <$> iter_bytes (rstrip contents).
Proof.
  intros Hfile Hplain. unfold read_text. rewrite Hfile. cbn [mbind option_bind].
  rewrite decode_utf8_ascii.
  2:{ eapply Forall_impl; [exact Hplain|]. intros b Hb. by apply plain_byte_spec. }
  cbn [mbind option_bind]. eexists. split; [reflexivity|].
  rewrite translate_newlines_none.
  2:{ intros Hin. apply list_elem_of_fmap in Hin as (b & Heq & Hb).
      rewrite Forall_forall in Hplain.
      destruct (plain_byte_spec b (Hplain b Hb)) as (_ & Hne & _). by apply Hne. }
  rewrite str_rstrip_plain by done.
  unfold iter_text, iter_bytes. rewrite <- !list_fmap_compose.
  apply list_fmap_ext. intros i b _. simpl. by rewrite byte_of_int_value.
Qed.

Lemma ascii_of_byte_inj (b1 b2 : byte) : ascii_of_byte b1 = ascii_of_byte b2 -> b1 = b2.
Proof.
  intros Heq. apply (f_equal byte_of_ascii) in Heq.
  by rewrite !byte_of_ascii_of_byte in Heq.
Qed.

Lemma char_key_inj : Inj (=) (=) char_key.
Proof.
  intros [n1|s1] [n2|s2]; unfold char_key.
  - destruct (byte_of_int n1) as [b1|] eqn:E1;
      destruct (byte_of_int n2) as [b2|] eqn:E2; intros [= Heq].
    + apply ascii_of_byte_inj in Heq. subst b2.
      apply byte_of_int_inv in E1, E2. congruence.
    + by subst.
  - by destruct (byte_of_int n1).
  - by destruct (byte_of_int n2).
  - by intros [= ->].
Qed.

Lemma encoding_table_keys_byte_values (data : bytes) (printed : list str)
    (huffman_tree : option HuffmanNode) :
  build_huffman_tree (build_frequency_table (iter_bytes data)) = Some (printed, huffman_tree) ->
  Forall (fun k => exists b, k = PInt (byte_value b))
    (dict_keys (build_encoding_table huffman_tree)).
Proof.
  intros Htree. destruct data as [|b data].
  - vm_compute in Htree. injection Htree as <- <-. constructor.
  - destruct (encoding_table_spec (build_frequency_table (iter_bytes (b :: data))))
      as (root & Hroot & _ & _ & Htbl & Hkeys).
    { by apply build_frequency_table_nonempty. }
    { apply build_frequency_table_ok. }
    rewrite Hroot in Htree. injection Htree as <- <-. rewrite Htbl.
    apply Forall_forall. intros k Hk. rewrite Hkeys in Hk.
    apply (proj1 (build_frequency_table_keys _ _)) in Hk.
    apply list_elem_of_fmap in Hk as (b' & -> & _). eauto.
Qed.

Lemma code_lines_char_key (encoding_table : dict str) :
  Forall (fun k => exists b, k = PInt (byte_value b)) (dict_keys encoding_table) ->
  code_lines (rename_keys char_key encoding_table)
  = (fun '(symbol, code) => chr symbol ++ TAB ++ code) <$> encoding_table.
Proof.
  intros Hkeys. unfold code_lines, rename_keys. rewrite <- list_fmap_compose.
  apply Forall_fmap_ext_1. unfold dict_keys in Hkeys. rewrite Forall_fmap in Hkeys.
  eapply Forall_impl; [exact Hkeys|]. intros [k code] [b Hk]. simpl in Hk. subst k.
  simpl. rewrite byte_of_int_value. unfold byte_value. rewrite N2Z.id.
  by rewrite ascii_of_byte_via_N.
Qed.

Lemma build_frequency_table_get (data : list pyval) (symbol : pyval) :
  dict_get symbol (build_frequency_table data)
  = if decide (symbol ∈ data) then Some (occurrences symbol data) else None.
Proof.
  pose proof (count_fold_get data [] symbol) as Hget.
  rewrite <- build_frequency_table_fold in Hget. simpl in Hget.
  destruct (decide (symbol ∈ data)) as [Hin|Hnin].
  - apply build_frequency_table_keys, dict_get_is_Some in Hin as [n Hn].
    rewrite Hn in Hget |- *. simpl in Hget. by rewrite Hget.
  - apply dict_get_None. by rewrite build_frequency_table_keys.
Qed.

(** ** analyze_frequency and the [-s] option *)

(** X17. [analyze_frequency] changes no file. When it returns it has
    printed its four heading lines and then one line for each entry of a
    table whose keys are the distinct characters of the text, read as UTF-8
    with universal newlines and stripped on the right, each with the number
    of its occurrences; for a text that is empty after stripping it prints
    the headings alone, without an error. *)
Theorem analyze_frequency_lines (input_file : str) (w w' : world) :
  analyze_frequency input_file w = Some w' ->
  exists data frequency_table,
    read_text input_file w = Some data
    /\ files w' = files w
    /\ stdout w'
       = stdout w
         ++ [lit "Análise de frequência:"; lit "-------------------";
             lit "Símbolo" ++ TAB ++ lit "Frequência";
             lit "------" ++ TAB ++ lit "---------"]
         ++ frequency_lines frequency_table
    /\ NoDup (dict_keys frequency_table)
    /\ (forall symbol,
          dict_get symbol frequency_table
          = if decide (symbol ∈ iter_text (str_rstrip data))
            then Some (occurrences symbol (iter_text (str_rstrip data)))
            else None)
    /\ (str_rstrip data = [] -> frequency_lines frequency_table = []).
Proof.
  unfold analyze_frequency. destruct (read_text input_file w) as [data|]; [|done].
  cbn [mbind option_bind]. intros [= <-].
  exists data, (build_frequency_table (iter_text (str_rstrip data))).
  split; [done|]. split; [done|]. split.
  { unfold print, print_lines. cbn [stdout files]. by rewrite <- !app_assoc. }
  split; [apply build_frequency_table_ok|].
  split; [intros symbol; apply build_frequency_table_get|].
  by intros ->.
Qed.

Section text_mode.
Context {float : Type} (percentage : nat -> nat -> float) (format_float : float -> str).

(** X18. For a file of plain ASCII bytes (no carriage return, none of the
    separators 1C to 1F), the [-s] option prints the table that [-c] uses to
    compress the same file: the same symbols in the same order with the
    same codes, each symbol shown as its character. *)
Theorem symbols_option_shows_compression_table (prog input_file : str)
    (contents : bytes) (w : world) :
  files w !! input_file = Some contents ->
  Forall (fun b => plain_byte b = true) contents ->
  exists printed huffman_tree,
    build_huffman_tree (build_frequency_table (iter_bytes (rstrip contents)))
      = Some (printed, huffman_tree)
    /\ main percentage format_float [prog; lit "-s"; lit "-f"; input_file] w
       = Some (World (files w)
                 (stdout w ++ printed
                    ++ [lit "Tabela de Frequência:"; lit "---------------"]
                    ++ ((fun '(symbol, code) => chr symbol ++ TAB ++ code)
                          <$> build_encoding_table huffman_tree))).
Proof.
  intros Hfile Hplain. pose proof char_key_inj as Hinj.
  destruct (read_text_plain input_file contents w Hfile Hplain) as (data & Hread & Hiter).
  destruct (compress_data_spec (rstrip contents))
    as (printed & huffman_tree & _ & _ & _ & Htree & _).
  exists printed, huffman_tree. split; [done|].
  rewrite main_s. unfold main_symbols. rewrite Hread. cbn [mbind option_bind].
  rewrite Hiter, (build_frequency_table_rename char_key),
    (build_huffman_tree_rename char_key), Htree.
  cbn [fmap option_fmap option_map mbind option_bind prod_map fst snd id].
  rewrite (build_encoding_table_rename char_key), code_lines_char_key.
  - unfold print, print_lines. cbn [stdout files]. by rewrite <- !app_assoc.
  - by eapply encoding_table_keys_byte_values.
Qed.

Lemma main_c_returns (prog input_file : str) (contents : bytes) (w : world) :
  files w !! input_file = Some contents ->
  exists w', main percentage format_float [prog; lit "-c"; lit "-f"; input_file] w = Some w'.
Proof.
  intros Hfile.
  destruct (compress_file_run input_file (input_file ++ lit ".huff") contents w Hfile)
    as (printed & written & _ & _ & Hcomp).
  assert (input_file ++ lit ".huff" <> input_file) as Hne.
  { intros Heq. symmetry in Heq. revert Heq. by apply app_neq_self. }
  rewrite main_c. unfold main_compress. rewrite Hcomp.
  cbn [mbind option_bind]. unfold getsize. cbn [files].
  rewrite (lookup_insert_ne _ (input_file ++ lit ".huff") input_file) by done.
  rewrite Hfile, lookup_insert_eq.
  cbn [fmap option_fmap option_map mbind option_bind].
  unfold calculate_compression_ratio.
  destruct (decide (length contents = 0)); eexists; reflexivity.
Qed.

(** X19. A file with a byte that UTF-8 never uses, or with a leading byte
    that no continuation byte follows (any accented letter of a Latin-1
    text before an ASCII character or at the end), makes [analyze_frequency]
    and the [-s] option raise while reading it; the [-c] option reads bytes
    and compresses the same file. *)
Theorem text_mode_rejects_broken_utf8 (prog input_file : str) (contents : bytes)
    (w : world) :
  files w !! input_file = Some contents ->
  broken_utf8 contents = true ->
  analyze_frequency input_file w = None
  /\ main percentage format_float [prog; lit "-s"; lit "-f"; input_file] w = None
  /\ exists w', main percentage format_float [prog; lit "-c"; lit "-f"; input_file] w
                = Some w'.
Proof.
  intros Hfile Hbroken.
  assert (read_text input_file w = None) as Hread.
  { unfold read_text. rewrite Hfile. cbn [mbind option_bind].
    destruct (decode_utf8 contents) as [chars|] eqn:Hdec; [|done].
    apply decode_utf8_not_broken in Hdec. congruence. }
  split; [|split].
  - unfold analyze_frequency. by rewrite Hread.
  - rewrite main_s. unfold main_symbols. by rewrite Hread.
  - by eapply main_c_returns.
Qed.

End text_mode.

Lemma analyze_frequency_lines_witness :
  exists data frequency_table,
    read_text (lit "a.txt") sample_files = Some data
    /\ files (World (files sample_files)
               [lit "Análise de frequência:"; lit "-------------------";
                lit "Símbolo" ++ TAB ++ lit "Frequência";
                lit "------" ++ TAB ++ lit "---------";
                lit "a" ++ TAB ++ lit "3"; lit "b" ++ TAB ++ lit "2";
                lit "c" ++ TAB ++ lit "1"])
       = files sample_files
    /\ stdout (World (files sample_files)
                [lit "Análise de frequência:"; lit "-------------------";
                 lit "Símbolo" ++ TAB ++ lit "Frequência";
                 lit "------" ++ TAB ++ lit "---------";
                 lit "a" ++ TAB ++ lit "3"; lit "b" ++ TAB ++ lit "2";
                 lit "c" ++ TAB ++ lit "1"])
       = stdout sample_files
         ++ [lit "Análise de frequência:"; lit "-------------------";
             lit "Símbolo" ++ TAB ++ lit "Frequência";
             lit "------" ++ TAB ++ lit "---------"]
         ++ frequency_lines frequency_table
    /\ NoDup (dict_keys frequency_table)
    /\ (forall symbol,
          dict_get symbol frequency_table
          = if decide (symbol ∈ iter_text (str_rstrip data))
            then Some (occurrences symbol (iter_text (str_rstrip data)))
            else None)
    /\ (str_rstrip data = [] -> frequency_lines frequency_table = []).
Proof.
  apply (analyze_frequency_lines (lit "a.txt") sample_files).
  reflexivity.
Defined.

Lemma symbols_option_shows_compression_table_witness :
  exists printed huffman_tree,
    build_huffman_tree
      (build_frequency_table (iter_bytes (rstrip [x61; x61; x61; x62; x62; x63; x0a])))
      = Some (printed, huffman_tree)
    /\ main sample_percentage sample_format_float
         [lit "main.py"; lit "-s"; lit "-f"; lit "a.txt"] sample_files
       = Some (World (files sample_files)
                 (stdout sample_files ++ printed
                    ++ [lit "Tabela de Frequência:"; lit "---------------"]
                    ++ ((fun '(symbol, code) => chr symbol ++ TAB ++ code)
                          <$> build_encoding_table huffman_tree))).
Proof.
  apply (symbols_option_shows_compression_table sample_percentage sample_format_float
           (lit "main.py") (lit "a.txt") [x61; x61; x61; x62; x62; x63; x0a] sample_files).
  - reflexivity.
  - repeat constructor.
Defined.

Lemma text_mode_rejects_broken_utf8_witness :
  analyze_frequency (lit "latin1.txt") sample_files = None
  /\ main sample_percentage sample_format_float
       [lit "main.py"; lit "-s"; lit "-f"; lit "latin1.txt"] sample_files = None
  /\ exists w', main sample_percentage sample_format_float
                  [lit "main.py"; lit "-c"; lit "-f"; lit "latin1.txt"] sample_files
                = Some w'.
Proof.
  apply (text_mode_rejects_broken_utf8 sample_percentage sample_format_float
           (lit "main.py") (lit "latin1.txt") [x63; x61; x66; xe9; x0a] sample_files).
  - reflexivity.
  - reflexivity.
Defined.

(** ** A missing file *)

Section missing_file.
Context {float : Type} (percentage : nat -> nat -> float) (format_float : float -> str).

(** X20. [main] handles no missing file: with [-c], with [-s], and with
    [-d] and a name ending in [.huff], the exception of [open] leaves
    [main], and nothing has been printed or written. With [-d] and any other
    name the extension is reported and the file is never opened. *)
Theorem main_missing_file (prog input_file : str) (w : world) :
  files w !! input_file = None ->
  main percentage format_float [prog; lit "-c"; lit "-f"; input_file] w = None
  /\ main percentage format_float [prog; lit "-s"; lit "-f"; input_file] w = None
  /\ main percentage format_float [prog; lit "-d"; lit "-f"; input_file] w
     = if endswith input_file (lit ".huff") then None
       else Some (print (lit "Erro: o arquivo de entrada não parece ser um arquivo comprimido.") w).
Proof.
  intros Hfile. split; [|split].
  - rewrite main_c. unfold main_compress, compress_file. by rewrite Hfile.
  - rewrite main_s. unfold main_symbols, read_text. by rewrite Hfile.
  - rewrite main_d. unfold main_decompress. by rewrite Hfile.
Qed.

End missing_file.

Lemma main_missing_file_witness :
  main sample_percentage sample_format_float
    [lit "main.py"; lit "-c"; lit "-f"; lit "none.huff"] sample_files = None
  /\ main sample_percentage sample_format_float
       [lit "main.py"; lit "-s"; lit "-f"; lit "none.huff"] sample_files = None
  /\ main sample_percentage sample_format_float
       [lit "main.py"; lit "-d"; lit "-f"; lit "none.huff"] sample_files
     = if endswith (lit "none.huff") (lit ".huff") then None
       else Some (print (lit "Erro: o arquivo de entrada não parece ser um arquivo comprimido.")
                    sample_files).
Proof.
  apply (main_missing_file sample_percentage sample_format_float
           (lit "main.py") (lit "none.huff") sample_files).
  reflexivity.
Defined.
